(** * Transport and reconnection subsystem of the real-time session client

    A shallow embedding of
      - [src/hooks/useReconnect.ts]      (reconnection controller),
      - [src/context/SessionContext.tsx] (session coordinator),
      - [src/utils/security.ts], [src/utils/errorHandler.ts],
      - [src/adapters/*Transport.ts]     (the three wire transports),
    together with the properties of these components.

    Conventions.  A JavaScript number is an exact rational ([Q]) where the
    code computes with fractions (delays, jitter) and an integer ([Z]) where
    it only counts or compares (attempt counters, timestamps, lengths).  A
    JavaScript string is its list of UTF-16 code units ([text]).  React state
    is threaded explicitly: every callback of a hook is a function from the
    hook's state to its next state, and a value the runtime supplies
    ([Math.random()], [Date.now()], [crypto.randomUUID()], the outcome of an
    awaited promise) is an argument of that function. *)

From Stdlib Require Import ZArith NArith QArith Qround Qminmax Qpower Lqa.
From Stdlib Require Import List Sorted Bool Lia.
From Stdlib Require Import Ascii String.
Import ListNotations.

Local Open Scope Z_scope.

(** ** Shared types ([src/config.ts], [src/types/session.ts]) *)

Inductive TransportType := websocket | sse | polling.

Inductive ConnectionStatus := connecting | open | closed | error.

Definition TransportType_eqb (a b : TransportType) : bool :=
  match a, b with
  | websocket, websocket | sse, sse | polling, polling => true
  | _, _ => false
  end.


(** [config.performance]: the values read once from the environment. *)
Record Performance := {
  maxMessages : Z;
  reconnectMaxAttempts : Z;
  reconnectInitialDelay : Q;
  reconnectMaxDelay : Q
}.

Definition default_performance : Performance :=
  {| maxMessages := 1000;
     reconnectMaxAttempts := 10;
     reconnectInitialDelay := 1000%Q;
     reconnectMaxDelay := 30000%Q |}.

(** ** The reconnection controller ([src/hooks/useReconnect.ts]) *)

Module Reconnect.

Record ReconnectConfig := {
  initialDelay : Q;
  maxDelay : Q;
  multiplier : Q;
  maxAttempts : Z;
  jitter : bool;
  jitterPercent : Q
}.

Record ReconnectState := {
  isReconnecting : bool;
  attempts : Z;
  nextDelay : Q;
  countdown : Z;
  currentTransport : TransportType;
  maxAttemptsReached : bool
}.

Definition TRANSPORT_FALLBACK_ORDER : list TransportType :=
  [websocket; sse; polling].

(** [DEFAULT_CONFIG], as a function of the environment's performance values. *)
Definition DEFAULT_CONFIG (p : Performance) : ReconnectConfig :=
  {| initialDelay := reconnectInitialDelay p;
     maxDelay := reconnectMaxDelay p;
     multiplier := 2%Q;
     maxAttempts := reconnectMaxAttempts p;
     jitter := true;
     jitterPercent := (2 # 10)%Q |}.

(** [Array.prototype.indexOf]: the first index holding [x], or [-1]. *)
Fixpoint indexOf (l : list TransportType) (x : TransportType) : Z :=
  match l with
  | [] => -1
  | y :: l' =>
      if TransportType_eqb y x then 0
      else let i := indexOf l' x in if i <? 0 then -1 else i + 1
  end.

(** The [baseDelay] of [calculateNextDelay]: exponential backoff, capped. *)
Definition baseDelay (config : ReconnectConfig) (currentDelay : Q) : Q :=
  Qmin (currentDelay * multiplier config)%Q (maxDelay config).

(** [calculateNextDelay]; [rnd] is the value of [Math.random()]. *)
Definition calculateNextDelay (config : ReconnectConfig) (rnd : Q)
    (currentDelay : Q) : Q :=
  let baseDelay := baseDelay config currentDelay in
  if jitter config then
    let jitterAmount := (baseDelay * jitterPercent config)%Q in
    let jit := (jitterAmount * (rnd * 2 - 1))%Q in
    inject_Z (Qfloor (baseDelay + jit)%Q)
  else baseDelay.

(** [getNextTransport].  The last argument of [nth] stands for the
    [undefined] of an out-of-range array read, which [nextIndex] never is. *)
Definition getNextTransport (current : TransportType) : TransportType :=
  let currentIndex := indexOf TRANSPORT_FALLBACK_ORDER current in
  let nextIndex :=
    (currentIndex + 1) mod Z.of_nat (List.length TRANSPORT_FALLBACK_ORDER) in
  nth (Z.to_nat nextIndex) TRANSPORT_FALLBACK_ORDER websocket.

(** A pending [setTimeout] of [scheduleReconnection]: its delay and the
    transport its callback will hand to [onReconnect]. *)
Record Timer := {
  timer_delay : Q;
  timer_transport : TransportType
}.

(** The hook instance: its React state, its two timer refs, its
    [isConnectedRef] and the two arguments [currentTransport] and
    [isConnected] of the latest render.  [countdownTimerRef] holds the
    [delayMs] the running interval was started with.  A ref holds [None]
    when it is [null] or its timer has already run out. *)
Record Hook := {
  state : ReconnectState;
  reconnectTimerRef : option Timer;
  countdownTimerRef : option Q;
  isConnectedRef : bool;
  arg_currentTransport : TransportType;
  arg_isConnected : bool
}.

Definition setState (f : ReconnectState -> ReconnectState) (h : Hook) : Hook :=
  {| state := f (state h);
     reconnectTimerRef := reconnectTimerRef h;
     countdownTimerRef := countdownTimerRef h;
     isConnectedRef := isConnectedRef h;
     arg_currentTransport := arg_currentTransport h;
     arg_isConnected := arg_isConnected h |}.

Definition set_reconnectTimer (t : option Timer) (h : Hook) : Hook :=
  {| state := state h;
     reconnectTimerRef := t;
     countdownTimerRef := countdownTimerRef h;
     isConnectedRef := isConnectedRef h;
     arg_currentTransport := arg_currentTransport h;
     arg_isConnected := arg_isConnected h |}.

Definition set_countdownTimer (t : option Q) (h : Hook) : Hook :=
  {| state := state h;
     reconnectTimerRef := reconnectTimerRef h;
     countdownTimerRef := t;
     isConnectedRef := isConnectedRef h;
     arg_currentTransport := arg_currentTransport h;
     arg_isConnected := arg_isConnected h |}.

(** The hook's initial state (first render). *)
Definition useReconnect_init (config : ReconnectConfig)
    (currentTransport0 : TransportType) (isConnected0 : bool) : Hook :=
  {| state := {| isReconnecting := false;
                 attempts := 0;
                 nextDelay := initialDelay config;
                 countdown := 0;
                 currentTransport := currentTransport0;
                 maxAttemptsReached := false |};
     reconnectTimerRef := None;
     countdownTimerRef := None;
     isConnectedRef := isConnected0;
     arg_currentTransport := currentTransport0;
     arg_isConnected := isConnected0 |}.

Definition clearTimers (h : Hook) : Hook :=
  set_countdownTimer None (set_reconnectTimer None h).

(** [startCountdown]: the displayed seconds and the one-second interval. *)
Definition startCountdown (delayMs : Q) (h : Hook) : Hook :=
  set_countdownTimer (Some delayMs)
    (setState (fun prev =>
       {| isReconnecting := isReconnecting prev;
          attempts := attempts prev;
          nextDelay := nextDelay prev;
          countdown := Qceiling (delayMs / 1000)%Q;
          currentTransport := currentTransport prev;
          maxAttemptsReached := maxAttemptsReached prev |}) h).

(** One run of the interval callback of [startCountdown], [elapsed]
    milliseconds after the countdown began. *)
Definition countdownTick (elapsed : Q) (h : Hook) : Hook :=
  match countdownTimerRef h with
  | None => h
  | Some delayMs =>
      let remaining := Z.max 0 (Qceiling ((delayMs - elapsed) / 1000)%Q) in
      let h' := setState (fun prev =>
        {| isReconnecting := isReconnecting prev;
           attempts := attempts prev;
           nextDelay := nextDelay prev;
           countdown := remaining;
           currentTransport := currentTransport prev;
           maxAttemptsReached := maxAttemptsReached prev |}) h in
      if remaining =? 0 then set_countdownTimer None h' else h'
  end.

(** [scheduleReconnection].  [rnd] is the [Math.random()] that
    [calculateNextDelay] draws when it is called. *)
Definition scheduleReconnection (config : ReconnectConfig) (rnd : Q)
    (h : Hook) : Hook :=
  let h := clearTimers h in
  let prev := state h in
  if attempts prev >=? maxAttempts config then
    setState (fun prev =>
      {| isReconnecting := false;
         attempts := attempts prev;
         nextDelay := nextDelay prev;
         countdown := countdown prev;
         currentTransport := currentTransport prev;
         maxAttemptsReached := true |}) h
  else
    let nextDelay' :=
      if attempts prev =? 0 then initialDelay config
      else calculateNextDelay config rnd (nextDelay prev) in
    let nextTransport := getNextTransport (currentTransport prev) in
    let h := setState (fun prev =>
      {| isReconnecting := true;
         attempts := attempts prev + 1;
         nextDelay := nextDelay';
         countdown := countdown prev;
         currentTransport := nextTransport;
         maxAttemptsReached := maxAttemptsReached prev |}) h in
    let h := startCountdown nextDelay' h in
    set_reconnectTimer
      (Some {| timer_delay := nextDelay'; timer_transport := nextTransport |}) h.

(** [startReconnection]. *)
Definition startReconnection (config : ReconnectConfig) (rnd : Q)
    (h : Hook) : Hook :=
  scheduleReconnection config rnd
    (setState (fun prev =>
       {| isReconnecting := isReconnecting prev;
          attempts := 0;
          nextDelay := initialDelay config;
          countdown := countdown prev;
          currentTransport := currentTransport prev;
          maxAttemptsReached := false |}) h).

(** [stopReconnection]. *)
Definition stopReconnection (h : Hook) : Hook :=
  setState (fun prev =>
    {| isReconnecting := false;
       attempts := attempts prev;
       nextDelay := nextDelay prev;
       countdown := 0;
       currentTransport := currentTransport prev;
       maxAttemptsReached := maxAttemptsReached prev |}) (clearTimers h).

(** The state update shared by [resetReconnection], [forceReconnect] and
    the connection effect. *)
Definition resetState (config : ReconnectConfig) (prev : ReconnectState)
    : ReconnectState :=
  {| isReconnecting := false;
     attempts := 0;
     nextDelay := initialDelay config;
     countdown := 0;
     currentTransport := currentTransport prev;
     maxAttemptsReached := false |}.

(** [resetReconnection]. *)
Definition resetReconnection (config : ReconnectConfig) (h : Hook) : Hook :=
  setState (resetState config) (clearTimers h).

(** The result of a callback that may call [onReconnect]: the next hook
    state and the transports [onReconnect] was called with, in order. *)
Definition Outcome : Type := Hook * list TransportType.

(** [forceReconnect].  Its first two statements are those of
    [resetReconnection].  [failed] tells whether the awaited
    [onReconnect(currentTransport)] rejected. *)
Definition forceReconnect (config : ReconnectConfig) (failed : bool)
    (rnd : Q) (h : Hook) : Outcome :=
  let h := resetReconnection config h in
  let calls := [arg_currentTransport h] in
  if failed then (startReconnection config rnd h, calls) else (h, calls).

(** The callback of the [setTimeout] armed by [scheduleReconnection]:
    it runs only when a timer is pending, calls [onReconnect] with the
    transport chosen when it was armed and, when that rejects, schedules
    the next attempt. *)
Definition reconnectTimerFired (config : ReconnectConfig) (failed : bool)
    (rnd : Q) (h : Hook) : Outcome :=
  match reconnectTimerRef h with
  | None => (h, [])
  | Some t =>
      let h := set_reconnectTimer None h in
      let calls := [timer_transport t] in
      if failed then (scheduleReconnection config rnd h, calls) else (h, calls)
  end.

(** The effect on [currentTransport]: a render with a new argument copies
    it into the state. *)
Definition currentTransportEffect (t : TransportType) (h : Hook) : Hook :=
  setState (fun prev =>
    {| isReconnecting := isReconnecting prev;
       attempts := attempts prev;
       nextDelay := nextDelay prev;
       countdown := countdown prev;
       currentTransport := t;
       maxAttemptsReached := maxAttemptsReached prev |})
    {| state := state h;
       reconnectTimerRef := reconnectTimerRef h;
       countdownTimerRef := countdownTimerRef h;
       isConnectedRef := isConnectedRef h;
       arg_currentTransport := t;
       arg_isConnected := arg_isConnected h |}.

(** The effect on [isConnected]. *)
Definition isConnectedEffect (config : ReconnectConfig) (isConnected : bool)
    (h : Hook) : Hook :=
  let wasConnected := isConnectedRef h in
  let h := {| state := state h;
              reconnectTimerRef := reconnectTimerRef h;
              countdownTimerRef := countdownTimerRef h;
              isConnectedRef := isConnected;
              arg_currentTransport := arg_currentTransport h;
              arg_isConnected := isConnected |} in
  if isConnected && negb wasConnected
  then setState (resetState config) (clearTimers h)
  else h.

(** Everything that can happen to a mounted hook. *)
Inductive Event :=
| EvStartReconnection (rnd : Q)
| EvStopReconnection
| EvResetReconnection
| EvForceReconnect (failed : bool) (rnd : Q)
| EvReconnectTimer (failed : bool) (rnd : Q)
| EvCountdownTick (elapsed : Q)
| EvCurrentTransport (t : TransportType)
| EvIsConnected (b : bool).

(** The two calls that restart scheduling after the attempt limit. *)
Definition isRestart (e : Event) : bool :=
  match e with
  | EvStartReconnection _ | EvForceReconnect _ _ => true
  | _ => false
  end.

Definition step (config : ReconnectConfig) (h : Hook) (e : Event) : Outcome :=
  match e with
  | EvStartReconnection rnd => (startReconnection config rnd h, [])
  | EvStopReconnection => (stopReconnection h, [])
  | EvResetReconnection => (resetReconnection config h, [])
  | EvForceReconnect failed rnd => forceReconnect config failed rnd h
  | EvReconnectTimer failed rnd => reconnectTimerFired config failed rnd h
  | EvCountdownTick elapsed => (countdownTick elapsed h, [])
  | EvCurrentTransport t => (currentTransportEffect t h, [])
  | EvIsConnected b => (isConnectedEffect config b h, [])
  end.

Definition noTimers (h : Hook) : Prop :=
  reconnectTimerRef h = None /\ countdownTimerRef h = None.

(** The hook states passed through while handling a list of events. *)
Fixpoint run (config : ReconnectConfig) (h : Hook) (es : list Event)
    : list Hook :=
  match es with
  | [] => []
  | e :: es' => let h' := fst (step config h e) in h' :: run config h' es'
  end.

(** Consecutive calls of [scheduleReconnection], one per random draw: the
    hook states after each call. *)
Fixpoint reschedule (config : ReconnectConfig) (rnds : list Q) (h : Hook)
    : list Hook :=
  match rnds with
  | [] => []
  | r :: rs =>
      let h' := scheduleReconnection config r h in
      h' :: reschedule config rs h'
  end.

(** An attempt sequence: [startReconnection], then one rescheduling for
    every attempt that failed. *)
Definition attemptSequence (config : ReconnectConfig) (rnd0 : Q)
    (rnds : list Q) (h : Hook) : list Hook :=
  let h0 := startReconnection config rnd0 h in
  h0 :: reschedule config rnds h0.

(** The delay of each attempt of a sequence, and the transport handed to
    [onReconnect] by each timer the sequence armed. *)
Definition delays (hs : list Hook) : list Q :=
  map (fun h => nextDelay (state h)) hs.

Definition armedTransports (hs : list Hook) : list TransportType :=
  flat_map (fun h => match reconnectTimerRef h with
                     | Some t => [timer_transport t]
                     | None => []
                     end) hs.




(** The pre-jitter delays of an attempt sequence with delays [ds]: the
    initial delay for the first attempt, then the capped multiple of the
    delay before. *)
Definition baseDelays (config : ReconnectConfig) (ds : list Q) : list Q :=
  initialDelay config :: map (baseDelay config) (removelast ds).

(** The rotation as the specification words it: [n] transports in the
    cyclic order, beginning with the successor of [t]. *)
Fixpoint rotation (t : TransportType) (n : nat) : list TransportType :=
  match n with
  | O => []
  | S n' => getNextTransport t :: rotation (getNextTransport t) n'
  end.

(** How often a list of attempted transports visits [t]. *)
Definition visits (t : TransportType) (l : list TransportType) : nat :=
  List.length (filter (TransportType_eqb t) l).


(** *** Runs of the hook *)


(** The attempts counter lies between zero and the limit. *)
Definition attemptsInRange (config : ReconnectConfig) (h : Hook) : Prop :=
  0 <= attempts (state h) <= maxAttempts config.



End Reconnect.

(** ** JavaScript strings *)

Module Text.

Local Open Scope N_scope.

(** A string is the list of its UTF-16 code units. *)
Definition text : Type := list N.

(** A string literal of the source (ASCII). *)
Definition lit (s : string) : text := map N_of_ascii (list_ascii_of_string s).

Fixpoint text_eqb (a b : text) : bool :=
  match a, b with
  | [], [] => true
  | x :: a', y :: b' => (x =? y) && text_eqb a' b'
  | _, _ => false
  end.

(** [String.prototype.trim] removes WhiteSpace and LineTerminator code
    points from both ends. *)
Definition isTrimWhitespace (c : N) : bool :=
  (c =? 9) || (c =? 10) || (c =? 11) || (c =? 12) || (c =? 13) || (c =? 32)
  || (c =? 160) || (c =? 5760) || ((8192 <=? c) && (c <=? 8202))
  || (c =? 8232) || (c =? 8233) || (c =? 8239) || (c =? 8287)
  || (c =? 12288) || (c =? 65279).

Fixpoint dropWhile (f : N -> bool) (s : text) : text :=
  match s with
  | [] => []
  | c :: s' => if f c then dropWhile f s' else s
  end.

Definition trim (s : text) : text :=
  rev (dropWhile isTrimWhitespace (rev (dropWhile isTrimWhitespace s))).

(** *** The regular expressions of the source

    Every pattern of the source is a literal, or two literals with [.*]
    between them, with or without the [i] flag. *)
Inductive RegExp :=
| Literal (ignoreCase : bool) (s : text)
| LiteralGapLiteral (ignoreCase : bool) (s1 s2 : text).

(** Canonicalize of a case-insensitive match without the [u] flag.  A
    pattern character of the source is ASCII, and the only code units whose
    canonical form is an ASCII capital are that capital and its lower-case
    letter; so upper-casing [a]..[z] and keeping every other code unit
    compares as the runtime does. *)
Definition canonicalize (c : N) : N :=
  if (97 <=? c) && (c <=? 122) then c - 32 else c.

Definition charMatches (ignoreCase : bool) (p c : N) : bool :=
  if ignoreCase then canonicalize p =? canonicalize c else p =? c.

(** Match the literal [pat] at the start of [s]: what follows it. *)
Fixpoint matchLiteral (ignoreCase : bool) (pat s : text) : option text :=
  match pat, s with
  | [], _ => Some s
  | _ :: _, [] => None
  | p :: pat', c :: s' =>
      if charMatches ignoreCase p c then matchLiteral ignoreCase pat' s'
      else None
  end.

(** [.] matches every code unit but a line terminator. *)
Definition isLineTerminator (c : N) : bool :=
  (c =? 10) || (c =? 13) || (c =? 8232) || (c =? 8233).

(** [.*pat] at the start of [s]. *)
Fixpoint matchGapLiteral (ignoreCase : bool) (pat s : text) : bool :=
  match matchLiteral ignoreCase pat s with
  | Some _ => true
  | None =>
      match s with
      | [] => false
      | c :: s' =>
          if isLineTerminator c then false
          else matchGapLiteral ignoreCase pat s'
      end
  end.

Definition matchHere (r : RegExp) (s : text) : bool :=
  match r with
  | Literal ic pat =>
      match matchLiteral ic pat s with Some _ => true | None => false end
  | LiteralGapLiteral ic pat1 pat2 =>
      match matchLiteral ic pat1 s with
      | Some rest => matchGapLiteral ic pat2 rest
      | None => false
      end
  end.

(** [RegExp.prototype.test]: a match at some position of [s]. *)
Fixpoint test (r : RegExp) (s : text) : bool :=
  matchHere r s
  || match s with
     | [] => false
     | _ :: s' => test r s'
     end.

End Text.

(** ** JSON values, [JSON.parse] and [JSON.stringify]

    The values are those [JSON.parse] can return.  A number is kept as its
    text ([Number::toString] of the number, resp. the lexeme [JSON.parse]
    read); the runtime's conversions between a double and its text are not
    modelled, and the two that have no JSON text, printed [NaN] and
    [Infinity] by the runtime, are numbers whose text is no JSON number.
    An object is the list of its own properties in property order. *)

Module JSON.
Import Text.

Local Open Scope N_scope.

#[warnings="-register-all"]
Inductive value :=
| JNull
| JBool (b : bool)
| JNum (lexeme : text)
| JStr (s : text)
| JArr (items : list value)
| JObj (members : list (text * value)).

(** *** Numbers *)

Definition isDigit (c : N) : bool := (48 <=? c) && (c <=? 57).

Fixpoint spanDigits (s : text) : text * text :=
  match s with
  | [] => ([], [])
  | c :: s' =>
      if isDigit c then let (ds, r) := spanDigits s' in (c :: ds, r)
      else ([], s)
  end.

(** [0], or a non-zero digit followed by digits. *)
Definition scanInt (s : text) : option (text * text) :=
  match s with
  | [] => None
  | c :: r =>
      if c =? 48 then Some ([c], r)
      else if isDigit c then let (ds, r') := spanDigits r in Some (c :: ds, r')
      else None
  end.

(** An optional [.] with at least one digit. *)
Definition scanFrac (s : text) : option (text * text) :=
  match s with
  | [] => Some ([], [])
  | c :: r =>
      if c =? 46 then
        match spanDigits r with
        | ([], _) => None
        | (ds, r') => Some (c :: ds, r')
        end
      else Some ([], s)
  end.

(** An optional [e] or [E], an optional sign, at least one digit. *)
Definition scanExp (s : text) : option (text * text) :=
  match s with
  | [] => Some ([], [])
  | c :: r =>
      if (c =? 101) || (c =? 69) then
        let (sg, r1) :=
          match r with
          | [] => ([], r)
          | c' :: r' => if (c' =? 43) || (c' =? 45) then ([c'], r') else ([], r)
          end in
        match spanDigits r1 with
        | ([], _) => None
        | (ds, r2) => Some (c :: sg ++ ds, r2)
        end
      else Some ([], s)
  end.

(** An optional minus sign. *)
Definition scanSign (s : text) : text * text :=
  match s with
  | [] => ([], s)
  | c :: r => if c =? 45 then ([c], r) else ([], s)
  end.

(** The JSON number at the start of [s], and what follows it. *)
Definition scanNumber (s : text) : option (text * text) :=
  let (sign, s1) := scanSign s in
  match scanInt s1 with
  | None => None
  | Some (i, s2) =>
      match scanFrac s2 with
      | None => None
      | Some (f, s3) =>
          match scanExp s3 with
          | None => None
          | Some (e, s4) => Some (sign ++ i ++ f ++ e, s4)
          end
      end
  end.

Definition isNumberLexeme (lex : text) : bool :=
  match scanNumber lex with
  | Some (_, []) => true
  | _ => false
  end.

(** *** Strings *)

Definition hexValue (c : N) : option N :=
  if (48 <=? c) && (c <=? 57) then Some (c - 48)
  else if (97 <=? c) && (c <=? 102) then Some (c - 87)
  else if (65 <=? c) && (c <=? 70) then Some (c - 55)
  else None.

Definition hexDigit (n : N) : N := if n <? 10 then 48 + n else 87 + n.

(** The four lower-case hexadecimal digits of a code unit. *)
Definition hex4 (c : N) : text :=
  [hexDigit (c / 4096); hexDigit ((c / 256) mod 16);
   hexDigit ((c / 16) mod 16); hexDigit (c mod 16)].

(** The character a single-character escape stands for. *)
Definition unescape (e : N) : option N :=
  if e =? 34 then Some 34
  else if e =? 92 then Some 92
  else if e =? 47 then Some 47
  else if e =? 98 then Some 8
  else if e =? 102 then Some 12
  else if e =? 110 then Some 10
  else if e =? 114 then Some 13
  else if e =? 116 then Some 9
  else None.

(** The characters of a JSON string after its opening quote, up to the
    closing quote, and what follows it. *)
Fixpoint parseStringBody (s : text) : option (text * text) :=
  match s with
  | [] => None
  | c :: r =>
      if c =? 34 then Some ([], r)
      else if c =? 92 then
        match r with
        | [] => None
        | e :: r' =>
            if e =? 117 then
              match r' with
              | h1 :: h2 :: h3 :: h4 :: r'' =>
                  match hexValue h1, hexValue h2, hexValue h3, hexValue h4 with
                  | Some a, Some b, Some c', Some d =>
                      match parseStringBody r'' with
                      | Some (str, rest) =>
                          Some (a * 4096 + b * 256 + c' * 16 + d :: str, rest)
                      | None => None
                      end
                  | _, _, _, _ => None
                  end
              | _ => None
              end
            else
              match unescape e with
              | Some c' =>
                  match parseStringBody r' with
                  | Some (str, rest) => Some (c' :: str, rest)
                  | None => None
                  end
              | None => None
              end
        end
      else if c <? 32 then None
      else
        match parseStringBody r with
        | Some (str, rest) => Some (c :: str, rest)
        | None => None
        end
  end.

Definition isHighSurrogate (c : N) : bool := (55296 <=? c) && (c <=? 56319).
Definition isLowSurrogate (c : N) : bool := (56320 <=? c) && (c <=? 57343).

Definition unicodeEscape (c : N) : text := 92 :: 117 :: hex4 c.

(** QuoteJSONString without the quotes: the two-character escapes, [\u]
    escapes for the other control characters and for lone surrogates, and
    every other code unit as it is. *)
Fixpoint escapeUnits (s : text) : text :=
  match s with
  | [] => []
  | c :: r =>
      if c =? 8 then 92 :: 98 :: escapeUnits r
      else if c =? 9 then 92 :: 116 :: escapeUnits r
      else if c =? 10 then 92 :: 110 :: escapeUnits r
      else if c =? 12 then 92 :: 102 :: escapeUnits r
      else if c =? 13 then 92 :: 114 :: escapeUnits r
      else if c =? 34 then 92 :: 34 :: escapeUnits r
      else if c =? 92 then 92 :: 92 :: escapeUnits r
      else if c <? 32 then unicodeEscape c ++ escapeUnits r
      else if isHighSurrogate c then
        match r with
        | d :: r' =>
            if isLowSurrogate d then c :: d :: escapeUnits r'
            else unicodeEscape c ++ escapeUnits r
        | [] => unicodeEscape c
        end
      else if isLowSurrogate c then unicodeEscape c ++ escapeUnits r
      else c :: escapeUnits r
  end.

Definition quoteJSONString (s : text) : text := 34 :: escapeUnits s ++ [34].

(** *** Objects *)

(** The array index a property key denotes, if it is one: a canonical
    decimal numeral below [2^32 - 1]. *)
Definition digitsValue (s : text) : N :=
  fold_left (fun acc c => acc * 10 + (c - 48)) s 0.

Definition arrayIndex (k : text) : option N :=
  match k with
  | [] => None
  | c :: r =>
      if forallb isDigit k && (negb (c =? 48) || match r with [] => true | _ => false end)
         && (List.length k <=? 10)%nat && (digitsValue k <? 4294967295)
      then Some (digitsValue k)
      else None
  end.

Fixpoint hasKey (k : text) (ms : list (text * value)) : bool :=
  match ms with
  | [] => false
  | (k', _) :: ms' => text_eqb k k' || hasKey k ms'
  end.

Fixpoint replaceValue (k : text) (v : value) (ms : list (text * value))
    : list (text * value) :=
  match ms with
  | [] => []
  | (k', v') :: ms' =>
      if text_eqb k k' then (k', v) :: ms'
      else (k', v') :: replaceValue k v ms'
  end.

(** A new array-index key goes before the first key that is no array
    index or a larger one. *)
Fixpoint insertIndex (n : N) (k : text) (v : value) (ms : list (text * value))
    : list (text * value) :=
  match ms with
  | [] => [(k, v)]
  | (k', v') :: ms' =>
      match arrayIndex k' with
      | Some n' =>
          if n' <? n then (k', v') :: insertIndex n k v ms'
          else (k, v) :: ms
      | None => (k, v) :: ms
      end
  end.

(** CreateDataProperty on an ordinary object: an existing key keeps its
    place and takes the new value; a new array index is put in numeric
    order among the array indices, which come first; any other new key
    goes last. *)
Definition objSet (k : text) (v : value) (ms : list (text * value))
    : list (text * value) :=
  if hasKey k ms then replaceValue k v ms
  else match arrayIndex k with
       | Some n => insertIndex n k v ms
       | None => ms ++ [(k, v)]
       end.

Fixpoint objGet (k : text) (ms : list (text * value)) : option value :=
  match ms with
  | [] => None
  | (k', v) :: ms' => if text_eqb k k' then Some v else objGet k ms'
  end.

(** The own property [key] of a value, [None] for [undefined]. *)
Definition property (key : text) (v : value) : option value :=
  match v with
  | JObj members => objGet key members
  | _ => None
  end.

(** The property list of the object built by defining [ms] one by one. *)
Definition objOfList (ms : list (text * value)) : list (text * value) :=
  fold_left (fun acc kv => objSet (fst kv) (snd kv) acc) ms [].

(** *** [JSON.parse] *)

Definition isJsonWhitespace (c : N) : bool :=
  (c =? 9) || (c =? 10) || (c =? 13) || (c =? 32).

Definition skipWs (s : text) : text := dropWhile isJsonWhitespace s.

Fixpoint parseValue (fuel : nat) (s : text) : option (value * text) :=
  match fuel with
  | O => None
  | S fuel' =>
      match skipWs s with
      | [] => None
      | c :: r =>
          if c =? 123 then
            match skipWs r with
            | [] => None
            | c' :: r' =>
                if c' =? 125 then Some (JObj [], r')
                else
                  match parseMembers fuel' (c' :: r') [] with
                  | Some (ms, rest) => Some (JObj ms, rest)
                  | None => None
                  end
            end
          else if c =? 91 then
            match skipWs r with
            | [] => None
            | c' :: r' =>
                if c' =? 93 then Some (JArr [], r')
                else
                  match parseElements fuel' (c' :: r') with
                  | Some (vs, rest) => Some (JArr vs, rest)
                  | None => None
                  end
            end
          else if c =? 34 then
            match parseStringBody r with
            | Some (str, rest) => Some (JStr str, rest)
            | None => None
            end
          else
            match matchLiteral false (lit "true") (c :: r) with
            | Some rest => Some (JBool true, rest)
            | None =>
            match matchLiteral false (lit "false") (c :: r) with
            | Some rest => Some (JBool false, rest)
            | None =>
            match matchLiteral false (lit "null") (c :: r) with
            | Some rest => Some (JNull, rest)
            | None =>
            match scanNumber (c :: r) with
            | Some (lex, rest) => Some (JNum lex, rest)
            | None => None
            end end end end
      end
  end
with parseElements (fuel : nat) (s : text) : option (list value * text) :=
  match fuel with
  | O => None
  | S fuel' =>
      match parseValue fuel' s with
      | None => None
      | Some (v, r) =>
          match skipWs r with
          | [] => None
          | c :: r' =>
              if c =? 44 then
                match parseElements fuel' r' with
                | Some (vs, rest) => Some (v :: vs, rest)
                | None => None
                end
              else if c =? 93 then Some ([v], r')
              else None
          end
      end
  end
with parseMembers (fuel : nat) (s : text) (acc : list (text * value))
    : option (list (text * value) * text) :=
  match fuel with
  | O => None
  | S fuel' =>
      match skipWs s with
      | [] => None
      | c :: r =>
          if c =? 34 then
            match parseStringBody r with
            | None => None
            | Some (k, r1) =>
                match skipWs r1 with
                | [] => None
                | c1 :: r2 =>
                    if c1 =? 58 then
                      match parseValue fuel' r2 with
                      | None => None
                      | Some (v, r3) =>
                          let acc' := objSet k v acc in
                          match skipWs r3 with
                          | [] => None
                          | c3 :: r4 =>
                              if c3 =? 44 then parseMembers fuel' r4 acc'
                              else if c3 =? 125 then Some (acc', r4)
                              else None
                          end
                      end
                    else None
                end
            end
          else None
      end
  end.

(** Enough fuel for every JSON text of the length of [s]. *)
Definition fuelFor (s : text) : nat := 2 * List.length s + 2.

(** [JSON.parse]: [None] where the runtime throws a SyntaxError. *)
Definition JSON_parse (s : text) : option value :=
  match parseValue (fuelFor s) s with
  | Some (v, rest) =>
      match skipWs rest with
      | [] => Some v
      | _ :: _ => None
      end
  | None => None
  end.

(** *** [JSON.stringify] *)

Fixpoint joinComma (parts : list text) : text :=
  match parts with
  | [] => []
  | [p] => p
  | p :: parts' => p ++ 44 :: joinComma parts'
  end.

Fixpoint JSON_stringify (v : value) : text :=
  match v with
  | JNull => lit "null"
  | JBool true => lit "true"
  | JBool false => lit "false"
  | JNum lexeme => if isNumberLexeme lexeme then lexeme else lit "null"
  | JStr s => quoteJSONString s
  | JArr items => 91 :: joinComma (map JSON_stringify items) ++ [93]
  | JObj members =>
      123 :: joinComma
               (map (fun kv => quoteJSONString (fst kv)
                               ++ 58 :: JSON_stringify (snd kv)) members)
          ++ [125]
  end.

(** *** What the source reads off a value *)

Inductive JSType := TString | TNumber | TBoolean | TObject.

(** [typeof]. *)
Definition typeof (v : value) : JSType :=
  match v with
  | JStr _ => TString
  | JNum _ => TNumber
  | JBool _ => TBoolean
  | JNull | JArr _ | JObj _ => TObject
  end.

Fixpoint takeWhile (f : N -> bool) (s : text) : text :=
  match s with
  | [] => []
  | c :: s' => if f c then c :: takeWhile f s' else []
  end.

(** ToBoolean; [None] is [undefined].  A number is falsy when it is a
    zero or [NaN]. *)
Definition truthy (v : option value) : bool :=
  match v with
  | None => false
  | Some JNull => false
  | Some (JBool b) => b
  | Some (JNum lexeme) =>
      if isNumberLexeme lexeme
      then existsb (fun c => (49 <=? c) && (c <=? 57))
             (takeWhile (fun c => negb ((c =? 101) || (c =? 69))) lexeme)
      else negb (text_eqb lexeme (lit "NaN"))
  | Some (JStr s) => match s with [] => false | _ :: _ => true end
  | Some (JArr _) | Some (JObj _) => true
  end.

(** A value the JSON text conversions keep apart: finite numbers, code
    units below [2^16], and every object the property list of an object. *)
Fixpoint wellFormed (v : value) : Prop :=
  match v with
  | JNull | JBool _ => True
  | JNum lexeme => isNumberLexeme lexeme = true
  | JStr s => Forall (fun c => c < 65536) s
  | JArr items =>
      (fix all (l : list value) : Prop :=
         match l with
         | [] => True
         | x :: l' => wellFormed x /\ all l'
         end) items
  | JObj members =>
      objOfList members = members
      /\ (fix all (l : list (text * value)) : Prop :=
            match l with
            | [] => True
            | (k, x) :: l' =>
                Forall (fun c => c < 65536) k /\ wellFormed x /\ all l'
            end) members
  end.

(** *** Devices of the round-trip proof *)

(** Induction on a value with the hypothesis for every item of an array
    and every member of an object. *)
Section ValueInduction.
Variable P : value -> Prop.
Hypothesis HNull : P JNull.
Hypothesis HBool : forall b, P (JBool b).
Hypothesis HNum : forall lexeme, P (JNum lexeme).
Hypothesis HStr : forall s, P (JStr s).
Hypothesis HArr : forall items, Forall P items -> P (JArr items).
Hypothesis HObj :
  forall members, Forall (fun kv => P (snd kv)) members -> P (JObj members).

Fixpoint value_induction (v : value) : P v :=
  match v with
  | JNull => HNull
  | JBool b => HBool b
  | JNum lexeme => HNum lexeme
  | JStr s => HStr s
  | JArr items =>
      HArr items
        ((fix all (l : list value) : Forall P l :=
            match l with
            | [] => Forall_nil P
            | x :: l' => Forall_cons x (value_induction x) (all l')
            end) items)
  | JObj members =>
      HObj members
        ((fix all (l : list (text * value))
            : Forall (fun kv => P (snd kv)) l :=
            match l with
            | [] => Forall_nil _
            | kv :: l' =>
                Forall_cons kv (value_induction (snd kv)) (all l')
            end) members)
  end.
End ValueInduction.

(** What may follow a value inside a JSON text: nothing, a comma or a
    closing bracket. *)
Definition delimited (rest : text) : Prop :=
  match rest with
  | [] => True
  | c :: _ => c = 44 \/ c = 93 \/ c = 125
  end.

(** A text without characters below the space. *)
Definition printable (s : text) : Prop := Forall (fun c => 32 <= c) s.

(** The fuel [parseValue] uses on the text of a value. *)
Definition needList (need : value -> nat) : list value -> nat :=
  fix go (l : list value) : nat :=
    match l with
    | [] => O
    | x :: l' => S (Nat.max (need x) (go l'))
    end.

Definition needMembers (need : value -> nat) : list (text * value) -> nat :=
  fix go (l : list (text * value)) : nat :=
    match l with
    | [] => O
    | kv :: l' => S (Nat.max (need (snd kv)) (go l'))
    end.

Fixpoint need (v : value) : nat :=
  match v with
  | JArr items => S (needList need items)
  | JObj members => S (needMembers need members)
  | _ => 1%nat
  end.

(** The fuel that a successful parse used is bounded by twice the
    characters it consumed; these are the statements of that bound for
    the three parsers. *)
Definition enoughValue (f : nat) : Prop :=
  forall s v r, parseValue f s = Some (v, r) ->
    (List.length r < List.length s)%nat
    /\ forall f', (2 * (List.length s - List.length r) - 1 <= f')%nat ->
                  parseValue f' s = Some (v, r).

Definition enoughElements (f : nat) : Prop :=
  forall s vs r, parseElements f s = Some (vs, r) ->
    (List.length r < List.length s)%nat
    /\ forall f', (2 * (List.length s - List.length r) <= f')%nat ->
                  parseElements f' s = Some (vs, r).

Definition enoughMembers (f : nat) : Prop :=
  forall s acc ms r, parseMembers f s acc = Some (ms, r) ->
    (List.length r < List.length s)%nat
    /\ forall f', (2 * (List.length s - List.length r) <= f')%nat ->
                  parseMembers f' s acc = Some (ms, r).



(** A text of UTF-16 code units. *)
Definition codeUnits (s : text) : Prop := Forall (fun c => c < 65536) s.








End JSON.

(** ** Exceptions *)

(** The completion of a JavaScript computation: a value, or a thrown
    [Error] with its message. *)
Inductive Completion (A : Type) :=
| Return (a : A)
| Throw (message : Text.text).

Arguments Return {A} a.
Arguments Throw {A} message.

(** ** [src/utils/security.ts] *)

Module Security.
Import Text JSON.

Local Open Scope N_scope.

(** [sanitizeInput] on a string: remove the null characters, then trim. *)
Definition sanitizeInput (input : text) : text :=
  let sanitized := filter (fun c => negb (c =? 0)) input in
  trim sanitized.

(** [sanitizeJsonInput]. *)
Definition sanitizeJsonInput (input : text) : Completion text :=
  let sanitized := sanitizeInput input in
  match JSON_parse sanitized with
  | Some parsed => Return (JSON_stringify parsed)
  | None => Throw (lit "Invalid JSON format")
  end.

Definition authErrorPatterns : list RegExp :=
  [ Literal true (lit "auth");
    Literal true (lit "unauthorized");
    Literal true (lit "forbidden");
    Literal false (lit "401");
    Literal false (lit "403");
    LiteralGapLiteral true (lit "invalid") (lit "token");
    LiteralGapLiteral true (lit "expired") (lit "token") ].

(** [isAuthenticationError], on the message of the error. *)
Definition isAuthenticationError (errorMessage : text) : bool :=
  existsb (fun pattern => test pattern errorMessage) authErrorPatterns.

Definition networkErrorPatterns : list RegExp :=
  [ Literal true (lit "network");
    Literal true (lit "connection");
    Literal true (lit "timeout");
    Literal true (lit "offline");
    Literal true (lit "unreachable");
    Literal true (lit "ECONNREFUSED");
    Literal true (lit "ETIMEDOUT") ].

(** [isNetworkError]. *)
Definition isNetworkError (errorMessage : text) : bool :=
  existsb (fun pattern => test pattern errorMessage) networkErrorPatterns.

(** [getUserFriendlyErrorMessage]. *)
Definition getUserFriendlyErrorMessage (errorMessage : text) : text :=
  if isAuthenticationError errorMessage then
    lit "Authentication failed. Please check your credentials and try again."
  else if isNetworkError errorMessage then
    lit "Network connection failed. Please check your internet connection and try again."
  else if test (Literal true (lit "timeout")) errorMessage then
    lit "Connection timed out. The server may be unavailable."
  else if test (Literal true (lit "websocket")) errorMessage then
    lit "WebSocket connection failed. Trying alternative connection method..."
  else
    match errorMessage with
    | [] => lit "An unexpected error occurred. Please try again."
    | _ :: _ => errorMessage
    end.



(** *** [escapeHtml] *)

(** [htmlEscapeMap]: the entity of each character of the class that
    [escapeHtml] replaces (ampersand, angle brackets, both quotes, slash);
    [None] for every other character. *)
Definition htmlEscapeMap (char : N) : option text :=
  if char =? 38 then Some (lit "&amp;")
  else if char =? 60 then Some (lit "&lt;")
  else if char =? 62 then Some (lit "&gt;")
  else if char =? 34 then Some (lit "&quot;")
  else if char =? 39 then Some (lit "&#x27;")
  else if char =? 47 then Some (lit "&#x2F;")
  else None.

(** [escapeHtml] on a string: the global replacement leaves a character
    outside the class alone and puts [htmlEscapeMap[char] || char] for one
    inside. *)
Definition escapeHtml (input : text) : text :=
  flat_map (fun char =>
              match htmlEscapeMap char with
              | Some entity => entity
              | None => [char]
              end) input.

(** What [escapeHtml] puts for one character. *)
Definition escapeChar (char : N) : text :=
  match htmlEscapeMap char with
  | Some entity => entity
  | None => [char]
  end.

(** The class of the replaced characters, and the markup characters among
    them (all but the ampersand, which every entity begins with). *)
Definition isHtmlSpecial (c : N) : bool :=
  (c =? 38) || (c =? 60) || (c =? 62) || (c =? 34) || (c =? 39) || (c =? 47).

Definition isMarkup (c : N) : bool :=
  (c =? 60) || (c =? 62) || (c =? 34) || (c =? 39) || (c =? 47).

(** *** [validateSessionConfig] *)

(** The argument of [validateSessionConfig]; an optional field is [None]
    when it is [undefined]. *)
Module ConfigInput.
Record t := {
  practiceId : text;
  conversationId : text;
  patientId : option text;
  timezone : text;
  authToken : option text
}.
End ConfigInput.

Record ValidationResult := {
  isValid : bool;
  errors : list (text * text)
}.

(** [/^-?\d+$/.test(s)]. *)
Definition isIntegerText (s : text) : bool :=
  let digits :=
    match s with
    | c :: r => if c =? 45 then r else s
    | [] => s
    end in
  match digits with
  | [] => false
  | _ :: _ => forallb isDigit digits
  end.

(** [parseInt(s, 10)]: leading white space, an optional sign, the longest
    run of digits; [None] is [NaN].  The integer is the exact one the
    digits denote; the number the runtime returns is the double nearest to
    it, which has the same sign and is zero only when the integer is. *)
Definition parseInt10 (s : text) : option Z :=
  let s1 := dropWhile isTrimWhitespace s in
  let (negative, s2) :=
    match s1 with
    | c :: r =>
        if c =? 45 then (true, r)
        else if c =? 43 then (false, r)
        else (false, s1)
    | [] => (false, s1)
    end in
  match fst (spanDigits s2) with
  | [] => None
  | ds =>
      let n := Z.of_N (digitsValue ds) in
      Some (if negative then (- n)%Z else n)
  end.

(** [!s] of a string. *)
Definition isEmpty (s : text) : bool :=
  match s with [] => true | _ :: _ => false end.

(** [value.length > limit]. *)
Definition longerThan (limit : nat) (s : text) : bool :=
  (limit <? List.length s)%nat.

(** [validateSessionConfig]: the errors in the order their properties are
    created. *)
Definition validateSessionConfig (config : ConfigInput.t) : ValidationResult :=
  let errors : list (text * text) := [] in
  let practiceIdSanitized := sanitizeInput (ConfigInput.practiceId config) in
  let errors :=
    if isEmpty practiceIdSanitized then
      errors ++ [(lit "practiceId", lit "Practice ID is required")]
    else if negb (isIntegerText practiceIdSanitized) then
      errors ++ [(lit "practiceId", lit "Practice ID must be a number")]
    else if match parseInt10 practiceIdSanitized with
            | Some n => (n <=? 0)%Z
            | None => false
            end then
      errors ++ [(lit "practiceId", lit "Practice ID must be positive")]
    else errors in
  let conversationIdSanitized :=
    sanitizeInput (ConfigInput.conversationId config) in
  let errors :=
    if isEmpty conversationIdSanitized then
      errors ++ [(lit "conversationId", lit "Conversation ID is required")]
    else if longerThan 255 conversationIdSanitized then
      errors ++ [(lit "conversationId",
                  lit "Conversation ID is too long (max 255 characters)")]
    else errors in
  let errors :=
    match ConfigInput.patientId config with
    | Some (c :: r) =>
        let patientIdSanitized := sanitizeInput (c :: r) in
        if longerThan 255 patientIdSanitized then
          errors ++ [(lit "patientId",
                      lit "Patient ID is too long (max 255 characters)")]
        else errors
    | _ => errors
    end in
  let timezoneSanitized := sanitizeInput (ConfigInput.timezone config) in
  let errors :=
    if isEmpty timezoneSanitized then
      errors ++ [(lit "timezone", lit "Timezone is required")]
    else if longerThan 100 timezoneSanitized then
      errors ++ [(lit "timezone",
                  lit "Timezone is too long (max 100 characters)")]
    else errors in
  let errors :=
    match ConfigInput.authToken config with
    | Some (c :: r) =>
        let authTokenSanitized := sanitizeInput (c :: r) in
        if longerThan 1000 authTokenSanitized then
          errors ++ [(lit "authToken", lit "Authentication token is too long")]
        else errors
    | _ => errors
    end in
  {| isValid := match errors with [] => true | _ :: _ => false end;
     errors := errors |}.

(** The tests of [validateSessionConfig] on the sanitized practice
    identifier, on a required field with a length limit and on an
    optional one: whether they add no error. *)
Definition practiceIdPasses (p : text) : bool :=
  negb (isEmpty p) && isIntegerText p
  && negb match parseInt10 p with
          | Some n => (n <=? 0)%Z
          | None => false
          end.

Definition lengthPasses (limit : nat) (s : text) : bool :=
  negb (isEmpty s) && negb (longerThan limit s).

Definition optionalPasses (limit : nat) (field : option text) : bool :=
  match field with
  | Some (c :: r) => negb (longerThan limit (sanitizeInput (c :: r)))
  | _ => true
  end.

(** A decimal numeral of a positive integer: digits only, not all zero. *)
Definition isPositiveNumeral (s : text) : bool :=
  forallb isDigit s && existsb (fun c => negb (c =? 48)) s.

End Security.

(** ** [src/utils/errorHandler.ts] *)

Module ErrorHandler.
Import Text JSON Security.

Record ErrorContext := {
  component : text;
  action : text
}.

Record HandledError := {
  message : text;
  userMessage : text;
  isAuthError : bool;
  isNetworkError : bool;
  shouldRetry : bool;
  shouldPreventReconnection : bool;
  context : ErrorContext
}.

(** [handleError], on the message of the error. *)
Definition handleError (errorMessage : text) (context : ErrorContext)
    : HandledError :=
  let isAuth := isAuthenticationError errorMessage in
  let isNetwork := Security.isNetworkError errorMessage in
  {| message := errorMessage;
     userMessage := getUserFriendlyErrorMessage errorMessage;
     isAuthError := isAuth;
     isNetworkError := isNetwork;
     shouldRetry := isNetwork && negb isAuth;
     shouldPreventReconnection := isAuth;
     context := context |}.


(** [shouldRetryOnError]. *)
Definition shouldRetryOnError (errorMessage : text) (attemptCount : Z) : bool :=
  if isAuthenticationError errorMessage then false
  else if Security.isNetworkError errorMessage then (attemptCount <? 3)%Z
  else false.

End ErrorHandler.

(** ** Effects of a method call

    A method of a transport or of the coordinator is a computation over
    the object's fields that may call out (callbacks, the socket, [fetch])
    and may throw.  [M S A] threads the fields [S], collects the calls in
    order and stops at the first exception not caught. *)

Module Js.
Import Text JSON.

(** The calls a method makes to the outside; [TransportSend] is the
    coordinator calling [send] of its transport. *)
Inductive Effect :=
| MessageCallback (message : value)
| StatusCallback (status : ConnectionStatus)
| ErrorCallback (errorMessage : text)
| SocketClose (code : Z) (reason : text)
| SocketSend (data : text)
| TransportSend (message : value)
| EventSourceClose
| FetchPost (path : text) (body : value)
| AbortRequest
| ClearTimer
| ConsoleError (label : text).

Definition M (S A : Type) : Type := S -> Completion A * S * list Effect.

Definition ret {S A : Type} (a : A) : M S A := fun s => (Return a, s, []).

Definition bind {S A B : Type} (m : M S A) (k : A -> M S B) : M S B :=
  fun s =>
    match m s with
    | (Return a, s', es) =>
        match k a s' with
        | (c, s'', es') => (c, s'', es ++ es')
        end
    | (Throw e, s', es) => (Throw e, s', es)
    end.

Definition throw {S A : Type} (errorMessage : text) : M S A :=
  fun s => (Throw errorMessage, s, []).

(** [try { body } catch (error) { handler(error.message) }]. *)
Definition tryCatch {S A : Type} (body : M S A) (handler : text -> M S A)
    : M S A :=
  fun s =>
    match body s with
    | (Return a, s', es) => (Return a, s', es)
    | (Throw e, s', es) =>
        match handler e s' with
        | (c, s'', es') => (c, s'', es ++ es')
        end
    end.

Definition get {S : Type} : M S S := fun s => (Return s, s, []).

Definition modify {S : Type} (f : S -> S) : M S unit :=
  fun s => (Return tt, f s, []).

Definition emit {S : Type} (e : Effect) : M S unit :=
  fun s => (Return tt, s, [e]).

Definition when {S : Type} (b : bool) (m : M S unit) : M S unit :=
  if b then m else ret tt.

Definition liftCompletion {S A : Type} (c : Completion A) : M S A :=
  fun s => (c, s, []).

(** What a finished call leaves behind. *)
Definition completion {S A : Type} (r : Completion A * S * list Effect)
    : Completion A := fst (fst r).
Definition fields {S A : Type} (r : Completion A * S * list Effect) : S :=
  snd (fst r).
Definition effects {S A : Type} (r : Completion A * S * list Effect)
    : list Effect := snd r.

Definition statusesOf (es : list Effect) : list ConnectionStatus :=
  flat_map (fun e => match e with StatusCallback s => [s] | _ => [] end) es.

Definition sentOf (es : list Effect) : list value :=
  flat_map (fun e => match e with TransportSend m => [m] | _ => [] end) es.

Definition messagesOf (es : list Effect) : list value :=
  flat_map (fun e => match e with MessageCallback m => [m] | _ => [] end) es.

(** The outcome of an awaited [fetch]. *)
Inductive FetchOutcome :=
| FetchRejected (errorMessage : text)
| FetchResponse (ok : bool) (status statusText : text).

Definition errorsOf (es : list Effect) : list text :=
  flat_map (fun e => match e with ErrorCallback m => [m] | _ => [] end) es.

(** What a handler installed by [connect] does to the promise that
    [connect] returned. *)
Inductive Settle :=
| Resolve
| Reject (errorMessage : text).

End Js.

Declare Scope js_scope.
Delimit Scope js_scope with js.
Notation "x <- m ;; k" := (Js.bind m (fun x => k))
  (at level 61, m at next level, right associativity) : js_scope.
Notation "m ;; k" := (Js.bind m (fun _ => k))
  (at level 61, right associativity) : js_scope.

(** ** The transports ([src/adapters]) *)

Module Transports.
Import Text JSON Js.

Local Open Scope js_scope.

(** [if (!messageData[key]) messageData[key] = dflt] in strict code:
    reading a property of [null] throws, and so does creating one on a
    primitive; the properties so added to an array are not among its
    items and are not kept.  [typeError] is the message of the TypeError
    the runtime would throw. *)
Definition ensureProperty {S : Type} (typeError : text) (key dflt : text)
    (messageData : value) : M S value :=
  match messageData with
  | JObj members =>
      if truthy (objGet key members) then ret messageData
      else ret (JObj (objSet key (JStr dflt) members))
  | JArr _ => ret messageData
  | JNull | JBool _ | JNum _ | JStr _ => throw typeError
  end.


(** [JSON.parse] inside a method; [syntaxError] is the message of the
    SyntaxError the runtime would throw. *)
Definition parseJson {S : Type} (syntaxError : text) (data : text)
    : M S value :=
  match JSON_parse data with
  | Some v => ret v
  | None => throw syntaxError
  end.

(** [btoa(String.fromCharCode(...bytes))]. *)
Definition base64Char (n : N) : N :=
  (if n <? 26 then 65 + n
   else if n <? 52 then 97 + (n - 26)
   else if n <? 62 then 48 + (n - 52)
   else if n =? 62 then 43 else 47)%N.

Fixpoint btoa (bytes : list N) : text :=
  (match bytes with
   | [] => []
   | [a] => [base64Char (a / 4); base64Char ((a mod 4) * 16); 61; 61]
   | [a; b] =>
       [base64Char (a / 4); base64Char ((a mod 4) * 16 + b / 16);
        base64Char ((b mod 16) * 4); 61]
   | a :: b :: c :: rest =>
       base64Char (a / 4) :: base64Char ((a mod 4) * 16 + b / 16)
       :: base64Char ((b mod 16) * 4 + c / 64) :: base64Char (c mod 64)
       :: btoa rest
   end)%N.

(** The decimal text of a length. *)
Definition digitChar (n : N) : N := (48 + n)%N.

Fixpoint decimalDigits (fuel : nat) (n : N) (acc : text) : text :=
  match fuel with
  | O => acc
  | S fuel' =>
      (if n <? 10 then digitChar n :: acc
       else decimalDigits fuel' (n / 10) (digitChar (n mod 10) :: acc))%N
  end.

Definition numberText (n : N) : text :=
  decimalDigits (S (N.to_nat (N.log2 n))) n [].

(** An inbound frame of the socket. *)
Inductive Frame :=
| TextFrame (data : text)
| BinaryFrame (bytes : list N).

(** Values of the runtime handed to one call of [handleMessage]:
    [crypto.randomUUID()], [new Date().toISOString()] and the messages of
    the errors the runtime throws. *)
Record Runtime := {
  randomUUID : text;
  toISOString : text;
  syntaxError : text;
  typeError : text
}.


(** *** [WebSocketTransport] *)

Module WebSocketTransport.

Inductive ReadyState := CONNECTING | OPEN | CLOSING | CLOSED.

Record t := {
  ws : option ReadyState;
  messageCallback : bool;
  statusCallback : bool;
  errorCallback : bool;
  connectionTimeout : bool
}.

Definition set_ws (w : option ReadyState) (s : t) : t :=
  {| ws := w;
     messageCallback := messageCallback s;
     statusCallback := statusCallback s;
     errorCallback := errorCallback s;
     connectionTimeout := connectionTimeout s |}.

Definition set_connectionTimeout (b : bool) (s : t) : t :=
  {| ws := ws s;
     messageCallback := messageCallback s;
     statusCallback := statusCallback s;
     errorCallback := errorCallback s;
     connectionTimeout := b |}.

(** The length of the UTF-8 encoding of a string. *)
Definition utf8Length (s : text) : Z :=
  Z.of_N
    (fold_right (fun c n =>
       ((if c <? 128 then 1
         else if c <? 2048 then 2
         else if (55296 <=? c) && (c <=? 57343) then 2
         else 3) + n)%N) 0%N s).

(** [WebSocket.close(code, reason)]: an InvalidAccessError for a code
    that is neither 1000 nor in 3000..4999, a SyntaxError for a reason
    longer than 123 bytes. *)
Definition WebSocket_close (code : Z) (reason : text) : M t unit :=
  if negb ((code =? 1000) || ((3000 <=? code) && (code <=? 4999)))%Z
  then throw (lit "InvalidAccessError")
  else if (123 <? utf8Length reason)%Z then throw (lit "SyntaxError")
  else emit (SocketClose code reason).

Definition notifyStatusChange (status : ConnectionStatus) : M t unit :=
  s <- get ;;
  when (statusCallback s) (emit (StatusCallback status)).

Definition handleError (errorMessage : text) : M t unit :=
  s <- get ;;
  when (errorCallback s) (emit (ErrorCallback errorMessage)).

(** [disconnect]. *)
Definition disconnect : M t unit :=
  s <- get ;;
  when (connectionTimeout s)
    (emit ClearTimer ;; modify (set_connectionTimeout false)) ;;
  s <- get ;;
  match ws s with
  | Some _ =>
      WebSocket_close 1000 (lit "Client disconnect") ;;
      modify (set_ws None)
  | None => ret tt
  end ;;
  notifyStatusChange closed.

(** [isConnected]. *)
Definition isConnected (s : t) : bool :=
  match ws s with
  | Some OPEN => true
  | _ => false
  end.

(** [send]. *)
Definition send (message : value) : M t unit :=
  s <- get ;;
  if negb (isConnected s) then throw (lit "WebSocket is not connected")
  else
    tryCatch
      (let messageStr :=
         match message with
         | JStr str => str
         | _ => JSON_stringify message
         end in
       emit (SocketSend messageStr))
      (fun e => throw (lit "Failed to send message: " ++ e)).

(** [handleMessage]. *)
Definition handleMessage (rt : Runtime) (data : Frame) : M t unit :=
  tryCatch
    (messageData <-
       match data with
       | BinaryFrame bytes =>
           ret (JObj [ (lit "id", JStr (randomUUID rt));
                       (lit "timestamp", JStr (toISOString rt));
                       (lit "type", JStr (lit "audio"));
                       (lit "data", JStr (btoa bytes));
                       (lit "direction", JStr (lit "received"));
                       (lit "bytesCount",
                        JNum (numberText (N.of_nat (List.length bytes)))) ])
       | TextFrame str =>
           messageData <- parseJson (syntaxError rt) str ;;
           messageData <- ensureProperty (typeError rt) (lit "id")
                            (randomUUID rt) messageData ;;
           ensureProperty (typeError rt) (lit "timestamp")
             (toISOString rt) messageData
       end ;;
     s <- get ;;
     when (messageCallback s) (emit (MessageCallback messageData)))
    (fun e =>
       let errorMessage :=
         JObj [ (lit "id", JStr (randomUUID rt));
                (lit "timestamp", JStr (toISOString rt));
                (lit "type", JStr (lit "error"));
                (lit "error_code", JStr (lit "PARSE_ERROR"));
                (lit "message", JStr (lit "Failed to parse incoming message"));
                (lit "details",
                 JObj [ (lit "raw",
                         match data with
                         | TextFrame str => JStr str
                         | BinaryFrame _ => JObj []
                         end);
                        (lit "error", JStr e) ]) ] in
       s <- get ;;
       when (messageCallback s) (emit (MessageCallback errorMessage))).

(** The frames of a connection, handled in the order they arrive. *)
Fixpoint receive (frames : list (Runtime * Frame)) : M t unit :=
  match frames with
  | [] => ret tt
  | (rt, data) :: frames' => handleMessage rt data ;; receive frames'
  end.

(** The handlers that [connect] installs on the socket.  Each returns
    what it does to the promise of [connect], if anything.  [baseUrl] is
    [config.api.baseUrl]; [code] and [reason] are those of the close
    event. *)
Definition clearConnectionTimeout : M t unit :=
  s <- get ;;
  when (connectionTimeout s)
    (emit ClearTimer ;; modify (set_connectionTimeout false)).

Definition onopen : M t (option Settle) :=
  clearConnectionTimeout ;;
  notifyStatusChange open ;;
  ret (Some Resolve).

Definition authenticationFailed (reason : text) : text :=
  lit "Authentication failed: "
  ++ match reason with
     | [] => lit "Unauthorized"
     | _ :: _ => reason
     end.

Definition closedAbnormally (code : N) (reason : text) : text :=
  lit "WebSocket closed abnormally: " ++ numberText code ++ lit " - " ++ reason.

Definition onclose (code : N) (reason : text) : M t (option Settle) :=
  clearConnectionTimeout ;;
  (if negb (code =? 1000)%N && negb (code =? 1001)%N then
     notifyStatusChange error ;;
     if ((code =? 1008) || (code =? 4001) || (code =? 4003))%N
     then handleError (authenticationFailed reason)
     else handleError (closedAbnormally code reason)
   else notifyStatusChange closed) ;;
  ret None.

Definition connectionFailed (baseUrl : text) : text :=
  lit "WebSocket connection failed. Please ensure the backend server is running at "
  ++ baseUrl.

Definition onerror (baseUrl : text) : M t (option Settle) :=
  clearConnectionTimeout ;;
  handleError (connectionFailed baseUrl) ;;
  ret (Some (Reject (connectionFailed baseUrl))).

End WebSocketTransport.

(** *** [EventSourceTransport] *)

Module EventSourceTransport.

Inductive ReadyState := CONNECTING | OPEN | CLOSED.

Record t := {
  eventSource : option ReadyState;
  sessionId : option text;
  messageCallback : bool;
  statusCallback : bool;
  errorCallback : bool;
  isManualClose : bool
}.

Definition notifyStatusChange (status : ConnectionStatus) : M t unit :=
  s <- get ;;
  when (statusCallback s) (emit (StatusCallback status)).

(** [disconnect]. *)
Definition disconnect : M t unit :=
  modify (fun s =>
    {| eventSource := eventSource s;
       sessionId := sessionId s;
       messageCallback := messageCallback s;
       statusCallback := statusCallback s;
       errorCallback := errorCallback s;
       isManualClose := true |}) ;;
  s <- get ;;
  match eventSource s with
  | Some _ =>
      emit EventSourceClose ;;
      modify (fun s =>
        {| eventSource := None;
           sessionId := sessionId s;
           messageCallback := messageCallback s;
           statusCallback := statusCallback s;
           errorCallback := errorCallback s;
           isManualClose := isManualClose s |})
  | None => ret tt
  end ;;
  modify (fun s =>
    {| eventSource := eventSource s;
       sessionId := None;
       messageCallback := messageCallback s;
       statusCallback := statusCallback s;
       errorCallback := errorCallback s;
       isManualClose := isManualClose s |}) ;;
  notifyStatusChange closed.

(** [isConnected]. *)
Definition isConnected (s : t) : bool :=
  match eventSource s with
  | Some OPEN => true
  | _ => false
  end.

(** The [fetch] of [send] and what follows it inside the [try]. *)
Definition postMessage (id : text) (message : value) (outcome : FetchOutcome)
    : M t unit :=
  emit (FetchPost (lit "/send")
          (JObj [ (lit "session_id", JStr id); (lit "message", message) ])) ;;
  match outcome with
  | FetchRejected e => throw e
  | FetchResponse ok status statusText =>
      if ok then ret tt
      else throw (lit "Failed to send message: " ++ status ++ lit " "
                  ++ statusText)
  end.

(** [send]. *)
Definition send (outcome : FetchOutcome) (message : value) : M t unit :=
  s <- get ;;
  match sessionId s with
  | None => throw (lit "No active session for sending messages")
  | Some id =>
      tryCatch (postMessage id message outcome)
        (fun e => throw (lit "Failed to send message: " ++ e))
  end.

(** [handleMessage]; [eventType] is [None] for the default event. *)
Definition handleMessage (rt : Runtime) (data : text)
    (eventType : option text) : M t unit :=
  tryCatch
    (messageData <- parseJson (syntaxError rt) data ;;
     messageData <-
       match eventType with
       | Some (c :: ty) =>
           ensureProperty (typeError rt) (lit "type") (c :: ty) messageData
       | _ => ret messageData
       end ;;
     messageData <- ensureProperty (typeError rt) (lit "id")
                      (randomUUID rt) messageData ;;
     messageData <- ensureProperty (typeError rt) (lit "timestamp")
                      (toISOString rt) messageData ;;
     s <- get ;;
     when (messageCallback s) (emit (MessageCallback messageData)))
    (fun e =>
       let errorMessage :=
         JObj [ (lit "id", JStr (randomUUID rt));
                (lit "timestamp", JStr (toISOString rt));
                (lit "type", JStr (lit "error"));
                (lit "error_code", JStr (lit "PARSE_ERROR"));
                (lit "message",
                 JStr (lit "Failed to parse incoming SSE message"));
                (lit "details",
                 JObj [ (lit "raw", JStr data); (lit "error", JStr e) ]) ] in
       s <- get ;;
       when (messageCallback s) (emit (MessageCallback errorMessage))).

(** The events of a connection, handled in the order they arrive. *)
Fixpoint receive (events : list (Runtime * text * option text)) : M t unit :=
  match events with
  | [] => ret tt
  | (rt, data, eventType) :: events' =>
      handleMessage rt data eventType ;; receive events'
  end.

Definition handleError (errorMessage : text) : M t unit :=
  s <- get ;;
  when (errorCallback s) (emit (ErrorCallback errorMessage)).

(** The handlers that [connect] installs on the event source. *)
Definition onopen : M t (option Settle) :=
  notifyStatusChange open ;;
  ret (Some Resolve).

Definition closedUnexpectedly : text :=
  lit "EventSource connection closed unexpectedly".

Definition onerror : M t (option Settle) :=
  s <- get ;;
  match eventSource s with
  | Some CLOSED =>
      if negb (isManualClose s) then
        notifyStatusChange error ;;
        handleError closedUnexpectedly ;;
        ret (Some (Reject closedUnexpectedly))
      else ret None
  | Some CONNECTING =>
      notifyStatusChange connecting ;;
      ret None
  | _ => ret None
  end.

End EventSourceTransport.

(** *** [PollingTransport] *)

Module PollingTransport.

Record t := {
  sessionId : option text;
  pollingInterval : bool;
  messageCallback : bool;
  statusCallback : bool;
  errorCallback : bool;
  connected : bool;
  messageQueue : list value;
  abortController : bool
}.

Definition notifyStatusChange (status : ConnectionStatus) : M t unit :=
  s <- get ;;
  when (statusCallback s) (emit (StatusCallback status)).

(** [closeSession]. *)
Definition closeSession (outcome : FetchOutcome) : M t unit :=
  s <- get ;;
  match sessionId s with
  | None => ret tt
  | Some id =>
      emit (FetchPost (lit "/close") (JObj [ (lit "session_id", JStr id) ])) ;;
      match outcome with
      | FetchRejected e => throw e
      | FetchResponse _ _ _ => ret tt
      end
  end.

(** [stopPolling]. *)
Definition stopPolling : M t unit :=
  s <- get ;;
  when (pollingInterval s)
    (emit ClearTimer ;;
     modify (fun s =>
       {| sessionId := sessionId s;
          pollingInterval := false;
          messageCallback := messageCallback s;
          statusCallback := statusCallback s;
          errorCallback := errorCallback s;
          connected := connected s;
          messageQueue := messageQueue s;
          abortController := abortController s |})).

(** [disconnect]; [outcome] is that of the [fetch] of [closeSession]. *)
Definition disconnect (outcome : FetchOutcome) : M t unit :=
  modify (fun s =>
    {| sessionId := sessionId s;
       pollingInterval := pollingInterval s;
       messageCallback := messageCallback s;
       statusCallback := statusCallback s;
       errorCallback := errorCallback s;
       connected := false;
       messageQueue := messageQueue s;
       abortController := abortController s |}) ;;
  stopPolling ;;
  s <- get ;;
  when (abortController s)
    (emit AbortRequest ;;
     modify (fun s =>
       {| sessionId := sessionId s;
          pollingInterval := pollingInterval s;
          messageCallback := messageCallback s;
          statusCallback := statusCallback s;
          errorCallback := errorCallback s;
          connected := connected s;
          messageQueue := messageQueue s;
          abortController := false |})) ;;
  s <- get ;;
  match sessionId s with
  | Some _ =>
      tryCatch (closeSession outcome)
        (fun e => emit (ConsoleError (lit "Failed to close session:")))
  | None => ret tt
  end ;;
  modify (fun s =>
    {| sessionId := None;
       pollingInterval := pollingInterval s;
       messageCallback := messageCallback s;
       statusCallback := statusCallback s;
       errorCallback := errorCallback s;
       connected := connected s;
       messageQueue := [];
       abortController := abortController s |}) ;;
  notifyStatusChange closed.

(** [isConnected]. *)
Definition isConnected (s : t) : bool :=
  connected s && match sessionId s with Some _ => true | None => false end.

(** [send]. *)
Definition send (outcome : FetchOutcome) (message : value) : M t unit :=
  s <- get ;;
  match connected s, sessionId s with
  | true, Some id =>
      tryCatch
        (emit (FetchPost (lit "/send")
                 (JObj [ (lit "session_id", JStr id);
                         (lit "message", message) ])) ;;
         match outcome with
         | FetchRejected e => throw e
         | FetchResponse ok status statusText =>
             if ok then ret tt
             else throw (lit "Failed to send message: " ++ status ++ lit " "
                         ++ statusText)
         end)
        (fun e => throw (lit "Failed to send message: " ++ e))
  | _, _ => throw (lit "PollingTransport is not connected")
  end.

(** [handleMessage], for one message of a poll response. *)
Definition handleMessage (rt : Runtime) (messageData : value) : M t unit :=
  tryCatch
    (messageData <- ensureProperty (typeError rt) (lit "id")
                      (randomUUID rt) messageData ;;
     messageData <- ensureProperty (typeError rt) (lit "timestamp")
                      (toISOString rt) messageData ;;
     s <- get ;;
     when (messageCallback s) (emit (MessageCallback messageData)))
    (fun e =>
       let errorMessage :=
         JObj [ (lit "id", JStr (randomUUID rt));
                (lit "timestamp", JStr (toISOString rt));
                (lit "type", JStr (lit "error"));
                (lit "error_code", JStr (lit "PROCESS_ERROR"));
                (lit "message", JStr (lit "Failed to process polled message"));
                (lit "details",
                 JObj [ (lit "raw", messageData); (lit "error", JStr e) ]) ] in
       s <- get ;;
       when (messageCallback s) (emit (MessageCallback errorMessage))).

End PollingTransport.

(** *** The [TransportAdapter] interface

    The coordinator holds one of the three implementations and calls it
    through the interface. *)
Inductive TransportAdapter :=
| OfWebSocket (t : WebSocketTransport.t)
| OfEventSource (t : EventSourceTransport.t)
| OfPolling (t : PollingTransport.t).

Definition inTransport {S A : Type} (inj : S -> TransportAdapter)
    (r : Completion A * S * list Effect)
    : Completion A * TransportAdapter * list Effect :=
  match r with
  | (c, s, es) => (c, inj s, es)
  end.

(** [disconnect]; [outcome] is that of a [fetch] the call awaits. *)
Definition disconnect (outcome : FetchOutcome) : M TransportAdapter unit :=
  fun a =>
    match a with
    | OfWebSocket t => inTransport OfWebSocket (WebSocketTransport.disconnect t)
    | OfEventSource t =>
        inTransport OfEventSource (EventSourceTransport.disconnect t)
    | OfPolling t =>
        inTransport OfPolling (PollingTransport.disconnect outcome t)
    end.

Definition send (outcome : FetchOutcome) (message : value)
    : M TransportAdapter unit :=
  fun a =>
    match a with
    | OfWebSocket t =>
        inTransport OfWebSocket (WebSocketTransport.send message t)
    | OfEventSource t =>
        inTransport OfEventSource (EventSourceTransport.send outcome message t)
    | OfPolling t =>
        inTransport OfPolling (PollingTransport.send outcome message t)
    end.

Definition isConnected (a : TransportAdapter) : bool :=
  match a with
  | OfWebSocket t => WebSocketTransport.isConnected t
  | OfEventSource t => EventSourceTransport.isConnected t
  | OfPolling t => PollingTransport.isConnected t
  end.

Definition getTransportType (a : TransportAdapter) : TransportType :=
  match a with
  | OfWebSocket _ => websocket
  | OfEventSource _ => sse
  | OfPolling _ => polling
  end.

(** An open socket transport with its callbacks registered, and values
    of the runtime, for the examples. *)
Definition exampleSocket : WebSocketTransport.t :=
  {| WebSocketTransport.ws := Some WebSocketTransport.OPEN;
     WebSocketTransport.messageCallback := true;
     WebSocketTransport.statusCallback := true;
     WebSocketTransport.errorCallback := true;
     WebSocketTransport.connectionTimeout := false |}.


(** A polling transport that is connected, likewise. *)
Definition examplePolling : PollingTransport.t :=
  {| PollingTransport.sessionId := Some (lit "s1");
     PollingTransport.pollingInterval := true;
     PollingTransport.messageCallback := true;
     PollingTransport.statusCallback := true;
     PollingTransport.errorCallback := true;
     PollingTransport.connected := true;
     PollingTransport.messageQueue := [];
     PollingTransport.abortController := false |}.



Definition statusCallbackSet (a : TransportAdapter) : bool :=
  match a with
  | OfWebSocket t => WebSocketTransport.statusCallback t
  | OfEventSource t => EventSourceTransport.statusCallback t
  | OfPolling t => PollingTransport.statusCallback t
  end.

End Transports.
(** ** [sanitizeErrorForLogging] ([src/utils/security.ts]) *)

Module Logging.
Import Text JSON Security Transports.

Local Open Scope N_scope.

(** The class [[\w-]]. *)
Definition isWordOrDash (c : N) : bool :=
  ((48 <=? c) && (c <=? 57)) || ((65 <=? c) && (c <=? 90)) || (c =? 95)
  || ((97 <=? c) && (c <=? 122)) || (c =? 45).

(** A match of [/token[=:]\s*[\w-]+/i] at the start of [s]: what follows
    the match.  The white space and the class [[\w-]] are disjoint, so the
    greedy run of white space followed by the greedy run of the class is
    the only way to match; the [i] flag makes the five letters of [token]
    match their capitals and changes nothing else. *)
Definition matchTokenValue (s : text) : option text :=
  match matchLiteral true (lit "token") s with
  | Some (c :: r) =>
      if (c =? 61) || (c =? 58) then
        let r1 := dropWhile isTrimWhitespace r in
        match r1 with
        | d :: _ =>
            if isWordOrDash d then Some (dropWhile isWordOrDash r1) else None
        | [] => None
        end
      else None
  | _ => None
  end.

(** [s.replace(/token[=:]\s*[\w-]+/gi, 'token=***')]: the matches are
    taken from left to right and do not overlap.  A match is never empty,
    so the length of [s] is fuel enough. *)
Fixpoint replaceTokenValues (fuel : nat) (s : text) : text :=
  match fuel with
  | O => s
  | S fuel' =>
      match s with
      | [] => []
      | c :: s' =>
          match matchTokenValue s with
          | Some rest => lit "token=***" ++ replaceTokenValues fuel' rest
          | None => c :: replaceTokenValues fuel' s'
          end
      end
  end.

Definition maskTokenValues (s : text) : text :=
  replaceTokenValues (List.length s) s.

(** Whether the pattern matches somewhere in [s]. *)
Fixpoint hasTokenValue (s : text) : bool :=
  match matchTokenValue s with
  | Some _ => true
  | None =>
      match s with
      | [] => false
      | _ :: s' => hasTokenValue s'
      end
  end.

(** The pattern read from a state in its middle: [pat] is what is left
    of the letters of [token], then come the separator, the white space
    and one character of the class. *)
Fixpoint acceptsValue (s : text) : bool :=
  match s with
  | [] => false
  | c :: s' =>
      if isWordOrDash c then true
      else if isTrimWhitespace c then acceptsValue s'
      else false
  end.

Fixpoint acceptsFrom (pat s : text) : bool :=
  match pat with
  | [] =>
      match s with
      | c :: r => ((c =? 61) || (c =? 58)) && acceptsValue r
      | [] => false
      end
  | p :: pat' =>
      match s with
      | c :: s' => charMatches true p c && acceptsFrom pat' s'
      | [] => false
      end
  end.

(** A run of pattern letters without the first letter of [token]. *)
Definition notFirstLetter (pat : text) : bool :=
  forallb (fun p => negb (charMatches true p 116)) pat.

(** [stack.split('\n').slice(0, n).join('\n')]: the first [n] lines. *)
Fixpoint firstLines (n : nat) (s : text) : text :=
  match s with
  | [] => []
  | c :: s' =>
      if c =? 10 then
        match n with
        | S (S n') => c :: firstLines (S n') s'
        | _ => []
        end
      else
        match n with
        | O => []
        | S _ => c :: firstLines n s'
        end
  end.

(** The code unit [c] becomes the lower-case ASCII letter [p] under
    [toLowerCase]: the letter itself, its capital and, for [k], the Kelvin
    sign. *)
Definition lowersTo (p c : N) : bool :=
  (c =? p) || (c =? p - 32) || ((p =? 107) && (c =? 8490)).

Fixpoint matchLowered (pat s : text) : bool :=
  match pat, s with
  | [], _ => true
  | _ :: _, [] => false
  | p :: pat', c :: s' => lowersTo p c && matchLowered pat' s'
  end.

(** [key.toLowerCase().includes(pat)] for a pattern of lower-case ASCII
    letters. *)
Fixpoint lowerIncludes (pat s : text) : bool :=
  matchLowered pat s
  || match s with
     | [] => false
     | _ :: s' => lowerIncludes pat s'
     end.

(** The test of [sanitizeErrorForLogging] on a property key. *)
Definition isSensitiveKey (key : text) : bool :=
  lowerIncludes (lit "token") key || lowerIncludes (lit "password") key.

(** The argument of [sanitizeErrorForLogging]: an instance of [Error]
    with its [message], [name] and [stack], or a value. *)
Inductive ErrorValue :=
| ErrorInstance (message name : text) (stack : option text)
| PlainValue (v : value).

(** Its result: the object built for an instance of [Error], or a
    value. *)
Inductive LoggedError :=
| LoggedInstance (message name : text) (stack : option text)
| LoggedValue (v : value).

(** One turn of the loop over the keys of an object.  The assignment to
    the key [__proto__] of the fresh object sets its prototype and creates
    no property. *)
Definition sanitizeStep (sanitized : list (text * value)) (kv : text * value)
    : list (text * value) :=
  let key := fst kv in
  if text_eqb key (lit "__proto__") then sanitized
  else if isSensitiveKey key
       then objSet key (JStr (lit "***")) sanitized
       else objSet key (snd kv) sanitized.

Definition sanitizeMembers (members : list (text * value))
    : list (text * value) :=
  fold_left sanitizeStep members [].

(** The keys [for ... in] finds on an array: its indices. *)
Fixpoint indexed (i : N) (items : list value) : list (text * value) :=
  match items with
  | [] => []
  | x :: items' => (numberText i, x) :: indexed (i + 1) items'
  end.

(** What the loop leaves under the key [k] of the result. *)
Definition maskedProperty (k : text) (members : list (text * value))
    : option value :=
  if text_eqb k (lit "__proto__") then None
  else if isSensitiveKey k
       then if hasKey k members then Some (JStr (lit "***")) else None
       else objGet k members.

(** [sanitizeErrorForLogging]. *)
Definition sanitizeErrorForLogging (error : ErrorValue) : LoggedError :=
  match error with
  | PlainValue (JStr str) => LoggedValue (JStr (maskTokenValues str))
  | ErrorInstance message name stack =>
      LoggedInstance (maskTokenValues message) name
        (match stack with
         | Some str => Some (firstLines 3 str)
         | None => None
         end)
  | PlainValue (JObj members) => LoggedValue (JObj (sanitizeMembers members))
  | PlainValue (JArr items) =>
      LoggedValue (JObj (sanitizeMembers (indexed 0 items)))
  | PlainValue v => LoggedValue v
  end.

End Logging.


(** ** The session coordinator ([src/context/SessionContext.tsx]) *)

Module Session.
Import Text JSON Js Transports Security ErrorHandler.

Local Open Scope js_scope.

Record AppConfig := {
  preferred : TransportType;
  enableFallback : bool;
  performance : Performance
}.

Record SessionConfig := {
  practiceId : Z;
  conversationId : text;
  patientId : option text;
  timezone : text;
  authToken : option text;
  metadata : option value
}.

Record ConnectionState := {
  status : ConnectionStatus;
  transport : TransportType;
  latency : option Z;
  lastError : option text;   (* the field [error] *)
  reconnectAttempts : Z;
  reconnectDelay : Q
}.

Record SpeakProposal := {
  proposalId : value;
  summary : value;
  timestamp : option value
}.

(** The state and the refs of the provider. *)
Record Session := {
  sessionConfig : option SessionConfig;
  messages : list value;
  speakProposals : list SpeakProposal;
  connectionState : ConnectionState;
  transportRef : option TransportAdapter;
  isManualDisconnectRef : bool;
  lastConnectionAttemptRef : Z;
  previousStatusRef : ConnectionStatus;
  reconnectHook : Reconnect.Hook
}.


(** The provider when it mounts. *)
Definition init (config : AppConfig) : Session :=
  {| sessionConfig := None;
     messages := [];
     speakProposals := [];
     connectionState :=
       {| status := closed;
          transport := preferred config;
          latency := None;
          lastError := None;
          reconnectAttempts := 0;
          reconnectDelay := reconnectInitialDelay (performance config) |};
     transportRef := None;
     isManualDisconnectRef := false;
     lastConnectionAttemptRef := 0;
     previousStatusRef := closed;
     reconnectHook :=
       Reconnect.useReconnect_init
         (Reconnect.DEFAULT_CONFIG (performance config))
         (preferred config) false |}.

Definition setMessages (f : list value -> list value) (s : Session)
    : Session :=
  {| sessionConfig := sessionConfig s;
     messages := f (messages s);
     speakProposals := speakProposals s;
     connectionState := connectionState s;
     transportRef := transportRef s;
     isManualDisconnectRef := isManualDisconnectRef s;
     lastConnectionAttemptRef := lastConnectionAttemptRef s;
     previousStatusRef := previousStatusRef s;
     reconnectHook := reconnectHook s |}.

Definition setSpeakProposals (f : list SpeakProposal -> list SpeakProposal)
    (s : Session) : Session :=
  {| sessionConfig := sessionConfig s;
     messages := messages s;
     speakProposals := f (speakProposals s);
     connectionState := connectionState s;
     transportRef := transportRef s;
     isManualDisconnectRef := isManualDisconnectRef s;
     lastConnectionAttemptRef := lastConnectionAttemptRef s;
     previousStatusRef := previousStatusRef s;
     reconnectHook := reconnectHook s |}.

Definition setConnectionState (f : ConnectionState -> ConnectionState)
    (s : Session) : Session :=
  {| sessionConfig := sessionConfig s;
     messages := messages s;
     speakProposals := speakProposals s;
     connectionState := f (connectionState s);
     transportRef := transportRef s;
     isManualDisconnectRef := isManualDisconnectRef s;
     lastConnectionAttemptRef := lastConnectionAttemptRef s;
     previousStatusRef := previousStatusRef s;
     reconnectHook := reconnectHook s |}.

Definition setSessionConfig (c : option SessionConfig) (s : Session)
    : Session :=
  {| sessionConfig := c;
     messages := messages s;
     speakProposals := speakProposals s;
     connectionState := connectionState s;
     transportRef := transportRef s;
     isManualDisconnectRef := isManualDisconnectRef s;
     lastConnectionAttemptRef := lastConnectionAttemptRef s;
     previousStatusRef := previousStatusRef s;
     reconnectHook := reconnectHook s |}.

Definition set_transportRef (a : option TransportAdapter) (s : Session)
    : Session :=
  {| sessionConfig := sessionConfig s;
     messages := messages s;
     speakProposals := speakProposals s;
     connectionState := connectionState s;
     transportRef := a;
     isManualDisconnectRef := isManualDisconnectRef s;
     lastConnectionAttemptRef := lastConnectionAttemptRef s;
     previousStatusRef := previousStatusRef s;
     reconnectHook := reconnectHook s |}.

Definition set_isManualDisconnectRef (b : bool) (s : Session) : Session :=
  {| sessionConfig := sessionConfig s;
     messages := messages s;
     speakProposals := speakProposals s;
     connectionState := connectionState s;
     transportRef := transportRef s;
     isManualDisconnectRef := b;
     lastConnectionAttemptRef := lastConnectionAttemptRef s;
     previousStatusRef := previousStatusRef s;
     reconnectHook := reconnectHook s |}.



Definition onReconnectHook (f : Reconnect.Hook -> Reconnect.Hook)
    (s : Session) : Session :=
  {| sessionConfig := sessionConfig s;
     messages := messages s;
     speakProposals := speakProposals s;
     connectionState := connectionState s;
     transportRef := transportRef s;
     isManualDisconnectRef := isManualDisconnectRef s;
     lastConnectionAttemptRef := lastConnectionAttemptRef s;
     previousStatusRef := previousStatusRef s;
     reconnectHook := f (reconnectHook s) |}.

(** [Array.prototype.slice(start)]. *)
Definition slice {A : Type} (start : Z) (l : list A) : list A :=
  let len := Z.of_nat (List.length l) in
  let k := if (start <? 0)%Z then Z.max (len + start) 0 else Z.min start len in
  skipn (Z.to_nat k) l.

(** The state update of [addMessage]. *)
Definition appendBounded (config : AppConfig) (message : value)
    (prevMessages : list value) : list value :=
  let newMessages := prevMessages ++ [message] in
  if (Z.of_nat (List.length newMessages) >? maxMessages (performance config))%Z
  then slice (Z.of_nat (List.length newMessages)
              - maxMessages (performance config))%Z newMessages
  else newMessages.

(** The test of [addMessage] for a speak proposal, on a message object. *)
Definition isSpeakProposal (message : value) : bool :=
  match message with
  | JObj members =>
      match objGet (lit "type") members with
      | Some (JStr ty) =>
          text_eqb ty (lit "speak_proposal")
          && hasKey (lit "proposalId") members
          && hasKey (lit "summary") members
      | _ => false
      end
  | _ => false
  end.

(** [addMessage]. *)
Definition addMessage (config : AppConfig) (message : value) (s : Session)
    : Session :=
  let s := setMessages (appendBounded config message) s in
  if isSpeakProposal message then
    setSpeakProposals (fun prev =>
      prev ++ [ {| proposalId :=
                     match property (lit "proposalId") message with
                     | Some v => v
                     | None => JNull
                     end;
                   summary :=
                     match property (lit "summary") message with
                     | Some v => v
                     | None => JNull
                     end;
                   timestamp := property (lit "timestamp") message |} ]) s
  else s.

(** [clearMessages]. *)
Definition clearMessages (s : Session) : Session := setMessages (fun _ => []) s.





Definition sendMessageContext : ErrorContext :=
  {| component := lit "SessionContext"; action := lit "sendMessage" |}.



(** A call of a method of [transportRef.current]. *)
Definition onTransport {A : Type} (m : M TransportAdapter A) : M Session A :=
  fun s =>
    match transportRef s with
    | Some a =>
        match m a with
        | (c, a', es) => (c, set_transportRef (Some a') s, es)
        end
    | None => (Throw (lit "TypeError"), s, [])
    end.

(** The sanitizing step of [sendMessage]. *)
Definition sanitizeMessage (message : value) : M Session value :=
  match message with
  | JStr str =>
      sanitized <- liftCompletion (sanitizeJsonInput str) ;;
      ret (JStr sanitized)
  | JNull | JArr _ | JObj _ =>
      let jsonStr := JSON_stringify message in
      sanitized <- liftCompletion (sanitizeJsonInput jsonStr) ;;
      ret (JStr sanitized)
  | JBool _ | JNum _ => ret message
  end.

(** [sendMessage]; [outcome] is that of the [fetch] the transport's
    [send] may await. *)
Definition sendMessage (outcome : FetchOutcome) (message : value)
    : M Session unit :=
  s <- get ;;
  match transportRef s with
  | None => throw (lit "Not connected to session")
  | Some a =>
      if negb (isConnected a) then throw (lit "Not connected to session")
      else
        tryCatch
          (sanitizedMessage <- sanitizeMessage message ;;
           emit (TransportSend sanitizedMessage) ;;
           onTransport (send outcome sanitizedMessage))
          (fun e =>
             let handledError := handleError e sendMessageContext in
             throw (userMessage handledError))
  end.

(** [disconnect] of the coordinator. *)
Definition disconnect (config : AppConfig) (outcome : FetchOutcome)
    : M Session unit :=
  modify (set_isManualDisconnectRef true) ;;
  modify (onReconnectHook Reconnect.stopReconnection) ;;
  s <- get ;;
  match transportRef s with
  | Some _ =>
      tryCatch (onTransport (Transports.disconnect outcome)) (fun _ => ret tt) ;;
      modify (set_transportRef None)
  | None => ret tt
  end ;;
  modify (setSessionConfig None) ;;
  modify (setConnectionState (fun prev =>
    {| status := closed;
       transport := transport prev;
       latency := latency prev;
       lastError := None;
       reconnectAttempts := 0;
       reconnectDelay := reconnectInitialDelay (performance config) |})).

(** The message [approveSpeakProposal] and [denySpeakProposal] send. *)
Definition proposalResponse (id : text) (approved : bool) : value :=
  JObj [ (lit "type", JStr (lit "proposal_response"));
         (lit "proposalId", JStr id);
         (lit "approved", JBool approved) ].

(** [p.proposalId !== proposalId], for the string [id]. *)
Definition isOtherProposal (id : text) (p : SpeakProposal) : bool :=
  negb match proposalId p with
       | JStr t => text_eqb t id
       | _ => false
       end.

(** [approveSpeakProposal]. *)
Definition approveSpeakProposal (outcome : FetchOutcome) (id : text)
    : M Session unit :=
  tryCatch
    (sendMessage outcome (proposalResponse id true) ;;
     modify (setSpeakProposals (filter (isOtherProposal id))))
    (fun _ => emit (ConsoleError (lit "Failed to approve speak proposal:"))).

(** [denySpeakProposal]. *)
Definition denySpeakProposal (outcome : FetchOutcome) (id : text)
    : M Session unit :=
  tryCatch
    (sendMessage outcome (proposalResponse id false) ;;
     modify (setSpeakProposals (filter (isOtherProposal id))))
    (fun _ => emit (ConsoleError (lit "Failed to deny speak proposal:"))).

(** Either of the two, by the answer it gives. *)
Definition respondToProposal (approved : bool)
    : FetchOutcome -> text -> M Session unit :=
  if approved then approveSpeakProposal else denySpeakProposal.

(** The proposal [addMessage] records for a speak proposal message. *)
Definition proposalOf (message : value) : SpeakProposal :=
  {| proposalId :=
       match property (lit "proposalId") message with
       | Some v => v
       | None => JNull
       end;
     summary :=
       match property (lit "summary") message with
       | Some v => v
       | None => JNull
       end;
     timestamp := property (lit "timestamp") message |}.

(** The messages retained of [total], all that were appended so far, by
    a list bounded by [n]: the last [n] of them. *)
Definition lastN {A : Type} (n : nat) (total : list A) : list A :=
  skipn (List.length total - n) total.



Definition exampleSessionConfig : SessionConfig :=
  {| practiceId := 1;
     conversationId := lit "c1";
     patientId := None;
     timezone := lit "UTC";
     authToken := None;
     metadata := None |}.

Definition exampleSession : Session :=
  {| sessionConfig := Some exampleSessionConfig;
     messages := [];
     speakProposals := [];
     connectionState :=
       {| status := open;
          transport := websocket;
          latency := None;
          lastError := None;
          reconnectAttempts := 0;
          reconnectDelay := 1000 |};
     transportRef := Some (OfWebSocket exampleSocket);
     isManualDisconnectRef := false;
     lastConnectionAttemptRef := 0;
     previousStatusRef := open;
     reconnectHook :=
       Reconnect.useReconnect_init
         (Reconnect.DEFAULT_CONFIG default_performance) websocket true |}.

(** The payload of [approveSpeakProposal] for the proposal [p-1]. *)
(** The example session over the polling transport. *)
Definition examplePollingSession : Session :=
  set_transportRef (Some (OfPolling examplePolling)) exampleSession.


(** The example configuration with room for two messages. *)
Definition exampleSmallConfig : AppConfig :=
  {| preferred := websocket;
     enableFallback := true;
     performance :=
       {| maxMessages := 2;
          reconnectMaxAttempts := 10;
          reconnectInitialDelay := 1000;
          reconnectMaxDelay := 30000 |} |}.

End Session.

(** ** The session form (the component [SessionController], in [unnamed/part_002]) *)

Module SessionController.
Import Text JSON Security.





End SessionController.

(** * Properties *)

Lemma TransportType_eqb_eq a b : TransportType_eqb a b = true <-> a = b.
Proof. destruct a, b; simpl; split; congruence. Qed.


(** ** Reconnection controller *)

Module ReconnectFacts.
Import Reconnect.

Lemma geb_false a b : a < b -> (a >=? b) = false.
Proof. intro H. rewrite Z.geb_leb. apply Z.leb_gt. exact H. Qed.

Lemma geb_true a b : b <= a -> (a >=? b) = true.
Proof. intro H. rewrite Z.geb_leb. apply Z.leb_le. exact H. Qed.

Lemma scheduleReconnection_at_limit config rnd h :
  maxAttempts config <= attempts (state h) ->
  scheduleReconnection config rnd h
  = setState (fun prev =>
      {| isReconnecting := false;
         attempts := attempts prev;
         nextDelay := nextDelay prev;
         countdown := countdown prev;
         currentTransport := currentTransport prev;
         maxAttemptsReached := true |}) (clearTimers h).
Proof.
  intro H. unfold scheduleReconnection. cbn.
  now rewrite (geb_true _ _ H).
Qed.

Lemma scheduleReconnection_below_limit config rnd h :
  attempts (state h) < maxAttempts config ->
  let d := if attempts (state h) =? 0 then initialDelay config
           else calculateNextDelay config rnd (nextDelay (state h)) in
  let t := getNextTransport (currentTransport (state h)) in
  scheduleReconnection config rnd h
  = {| state := {| isReconnecting := true;
                   attempts := attempts (state h) + 1;
                   nextDelay := d;
                   countdown := Qceiling (d / 1000)%Q;
                   currentTransport := t;
                   maxAttemptsReached := maxAttemptsReached (state h) |};
       reconnectTimerRef := Some {| timer_delay := d; timer_transport := t |};
       countdownTimerRef := Some d;
       isConnectedRef := isConnectedRef h;
       arg_currentTransport := arg_currentTransport h;
       arg_isConnected := arg_isConnected h |}.
Proof.
  intro H. unfold scheduleReconnection. cbn.
  now rewrite (geb_false _ _ H).
Qed.

(** *** Transport rotation *)

Lemma getNextTransport_cycle :
  getNextTransport websocket = sse
  /\ getNextTransport sse = polling
  /\ getNextTransport polling = websocket.
Proof. repeat split. Qed.

Lemma getNextTransport_three t :
  getNextTransport (getNextTransport (getNextTransport t)) = t.
Proof. destruct t; reflexivity. Qed.

Lemma rotation_length t n : List.length (rotation t n) = n.
Proof. revert t; induction n; simpl; intros; [reflexivity | now rewrite IHn]. Qed.

Lemma rotation_add3 t n :
  rotation t (3 + n) =
  [getNextTransport t; getNextTransport (getNextTransport t); t]
    ++ rotation t n.
Proof. simpl. now rewrite getNextTransport_three. Qed.

Lemma visits_app t l1 l2 : visits t (l1 ++ l2) = (visits t l1 + visits t l2)%nat.
Proof. unfold visits. now rewrite filter_app, length_app. Qed.

Lemma rotation_visits t x n : (n / 3 <= visits x (rotation t n))%nat.
Proof.
  induction n as [n IH] using lt_wf_ind.
  destruct n as [| [| [| m]]];
    try (rewrite Nat.div_small by lia; apply Nat.le_0_l).
  change (S (S (S m))) with (3 + m)%nat.
  rewrite rotation_add3, visits_app.
  assert (Hq : ((3 + m) / 3 = 1 + m / 3)%nat).
  { replace (3 + m)%nat with (m + 1 * 3)%nat by lia.
    rewrite Nat.div_add by discriminate. lia. }
  rewrite Hq.
  assert (H1 : (1 <= visits x [getNextTransport t;
                               getNextTransport (getNextTransport t); t])%nat)
    by (destruct t, x; unfold visits; simpl; lia).
  specialize (IH m ltac:(lia)). lia.
Qed.

(** Consecutive reschedulings below the attempt limit each arm a timer for
    the next transport of the rotation. *)
Lemma reschedule_armedTransports config rnds : forall h,
  attempts (state h) + Z.of_nat (List.length rnds) <= maxAttempts config ->
  armedTransports (reschedule config rnds h)
  = rotation (currentTransport (state h)) (List.length rnds).
Proof.
  induction rnds as [| r rs IH]; intros h Hle; [reflexivity |].
  cbn [reschedule List.length rotation armedTransports flat_map].
  cbn [List.length] in Hle.
  assert (Hlt : (attempts (state h) >=? maxAttempts config) = false)
    by (apply geb_false; lia).
  unfold scheduleReconnection at 1. cbn. rewrite Hlt. cbn.
  f_equal.
  fold (armedTransports (reschedule config rs (scheduleReconnection config r h))).
  rewrite IH.
  - unfold scheduleReconnection. cbn. rewrite Hlt. reflexivity.
  - unfold scheduleReconnection. cbn. rewrite Hlt. cbn. lia.
Qed.

(** C2.  The successor function is the cycle websocket, sse, polling,
    websocket, so applying it three times is the identity; and a run of
    [N] consecutively scheduled attempts hands [onReconnect] the rotation
    that starts at the successor of the transport current when the run
    began, which visits every transport type at least [N / 3] times. *)
Theorem transport_rotation_visits :
  (getNextTransport websocket = sse
   /\ getNextTransport sse = polling
   /\ getNextTransport polling = websocket)
  /\ (forall t, getNextTransport (getNextTransport (getNextTransport t)) = t)
  /\ forall config rnds h,
       attempts (state h) + Z.of_nat (List.length rnds) <= maxAttempts config ->
       let ts := armedTransports (reschedule config rnds h) in
       List.length ts = List.length rnds
       /\ ts = rotation (currentTransport (state h)) (List.length rnds)
       /\ hd_error ts
          = match rnds with
            | [] => None
            | _ :: _ => Some (getNextTransport (currentTransport (state h)))
            end
       /\ forall t, (List.length rnds / 3 <= visits t ts)%nat.
Proof.
  split; [exact getNextTransport_cycle |].
  split; [exact getNextTransport_three |].
  intros config rnds h Hle ts. subst ts.
  rewrite (reschedule_armedTransports config rnds h Hle).
  repeat split.
  - apply rotation_length.
  - destruct rnds; reflexivity.
  - intro t. apply rotation_visits.
Qed.

(** The default controller, started on websocket, scheduling seven
    attempts in a row. *)
Lemma transport_rotation_visits_witness :
  armedTransports
    (reschedule (DEFAULT_CONFIG default_performance)
       [0; 1 # 2; 1 # 4; 0; 3 # 4; 1 # 2; 0]%Q
       (useReconnect_init (DEFAULT_CONFIG default_performance) websocket false))
  = [sse; polling; websocket; sse; polling; websocket; sse]
  /\ (7 / 3 <= visits polling
        (armedTransports
           (reschedule (DEFAULT_CONFIG default_performance)
              [0; 1 # 2; 1 # 4; 0; 3 # 4; 1 # 2; 0]%Q
              (useReconnect_init (DEFAULT_CONFIG default_performance)
                 websocket false))))%nat.
Proof.
  destruct transport_rotation_visits as [_ [_ H]].
  destruct (H (DEFAULT_CONFIG default_performance)
              [0; 1 # 2; 1 # 4; 0; 3 # 4; 1 # 2; 0]%Q
              (useReconnect_init (DEFAULT_CONFIG default_performance)
                 websocket false)
              ltac:(vm_compute; discriminate)) as [_ [Hr [_ Hv]]].
  split; [rewrite Hr; reflexivity | exact (Hv polling)].
Defined.


(** *** Backoff delays *)









Section DefaultShaped.
Variable p : Performance.
Variable M : Z.
Hypothesis HM : reconnectMaxDelay p = inject_Z M.
Hypothesis HM0 : 0 <= M.

Let config := DEFAULT_CONFIG p.



Hypothesis HM1 : M <> 1.



End DefaultShaped.









(** With a maximum delay of 1 ms the base can decrease: the second
    delay is the floor of 0.8, and the base after it is 0. *)
Lemma base_decreases_at_maxDelay_one :
  baseDelays
    (DEFAULT_CONFIG {| maxMessages := 1000; reconnectMaxAttempts := 10;
                       reconnectInitialDelay := 1; reconnectMaxDelay := 1 |})
    (delays
       (attemptSequence
          (DEFAULT_CONFIG {| maxMessages := 1000; reconnectMaxAttempts := 10;
                             reconnectInitialDelay := 1;
                             reconnectMaxDelay := 1 |})
          0 [0; 0]%Q
          (useReconnect_init
             (DEFAULT_CONFIG {| maxMessages := 1000;
                                reconnectMaxAttempts := 10;
                                reconnectInitialDelay := 1;
                                reconnectMaxDelay := 1 |})
             websocket false)))
  = [1; 1; 0]%Q.
Proof. reflexivity. Qed.

(** *** The attempt limit and the two restarts *)

(** An event that is neither [startReconnection] nor [forceReconnect]
    arms no timer when none is pending. *)
Lemma step_keeps_noTimers config h e :
  isRestart e = false -> noTimers h -> noTimers (fst (step config h e)).
Proof.
  intros He [Hr Hc].
  destruct e as [rnd | | | failed rnd | failed rnd | elapsed | t | b];
    try discriminate He; cbn.
  - split; reflexivity.
  - split; reflexivity.
  - unfold reconnectTimerFired. rewrite Hr. split; assumption.
  - unfold countdownTick. rewrite Hc. split; assumption.
  - split; assumption.
  - unfold isConnectedEffect.
    destruct (b && negb (isConnectedRef h)); split; cbn; auto.
Qed.

Lemma run_keeps_noTimers config es : forall h,
  forallb (fun e => negb (isRestart e)) es = true ->
  noTimers h -> Forall noTimers (run config h es).
Proof.
  induction es as [| e es IH]; intros h Hes Hh; cbn; [constructor |].
  cbn in Hes. apply andb_true_iff in Hes as [He Hes].
  apply negb_true_iff in He.
  pose proof (step_keeps_noTimers config h e He Hh) as H'.
  constructor; [exact H' | exact (IH _ Hes H')].
Qed.

(** C3.  Scheduling at or beyond the attempt limit sets
    [maxAttemptsReached], clears [isReconnecting] and leaves both timer refs
    empty; from there on no event other than [startReconnection] or
    [forceReconnect] arms a timer; and each of these two restarts from an
    attempts counter of 0 with the flag cleared, so that below the limit
    the restarted schedule arms the timer of attempt number 1. *)
Theorem attempt_limit_stops_scheduling config rnd h :
  maxAttempts config <= attempts (state h) ->
  let h' := scheduleReconnection config rnd h in
  maxAttemptsReached (state h') = true
  /\ isReconnecting (state h') = false
  /\ attempts (state h') = attempts (state h)
  /\ noTimers h'
  /\ (forall es, forallb (fun e => negb (isRestart e)) es = true ->
        Forall noTimers (run config h' es))
  /\ (forall hl rnd',
        let r := resetReconnection config hl in
        attempts (state r) = 0 /\ maxAttemptsReached (state r) = false
        /\ fst (forceReconnect config false rnd' hl) = r
        /\ fst (forceReconnect config true rnd' hl)
           = startReconnection config rnd' r)
  /\ (forall hl rnd',
        0 < maxAttempts config ->
        let s := startReconnection config rnd' hl in
        attempts (state s) = 1 /\ maxAttemptsReached (state s) = false
        /\ reconnectTimerRef s
           = Some {| timer_delay := initialDelay config;
                     timer_transport :=
                       getNextTransport (currentTransport (state hl)) |}).
Proof.
  intros H h'. subst h'.
  rewrite (scheduleReconnection_at_limit config rnd h H).
  split; [reflexivity |]. split; [reflexivity |]. split; [reflexivity |].
  split; [split; reflexivity |].
  split.
  { intros es Hes. apply run_keeps_noTimers; [exact Hes | split; reflexivity]. }
  split.
  { intros hl rnd' r. subst r. repeat split. }
  intros hl rnd' H0 s. subst s. unfold startReconnection.
  rewrite scheduleReconnection_below_limit by exact H0.
  repeat split.
Qed.

(** The default controller after ten failed attempts: the eleventh call of
    [scheduleReconnection] stops, and the events that follow arm nothing. *)
Lemma attempt_limit_stops_scheduling_witness :
  maxAttemptsReached
    (state (scheduleReconnection (DEFAULT_CONFIG default_performance) 0
       (setState (fun prev =>
          {| isReconnecting := true; attempts := 10;
             nextDelay := nextDelay prev; countdown := countdown prev;
             currentTransport := currentTransport prev;
             maxAttemptsReached := false |})
          (useReconnect_init (DEFAULT_CONFIG default_performance)
             websocket false)))) = true.
Proof.
  refine (proj1 (attempt_limit_stops_scheduling
    (DEFAULT_CONFIG default_performance) 0 _ _)).
  vm_compute. discriminate.
Defined.

(** *** forceReconnect *)


(** After a failed forced reconnect the schedule restarts at attempt 1 with
    the initial delay, whatever the state was before. *)
Lemma forceReconnect_failed_restarts config rnd h :
  0 < maxAttempts config ->
  let h' := fst (forceReconnect config true rnd h) in
  attempts (state h') = 1
  /\ maxAttemptsReached (state h') = false
  /\ isReconnecting (state h') = true
  /\ reconnectTimerRef h'
     = Some {| timer_delay := initialDelay config;
               timer_transport :=
                 getNextTransport (currentTransport (state h)) |}.
Proof.
  intros H0 h'. subst h'. unfold forceReconnect, startReconnection. cbn [fst].
  rewrite scheduleReconnection_below_limit by exact H0.
  repeat split.
Qed.

End ReconnectFacts.

(** ** JSON text round trip *)

Module JSONFacts.
Import Text JSON.

Local Open Scope N_scope.

(** *** Number lexemes *)

Lemma delimited_not_digit c rest :
  delimited (c :: rest) ->
  isDigit c = false /\ (c =? 46) = false /\ (c =? 101) = false
  /\ (c =? 69) = false /\ isJsonWhitespace c = false.
Proof. intros [-> | [-> | ->]]; repeat split. Qed.

Lemma spanDigits_spec s : forall ds r,
  spanDigits s = (ds, r) ->
  s = ds ++ r /\ forallb isDigit ds = true
  /\ match r with [] => True | c :: _ => isDigit c = false end.
Proof.
  induction s as [| c s IH]; intros ds r H; cbn in H.
  - inversion H; subst. repeat split.
  - destruct (isDigit c) eqn:Hc.
    + destruct (spanDigits s) as [ds' r'] eqn:E. inversion H; subst.
      destruct (IH _ _ eq_refl) as [-> [Hd Hr]].
      repeat split; cbn; [now rewrite Hc | exact Hr].
    + inversion H; subst. repeat split. exact Hc.
Qed.

Lemma spanDigits_app ds : forall rest,
  forallb isDigit ds = true ->
  match rest with [] => True | c :: _ => isDigit c = false end ->
  spanDigits (ds ++ rest) = (ds, rest).
Proof.
  induction ds as [| c ds IH]; intros rest Hd Hr; cbn.
  - destruct rest as [| c r]; [reflexivity |]. cbn. now rewrite Hr.
  - cbn in Hd. apply andb_true_iff in Hd as [Hc Hd].
    rewrite Hc, (IH rest Hd Hr). reflexivity.
Qed.

Lemma spanDigits_stable s ds r rest :
  spanDigits s = (ds, r) -> delimited rest ->
  spanDigits (s ++ rest) = (ds, r ++ rest).
Proof.
  intros H Hrest. destruct (spanDigits_spec s ds r H) as [-> [Hd Hr]].
  rewrite <- app_assoc. apply spanDigits_app; [exact Hd |].
  destruct r as [| c r]; [| exact Hr].
  destruct rest as [| c rest]; [exact I |].
  apply (delimited_not_digit c rest Hrest).
Qed.

(** A scanner returns a split of its input, and a delimited continuation
    of the input only extends what it leaves over. *)
Definition stable (scan : text -> option (text * text)) : Prop :=
  forall s l r, scan s = Some (l, r) ->
    s = l ++ r
    /\ forall rest, delimited rest -> scan (s ++ rest) = Some (l, r ++ rest).

Lemma scanInt_stable : stable scanInt.
Proof.
  intros [| c s] l r H; cbn in H; [discriminate |].
  destruct (c =? 48) eqn:E0.
  - inversion H; subst. split; [reflexivity |]. intros rest _. cbn. now rewrite E0.
  - destruct (isDigit c) eqn:Ed; [| discriminate].
    destruct (spanDigits s) as [ds r'] eqn:E. inversion H; subst.
    pose proof (proj1 (spanDigits_spec _ _ _ E)) as Hs.
    split; [cbn; f_equal; exact Hs |]. intros rest Hrest.
    cbn [app scanInt]. rewrite E0, Ed.
    now rewrite (spanDigits_stable _ _ _ rest E Hrest).
Qed.

Lemma scanFrac_stable : stable scanFrac.
Proof.
  intros [| c s] l r H; cbn in H.
  - inversion H; subst. split; [reflexivity |]. intros [| c rest] Hrest; [reflexivity |].
    cbn. destruct (delimited_not_digit c rest Hrest) as [_ [-> _]]. reflexivity.
  - destruct (c =? 46) eqn:E0.
    + destruct (spanDigits s) as [ds r'] eqn:E.
      destruct ds as [| d ds]; [discriminate |]. inversion H; subst.
      pose proof (proj1 (spanDigits_spec _ _ _ E)) as Hs.
      split; [cbn; f_equal; exact Hs |]. intros rest Hrest.
      cbn [app scanFrac]. rewrite E0.
      now rewrite (spanDigits_stable _ _ _ rest E Hrest).
    + inversion H; subst. split; [reflexivity |]. intros rest _. cbn. now rewrite E0.
Qed.

Lemma scanExp_stable : stable scanExp.
Proof.
  intros [| c s] l r H; cbn in H.
  - inversion H; subst. split; [reflexivity |]. intros [| c rest] Hrest; [reflexivity |].
    cbn. destruct (delimited_not_digit c rest Hrest) as [_ [_ [-> [-> _]]]]. reflexivity.
  - destruct ((c =? 101) || (c =? 69)) eqn:E0.
    + destruct s as [| c' s'].
      * cbn in H. discriminate.
      * destruct ((c' =? 43) || (c' =? 45)) eqn:Es.
        -- destruct (spanDigits s') as [ds r'] eqn:E.
           destruct ds as [| d ds]; [discriminate |]. inversion H; subst.
           pose proof (proj1 (spanDigits_spec _ _ _ E)) as Hs.
           split; [cbn; do 2 f_equal; exact Hs |]. intros rest Hrest.
           cbn [app scanExp]. rewrite E0, Es.
           now rewrite (spanDigits_stable _ _ _ rest E Hrest).
        -- destruct (spanDigits (c' :: s')) as [ds r'] eqn:E.
           destruct ds as [| d ds]; [discriminate |]. inversion H; subst.
           pose proof (proj1 (spanDigits_spec _ _ _ E)) as E'.
           split; [cbn; f_equal; exact E' |]. intros rest Hrest.
           cbn [app scanExp]. rewrite E0, Es.
           change (c' :: s' ++ rest) with ((c' :: s') ++ rest).
           now rewrite (spanDigits_stable _ _ _ rest E Hrest).
    + inversion H; subst. split; [reflexivity |]. intros rest _. cbn. now rewrite E0.
Qed.

Lemma scanSign_spec s sign s1 :
  scanSign s = (sign, s1) ->
  s = sign ++ s1
  /\ forall rest, s <> [] -> scanSign (s ++ rest) = (sign, s1 ++ rest).
Proof.
  destruct s as [| c s']; unfold scanSign; cbn [app].
  - intro H; inversion H; subst. split; [reflexivity | congruence].
  - destruct (c =? 45) eqn:E; intro H; inversion H; subst; cbn [app].
    + split; [reflexivity | intros rest _; reflexivity].
    + split; [reflexivity | intros rest _; reflexivity].
Qed.

Lemma scanNumber_stable : stable scanNumber.
Proof.
  intros s l r H. unfold scanNumber in H.
  destruct (scanSign s) as [sign s1] eqn:E.
  destruct (scanInt s1) as [[i s2] |] eqn:Ei; [| discriminate].
  assert (Hne : s <> []).
  { intros ->. cbn in E. inversion E; subst. discriminate Ei. }
  destruct (scanFrac s2) as [[f s3] |] eqn:Ef; [| discriminate].
  destruct (scanExp s3) as [[e s4] |] eqn:Ee; [| discriminate].
  inversion H; subst l r.
  destruct (scanSign_spec _ _ _ E) as [Hs Hs'].
  destruct (scanInt_stable _ _ _ Ei) as [Hi Hi'].
  destruct (scanFrac_stable _ _ _ Ef) as [Hf Hf'].
  destruct (scanExp_stable _ _ _ Ee) as [He He'].
  split.
  - rewrite Hs, Hi, Hf, He. now rewrite <- !app_assoc.
  - intros rest Hrest. unfold scanNumber.
    rewrite (Hs' rest Hne).
    rewrite (Hi' rest Hrest), (Hf' rest Hrest), (He' rest Hrest). reflexivity.
Qed.

Lemma scanNumber_lexeme lex rest :
  isNumberLexeme lex = true -> delimited rest ->
  scanNumber (lex ++ rest) = Some (lex, rest).
Proof.
  unfold isNumberLexeme. intros H Hrest.
  destruct (scanNumber lex) as [[l r] |] eqn:E; [| discriminate].
  destruct r; [| discriminate].
  destruct (scanNumber_stable _ _ _ E) as [Hl Hst].
  rewrite (Hst rest Hrest). rewrite app_nil_r in Hl. now subst.
Qed.

(** A number starts with a sign or a digit. *)
Lemma scanNumber_head s l r :
  scanNumber s = Some (l, r) ->
  exists c s', s = c :: s' /\ ((c =? 45) || isDigit c) = true.
Proof.
  unfold scanNumber, scanSign. destruct s as [| c s']; [discriminate |].
  intro H. exists c, s'. split; [reflexivity |].
  destruct (c =? 45) eqn:E; [reflexivity |]. cbn in *.
  destruct (c =? 48) eqn:E0.
  - apply N.eqb_eq in E0. now subst.
  - destruct (isDigit c); [reflexivity | discriminate].
Qed.

(** *** Strings *)

Lemma hexValue_hexDigit n : n < 16 -> hexValue (hexDigit n) = Some n.
Proof.
  intro H. rewrite <- (N2Nat.id n).
  assert (Hk : (N.to_nat n < 16)%nat) by lia.
  generalize dependent (N.to_nat n). intros k Hk.
  do 16 (destruct k as [| k]; [reflexivity |]). lia.
Qed.

Lemma hex4_digits c :
  c < 65536 ->
  c / 4096 < 16 /\ (c / 256) mod 16 < 16 /\ (c / 16) mod 16 < 16
  /\ c mod 16 < 16
  /\ c / 4096 * 4096 + (c / 256) mod 16 * 256 + (c / 16) mod 16 * 16
     + c mod 16 = c.
Proof. intro H. zify. Z.to_euclidean_division_equations. lia. Qed.

Lemma parse_unicodeEscape c s :
  c < 65536 ->
  parseStringBody (unicodeEscape c ++ s)
  = match parseStringBody s with
    | Some (str, rest) => Some (c :: str, rest)
    | None => None
    end.
Proof.
  intro H. destruct (hex4_digits c H) as [H1 [H2 [H3 [H4 E]]]].
  unfold unicodeEscape, hex4. cbn [app parseStringBody].
  change (92 =? 34) with false. change (92 =? 92) with true.
  change (117 =? 117) with true. cbv iota.
  rewrite !hexValue_hexDigit by assumption. rewrite E. reflexivity.
Qed.

Lemma parse_shortEscape e c s :
  unescape e = Some c -> (e =? 117) = false ->
  parseStringBody (92 :: e :: s)
  = match parseStringBody s with
    | Some (str, rest) => Some (c :: str, rest)
    | None => None
    end.
Proof.
  intros H Hu. cbn [parseStringBody].
  change (92 =? 34) with false. change (92 =? 92) with true. cbv iota.
  rewrite Hu, H. reflexivity.
Qed.

Lemma parse_plain c s :
  (c =? 34) = false -> (c =? 92) = false -> (c <? 32) = false ->
  parseStringBody (c :: s)
  = match parseStringBody s with
    | Some (str, rest) => Some (c :: str, rest)
    | None => None
    end.
Proof. intros H1 H2 H3. cbn [parseStringBody]. now rewrite H1, H2, H3. Qed.

Lemma surrogate_plain c :
  (isHighSurrogate c || isLowSurrogate c) = true ->
  (c =? 34) = false /\ (c =? 92) = false /\ (c <? 32) = false.
Proof.
  unfold isHighSurrogate, isLowSurrogate. intro H.
  assert (Hc : 55296 <= c).
  { apply orb_true_iff in H as [H | H];
      apply andb_true_iff in H as [H _]; apply N.leb_le in H; lia. }
  repeat split; [apply N.eqb_neq | apply N.eqb_neq | apply N.ltb_ge]; lia.
Qed.

Lemma parseStringBody_escapeUnits n : forall s rest,
  (List.length s <= n)%nat ->
  Forall (fun c => c < 65536) s ->
  parseStringBody (escapeUnits s ++ 34 :: rest) = Some (s, rest).
Proof.
  induction n as [| n IH]; intros s rest Hn Hs.
  - destruct s; [reflexivity | cbn in Hn; lia].
  - destruct s as [| c r]; [reflexivity |].
    cbn [List.length] in Hn.
    inversion Hs as [| c' r' Hc Hr]; subst.
    assert (IHr : parseStringBody (escapeUnits r ++ 34 :: rest) = Some (r, rest))
      by (apply IH; [lia | exact Hr]).
    cbn [escapeUnits].
    destruct (N.eqb_spec c 8) as [-> | N8];
      [cbn [app]; rewrite (parse_shortEscape 98 8) by reflexivity;
       now rewrite IHr |].
    destruct (N.eqb_spec c 9) as [-> | N9];
      [cbn [app]; rewrite (parse_shortEscape 116 9) by reflexivity;
       now rewrite IHr |].
    destruct (N.eqb_spec c 10) as [-> | N10];
      [cbn [app]; rewrite (parse_shortEscape 110 10) by reflexivity;
       now rewrite IHr |].
    destruct (N.eqb_spec c 12) as [-> | N12];
      [cbn [app]; rewrite (parse_shortEscape 102 12) by reflexivity;
       now rewrite IHr |].
    destruct (N.eqb_spec c 13) as [-> | N13];
      [cbn [app]; rewrite (parse_shortEscape 114 13) by reflexivity;
       now rewrite IHr |].
    destruct (N.eqb_spec c 34) as [-> | N34];
      [cbn [app]; rewrite (parse_shortEscape 34 34) by reflexivity;
       now rewrite IHr |].
    destruct (N.eqb_spec c 92) as [-> | N92];
      [cbn [app]; rewrite (parse_shortEscape 92 92) by reflexivity;
       now rewrite IHr |].
    destruct (N.ltb_spec c 32) as [L32 | G32].
    { rewrite <- app_assoc, parse_unicodeEscape by exact Hc. now rewrite IHr. }
    assert (Hplain : (c =? 34) = false /\ (c =? 92) = false /\ (c <? 32) = false).
    { repeat split; [apply N.eqb_neq | apply N.eqb_neq | apply N.ltb_ge];
        assumption. }
    destruct Hplain as [P1 [P2 P3]].
    destruct (isHighSurrogate c) eqn:Hh.
    { destruct r as [| d r2].
      - rewrite parse_unicodeEscape by exact Hc. reflexivity.
      - destruct (isLowSurrogate d) eqn:Hl.
        + inversion Hr as [| d' r2' Hd Hr2]; subst.
          destruct (surrogate_plain d ltac:(rewrite Hl; apply orb_true_r))
            as [Q1 [Q2 Q3]].
          cbn [app]. rewrite (parse_plain c) by assumption.
          rewrite (parse_plain d) by assumption.
          rewrite IH; [reflexivity | cbn in Hn; lia | exact Hr2].
        + rewrite <- app_assoc, parse_unicodeEscape by exact Hc.
          now rewrite IHr. }
    destruct (isLowSurrogate c) eqn:Hl.
    { rewrite <- app_assoc, parse_unicodeEscape by exact Hc. now rewrite IHr. }
    cbn [app]. rewrite (parse_plain c) by assumption. now rewrite IHr.
Qed.

Lemma parseStringBody_quote s rest :
  Forall (fun c => c < 65536) s ->
  exists body, quoteJSONString s ++ rest = 34 :: body
               /\ parseStringBody body = Some (s, rest).
Proof.
  intro Hs. exists (escapeUnits s ++ 34 :: rest). split.
  - unfold quoteJSONString. cbn. now rewrite <- app_assoc.
  - now apply (parseStringBody_escapeUnits (List.length s)).
Qed.

(** *** Values *)

Lemma wellFormed_arr items :
  wellFormed (JArr items) <-> Forall wellFormed items.
Proof.
  cbn [wellFormed]. induction items as [| x l IH]; [split; constructor |].
  split.
  - intros [Hx Hl]. constructor; [exact Hx | now apply IH].
  - intro H. inversion H; subst. split; [assumption | now apply IH].
Qed.

Lemma wellFormed_obj members :
  wellFormed (JObj members)
  <-> objOfList members = members
      /\ Forall (fun kv => Forall (fun c => c < 65536) (fst kv)
                           /\ wellFormed (snd kv)) members.
Proof.
  cbn [wellFormed].
  assert (H : forall l,
    (fix all (l : list (text * value)) : Prop :=
       match l with
       | [] => True
       | (k, x) :: l' =>
           Forall (fun c => c < 65536) k /\ wellFormed x /\ all l'
       end) l
    <-> Forall (fun kv => Forall (fun c => c < 65536) (fst kv)
                          /\ wellFormed (snd kv)) l).
  { induction l as [| [k x] l IH]; [split; constructor |]. split.
    - intros [Hk [Hx Hl]]. constructor; [split; assumption | now apply IH].
    - intro H. inversion H as [| kv l' [Hk Hx] Hl]; subst.
      repeat split; [assumption | assumption | now apply IH]. }
  now rewrite H.
Qed.

(** The text of a value starts with a character that is neither white
    space nor a closing bracket. *)
Lemma stringify_head v :
  exists c r, JSON_stringify v = c :: r
              /\ isJsonWhitespace c = false
              /\ (c =? 93) = false /\ (c =? 125) = false.
Proof.
  destruct v as [| [|] | lexeme | s | items | members]; cbn [JSON_stringify];
    try (eexists _, _; repeat split; reflexivity).
  destruct (isNumberLexeme lexeme) eqn:E;
    [| eexists _, _; repeat split; reflexivity].
  unfold isNumberLexeme in E.
  destruct (scanNumber lexeme) as [[l r] |] eqn:Es; [| discriminate].
  destruct (scanNumber_head _ _ _ Es) as [c [s' [-> Hc]]].
  exists c, s'. split; [reflexivity |].
  assert (Hr : c = 45 \/ 48 <= c <= 57).
  { apply orb_true_iff in Hc as [Hc | Hc].
    - left. now apply N.eqb_eq.
    - right. unfold isDigit in Hc. apply andb_true_iff in Hc as [H1 H2].
      apply N.leb_le in H1, H2. lia. }
  unfold isJsonWhitespace.
  repeat split;
    repeat (apply orb_false_iff; split); apply N.eqb_neq; lia.
Qed.

Lemma skipWs_head c r : isJsonWhitespace c = false -> skipWs (c :: r) = c :: r.
Proof. intro H. unfold skipWs. cbn. now rewrite H. Qed.

Lemma skipWs_delimited c r : delimited (c :: r) -> skipWs (c :: r) = c :: r.
Proof. intro H. apply skipWs_head. apply (delimited_not_digit c r H). Qed.

(** The statement proved by induction on the value. *)
Definition parsesBack (v : value) : Prop :=
  wellFormed v ->
  forall fuel rest, (need v <= fuel)%nat -> delimited rest ->
    parseValue fuel (JSON_stringify v ++ rest) = Some (v, rest).

Lemma parseElements_join items :
  Forall parsesBack items -> Forall wellFormed items -> items <> [] ->
  forall fuel rest, (needList need items <= fuel)%nat ->
    parseElements fuel (joinComma (map JSON_stringify items) ++ 93 :: rest)
    = Some (items, rest).
Proof.
  induction items as [| x l IH]; intros HP Hwf Hne fuel rest Hfuel;
    [congruence |].
  inversion HP as [| x' l' Hx HPl]; subst.
  inversion Hwf as [| x' l' Hwx Hwl]; subst.
  cbn [needList] in Hfuel.
  destruct fuel as [| fuel]; [lia |].
  cbn [parseElements].
  destruct l as [| y l].
  - cbn [map joinComma].
    rewrite (Hx Hwx fuel (93 :: rest));
      [| cbn [needList] in Hfuel; lia | right; left; reflexivity].
    rewrite skipWs_delimited by (right; left; reflexivity). reflexivity.
  - change (joinComma (map JSON_stringify (x :: y :: l)))
      with (JSON_stringify x ++ 44 :: joinComma (map JSON_stringify (y :: l))).
    rewrite <- app_assoc. cbn [app].
    rewrite (Hx Hwx fuel); [| lia | left; reflexivity].
    rewrite skipWs_delimited by (left; reflexivity).
    change (44 =? 44) with true. cbv iota.
    rewrite (IH HPl Hwl ltac:(discriminate) fuel rest) by lia.
    reflexivity.
Qed.

Lemma parseMembers_join members :
  Forall (fun kv => parsesBack (snd kv)) members ->
  Forall (fun kv => Forall (fun c => c < 65536) (fst kv)
                    /\ wellFormed (snd kv)) members ->
  members <> [] ->
  forall fuel rest acc, (needMembers need members <= fuel)%nat ->
    parseMembers fuel
      (joinComma (map (fun kv => quoteJSONString (fst kv)
                                 ++ 58 :: JSON_stringify (snd kv)) members)
       ++ 125 :: rest) acc
    = Some (fold_left (fun acc kv => objSet (fst kv) (snd kv) acc) members acc,
            rest).
Proof.
  induction members as [| [k x] l IH]; intros HP Hwf Hne fuel rest acc Hfuel;
    [congruence |].
  inversion HP as [| kv l' Hx HPl]; subst.
  inversion Hwf as [| kv l' [Hk Hwx] Hwl]; subst.
  cbn [fst snd] in *. cbn [needMembers snd] in Hfuel.
  destruct fuel as [| fuel]; [lia |].
  cbn [parseMembers fold_left fst snd].
  destruct l as [| [k2 y] l].
  - cbn [map joinComma fst snd].
    rewrite <- app_assoc. cbn [app].
    destruct (parseStringBody_quote k
                (58 :: JSON_stringify x ++ 125 :: rest) Hk) as [body [E Hb]].
    rewrite E. rewrite skipWs_head by reflexivity.
    change (34 =? 34) with true. cbv iota. rewrite Hb.
    rewrite skipWs_head by reflexivity.
    change (58 =? 58) with true. cbv iota.
    rewrite (Hx Hwx fuel (125 :: rest)); [| lia | right; right; reflexivity].
    rewrite skipWs_delimited by (right; right; reflexivity). reflexivity.
  - change (joinComma (map (fun kv => quoteJSONString (fst kv)
                                      ++ 58 :: JSON_stringify (snd kv))
                         ((k, x) :: (k2, y) :: l)))
      with ((quoteJSONString k ++ 58 :: JSON_stringify x)
            ++ 44 :: joinComma
                       (map (fun kv => quoteJSONString (fst kv)
                                       ++ 58 :: JSON_stringify (snd kv))
                          ((k2, y) :: l))).
    rewrite <- !app_assoc. cbn [app].
    match goal with
    | |- context [quoteJSONString k ++ 58 :: JSON_stringify x ++ ?t] =>
        destruct (parseStringBody_quote k (58 :: JSON_stringify x ++ t) Hk)
          as [body [E Hb]]
    end.
    rewrite E. rewrite skipWs_head by reflexivity.
    change (34 =? 34) with true. cbv iota. rewrite Hb.
    rewrite skipWs_head by reflexivity.
    change (58 =? 58) with true. cbv iota.
    rewrite (Hx Hwx fuel); [| lia | left; reflexivity].
    rewrite skipWs_delimited by (left; reflexivity).
    change (44 =? 44) with true. cbv iota.
    rewrite (IH HPl Hwl ltac:(discriminate) fuel rest) by lia.
    reflexivity.
Qed.

Lemma parsesBack_all v : parsesBack v.
Proof.
  induction v as [| b | lexeme | s | items IH | members IH]
    using value_induction; intros Hwf fuel rest Hfuel Hrest;
    (destruct fuel as [| fuel]; [cbn in Hfuel; lia |]).
  - reflexivity.
  - destruct b; reflexivity.
  - cbn [wellFormed] in Hwf. cbn [JSON_stringify]. rewrite Hwf.
    pose proof (scanNumber_lexeme lexeme rest Hwf Hrest) as Hscan.
    destruct (stringify_head (JNum lexeme)) as [c [r [E [Hws [H93 H125]]]]].
    cbn [JSON_stringify] in E. rewrite Hwf in E. subst lexeme.
    unfold isNumberLexeme in Hwf.
    destruct (scanNumber (c :: r)) as [[l r0] |] eqn:Es; [| discriminate].
    destruct (scanNumber_head _ _ _ Es) as [c0 [s' [E0 Hc]]].
    inversion E0; subst c0 s'.
    assert (Hr : c = 45 \/ 48 <= c <= 57).
    { apply orb_true_iff in Hc as [Hc | Hc].
      - left. now apply N.eqb_eq.
      - right. unfold isDigit in Hc. apply andb_true_iff in Hc as [H1 H2].
        apply N.leb_le in H1, H2. lia. }
    cbn [app parseValue]. rewrite skipWs_head by exact Hws.
    assert (N123 : (c =? 123) = false) by (apply N.eqb_neq; lia).
    assert (N91 : (c =? 91) = false) by (apply N.eqb_neq; lia).
    assert (N34 : (c =? 34) = false) by (apply N.eqb_neq; lia).
    assert (N116 : (116 =? c) = false) by (apply N.eqb_neq; lia).
    assert (N102 : (102 =? c) = false) by (apply N.eqb_neq; lia).
    assert (N110 : (110 =? c) = false) by (apply N.eqb_neq; lia).
    rewrite N123, N91, N34.
    cbn [lit list_ascii_of_string map matchLiteral charMatches].
    change (N_of_ascii "t") with 116. change (N_of_ascii "f") with 102.
    change (N_of_ascii "n") with 110.
    rewrite N116, N102, N110.
    cbn [app] in Hscan. now rewrite Hscan.
  - cbn [wellFormed] in Hwf. cbn [JSON_stringify].
    destruct (parseStringBody_quote s rest Hwf) as [body [E Hb]].
    rewrite E. cbn [parseValue]. rewrite skipWs_head by reflexivity.
    change (34 =? 123) with false. change (34 =? 91) with false.
    change (34 =? 34) with true. cbv iota. now rewrite Hb.
  - apply wellFormed_arr in Hwf.
    destruct items as [| x l]; [reflexivity |].
    cbn [need] in Hfuel.
    cbn [JSON_stringify]. cbn [app parseValue].
    rewrite skipWs_head by reflexivity.
    change (91 =? 123) with false. change (91 =? 91) with true. cbv iota.
    rewrite <- app_assoc. cbn [app].
    pose proof (parseElements_join (x :: l) IH Hwf ltac:(discriminate)
                  fuel rest ltac:(lia)) as Hel.
    destruct (stringify_head x) as [c [r [E [Hws [H93 H125]]]]].
    remember (joinComma (map JSON_stringify (x :: l)) ++ 93 :: rest) as t eqn:Et.
    assert (Ht : exists r', t = c :: r').
    { subst t. cbn [map]. destruct l; cbn [joinComma]; rewrite E;
        eexists; reflexivity. }
    destruct Ht as [r' Ht]. rewrite Ht in *.
    rewrite skipWs_head by exact Hws. rewrite H93. now rewrite Hel.
  - apply wellFormed_obj in Hwf. destruct Hwf as [Hobj Hwf].
    destruct members as [| [k x] l]; [reflexivity |].
    cbn [need] in Hfuel.
    cbn [JSON_stringify]. cbn [app parseValue].
    rewrite skipWs_head by reflexivity.
    change (123 =? 123) with true. cbv iota.
    rewrite <- app_assoc. cbn [app].
    pose proof (parseMembers_join ((k, x) :: l) IH Hwf ltac:(discriminate)
                  fuel rest [] ltac:(lia)) as Hms.
    fold (objOfList ((k, x) :: l)) in Hms. rewrite Hobj in Hms.
    remember (joinComma
                (map (fun kv => quoteJSONString (fst kv)
                                ++ 58 :: JSON_stringify (snd kv))
                   ((k, x) :: l)) ++ 125 :: rest) as t eqn:Et.
    assert (Ht : exists r', t = 34 :: r').
    { subst t. cbn [map fst]. unfold quoteJSONString.
      destruct l; cbn [joinComma app]; eexists; reflexivity. }
    destruct Ht as [r' Ht]. rewrite Ht in *.
    rewrite skipWs_head by reflexivity.
    change (34 =? 125) with false. cbv iota. now rewrite Hms.
Qed.

Lemma length_joinComma_cons p ps :
  List.length (joinComma (p :: ps))
  = match ps with
    | [] => List.length p
    | _ :: _ => (List.length p + 1 + List.length (joinComma ps))%nat
    end.
Proof.
  destruct ps; [reflexivity |].
  change (joinComma (p :: t :: ps)) with (p ++ 44 :: joinComma (t :: ps)).
  rewrite length_app. cbn [List.length]. lia.
Qed.

Lemma need_bound v : (need v <= 2 * List.length (JSON_stringify v))%nat.
Proof.
  induction v as [| b | lexeme | s | items IH | members IH]
    using value_induction.
  - cbn. lia.
  - destruct b; cbn; lia.
  - destruct (stringify_head (JNum lexeme)) as [c [r [E _]]]. rewrite E.
    cbn. lia.
  - cbn. lia.
  - cbn [need JSON_stringify List.length]. rewrite length_app. cbn [List.length].
    assert (H : (needList need items
                 <= 2 * List.length (joinComma (map JSON_stringify items)) + 1)%nat).
    { induction IH as [| x l Hx Hl IHl]; [cbn; lia |].
      cbn [needList map]. rewrite length_joinComma_cons.
      destruct l as [| y l]; [cbn [needList map]; lia |].
      cbn [map] in *. lia. }
    lia.
  - cbn [need JSON_stringify List.length]. rewrite length_app. cbn [List.length].
    assert (H : (needMembers need members
                 <= 2 * List.length
                          (joinComma
                             (map (fun kv => quoteJSONString (fst kv)
                                             ++ 58%N :: JSON_stringify (snd kv))
                                members)) + 1)%nat).
    { induction IH as [| x l Hx Hl IHl]; [cbn; lia |].
      cbn [needMembers map]. rewrite length_joinComma_cons.
      rewrite length_app. cbn [List.length].
      destruct l as [| y l]; [cbn [needMembers map]; lia |].
      cbn [map] in *. lia. }
    lia.
Qed.

(** Parsing the text of a well-formed value gives the value back. *)
Theorem JSON_parse_stringify v :
  wellFormed v -> JSON_parse (JSON_stringify v) = Some v.
Proof.
  intro Hwf. unfold JSON_parse.
  pose proof (parsesBack_all v Hwf (fuelFor (JSON_stringify v)) []) as H.
  rewrite app_nil_r in H. rewrite H; [reflexivity | | exact I].
  unfold fuelFor. pose proof (need_bound v). lia.
Qed.

(** *** The characters of a JSON text *)

Lemma printable_app a b : printable a -> printable b -> printable (a ++ b).
Proof. intros. now apply Forall_app. Qed.

Lemma printable_digits ds : forallb isDigit ds = true -> printable ds.
Proof.
  intro H. apply Forall_forall. intros c Hc.
  rewrite forallb_forall in H. specialize (H c Hc).
  unfold isDigit in H. apply andb_true_iff in H as [H _].
  apply N.leb_le in H. lia.
Qed.

Lemma printable_spanDigits s ds r : spanDigits s = (ds, r) -> printable ds.
Proof.
  intro H. destruct (spanDigits_spec s ds r H) as [_ [Hd _]].
  now apply printable_digits.
Qed.

Lemma eqb_printable c k : (c =? k) = true -> 32 <= k -> 32 <= c.
Proof. intros H Hk. apply N.eqb_eq in H. now subst. Qed.

Lemma isDigit_printable c : isDigit c = true -> 32 <= c.
Proof.
  unfold isDigit. intro H. apply andb_true_iff in H as [H _].
  apply N.leb_le in H. lia.
Qed.

Lemma printable_scanInt s l r : scanInt s = Some (l, r) -> printable l.
Proof.
  destruct s as [| c s]; [discriminate |]. unfold scanInt.
  destruct (c =? 48) eqn:E0.
  - intro H; inversion H; subst. constructor; [| constructor].
    apply (eqb_printable _ _ E0). lia.
  - destruct (isDigit c) eqn:Ed; [| discriminate].
    destruct (spanDigits s) as [ds r'] eqn:E. intro H; inversion H; subst.
    constructor; [now apply isDigit_printable |].
    exact (printable_spanDigits _ _ _ E).
Qed.

Lemma printable_scanFrac s l r : scanFrac s = Some (l, r) -> printable l.
Proof.
  destruct s as [| c s]; unfold scanFrac.
  - intro H; inversion H; subst. constructor.
  - destruct (c =? 46) eqn:E0.
    + destruct (spanDigits s) as [ds r'] eqn:E.
      destruct ds as [| d ds]; [discriminate |].
      intro H; inversion H; subst.
      constructor; [apply (eqb_printable _ _ E0); lia |].
      exact (printable_spanDigits _ _ _ E).
    + intro H; inversion H; subst. constructor.
Qed.

Lemma printable_scanExp s l r : scanExp s = Some (l, r) -> printable l.
Proof.
  destruct s as [| c s]; unfold scanExp.
  - intro H; inversion H; subst. constructor.
  - destruct ((c =? 101) || (c =? 69)) eqn:E0.
    + assert (Hc : 32 <= c).
      { apply orb_true_iff in E0 as [E0 | E0];
          apply (eqb_printable _ _ E0); lia. }
      destruct s as [| c' s'].
      * cbn. discriminate.
      * destruct ((c' =? 43) || (c' =? 45)) eqn:Es.
        -- assert (Hc' : 32 <= c').
           { apply orb_true_iff in Es as [Es | Es];
               apply (eqb_printable _ _ Es); lia. }
           destruct (spanDigits s') as [ds r'] eqn:E.
           destruct ds as [| d ds]; [discriminate |].
           intro H; inversion H; subst.
           constructor; [exact Hc |]. cbn [app].
           constructor; [exact Hc' |].
           exact (printable_spanDigits _ _ _ E).
        -- destruct (spanDigits (c' :: s')) as [ds r'] eqn:E.
           destruct ds as [| d ds]; [discriminate |].
           intro H; inversion H; subst.
           constructor; [exact Hc |]. cbn [app].
           exact (printable_spanDigits _ _ _ E).
    + intro H; inversion H; subst. constructor.
Qed.

Lemma printable_scanNumber s l r : scanNumber s = Some (l, r) -> printable l.
Proof.
  unfold scanNumber. intro H.
  destruct (scanSign s) as [sign s1] eqn:E.
  destruct (scanInt s1) as [[i s2] |] eqn:Ei; [| discriminate].
  destruct (scanFrac s2) as [[f s3] |] eqn:Ef; [| discriminate].
  destruct (scanExp s3) as [[e s4] |] eqn:Ee; [| discriminate].
  inversion H; subst.
  repeat apply printable_app.
  - unfold scanSign in E. destruct s as [| c s']; [inversion E; constructor |].
    destruct (c =? 45) eqn:Ec; inversion E; subst; [| constructor].
    constructor; [apply (eqb_printable _ _ Ec); lia | constructor].
  - exact (printable_scanInt _ _ _ Ei).
  - exact (printable_scanFrac _ _ _ Ef).
  - exact (printable_scanExp _ _ _ Ee).
Qed.

Lemma hexDigit_printable n : 32 <= hexDigit n.
Proof. unfold hexDigit. destruct (n <? 10); lia. Qed.

Lemma printable_unicodeEscape c : printable (unicodeEscape c).
Proof.
  unfold unicodeEscape, hex4.
  repeat constructor; try apply hexDigit_printable; lia.
Qed.

Lemma printable_escapeUnits n : forall s,
  (List.length s <= n)%nat -> printable (escapeUnits s).
Proof.
  induction n as [| n IH]; intros s Hn.
  - destruct s; [constructor | cbn in Hn; lia].
  - destruct s as [| c r]; [constructor |]. cbn [List.length] in Hn.
    assert (IHr : printable (escapeUnits r)) by (apply IH; lia).
    cbn [escapeUnits].
    repeat match goal with
           | |- context [if ?b then _ else _] => destruct b eqn:?
           end;
      try (repeat (constructor; [lia |]); exact IHr);
      try (apply printable_app; [apply printable_unicodeEscape | exact IHr]).
    + destruct r as [| d r'].
      * apply printable_unicodeEscape.
      * destruct (isLowSurrogate d) eqn:Hl.
        -- assert (32 <= c) by (apply N.ltb_ge; assumption).
           assert (32 <= d).
           { unfold isLowSurrogate in Hl. apply andb_true_iff in Hl as [Hl _].
             apply N.leb_le in Hl. lia. }
           constructor; [assumption |]. constructor; [assumption |].
           apply IH. cbn in Hn. lia.
        -- apply printable_app; [apply printable_unicodeEscape | exact IHr].
    + constructor; [apply N.ltb_ge; assumption | exact IHr].
Qed.

Lemma printable_quote s : printable (quoteJSONString s).
Proof.
  unfold quoteJSONString. constructor; [lia |].
  apply printable_app; [apply (printable_escapeUnits (List.length s)); lia |].
  constructor; [lia | constructor].
Qed.

Lemma printable_joinComma parts :
  Forall printable parts -> printable (joinComma parts).
Proof.
  induction 1 as [| p ps Hp Hps IH]; [constructor |].
  destruct ps as [| q ps]; [exact Hp |].
  change (joinComma (p :: q :: ps)) with (p ++ 44 :: joinComma (q :: ps)).
  apply printable_app; [exact Hp |]. constructor; [lia | exact IH].
Qed.

(** The text of a value has no character below the space. *)
Lemma printable_stringify v : printable (JSON_stringify v).
Proof.
  induction v as [| b | lexeme | s | items IH | members IH]
    using value_induction; cbn [JSON_stringify].
  - repeat constructor; cbn; lia.
  - destruct b; repeat constructor; cbn; lia.
  - destruct (isNumberLexeme lexeme) eqn:E;
      [| repeat constructor; cbn; lia].
    unfold isNumberLexeme in E.
    destruct (scanNumber lexeme) as [[l r] |] eqn:Es; [| discriminate].
    destruct r; [| discriminate].
    destruct (scanNumber_stable _ _ _ Es) as [Hl _].
    rewrite app_nil_r in Hl. subst l.
    exact (printable_scanNumber _ _ _ Es).
  - apply printable_quote.
  - constructor; [lia |]. apply printable_app; [| repeat constructor; lia].
    apply printable_joinComma. apply Forall_map. exact IH.
  - constructor; [lia |]. apply printable_app; [| repeat constructor; lia].
    apply printable_joinComma. apply Forall_map.
    eapply Forall_impl; [| exact IH]. intros [k x] Hx. cbn [fst snd] in *.
    apply printable_app; [apply printable_quote |].
    constructor; [lia | exact Hx].
Qed.

(** *** The fuel of [JSON_parse] is enough *)

Lemma length_dropWhile f s : (List.length (dropWhile f s) <= List.length s)%nat.
Proof.
  induction s as [| c s IH]; cbn; [lia |]. destruct (f c); cbn; lia.
Qed.

Lemma length_skipWs s : (List.length (skipWs s) <= List.length s)%nat.
Proof. apply length_dropWhile. Qed.

Lemma length_matchLiteral ic pat : forall s r,
  matchLiteral ic pat s = Some r ->
  (List.length r + List.length pat = List.length s)%nat.
Proof.
  induction pat as [| p pat IH]; intros s r H; cbn in H.
  - inversion H; subst. cbn. lia.
  - destruct s as [| c s]; [discriminate |].
    destruct (charMatches ic p c); [| discriminate].
    specialize (IH _ _ H). cbn. lia.
Qed.

Lemma length_parseStringBody n : forall s str r,
  (List.length s <= n)%nat ->
  parseStringBody s = Some (str, r) -> (List.length r < List.length s)%nat.
Proof.
  induction n as [| n IH]; intros s str r Hn H.
  - destruct s; [discriminate | cbn in Hn; lia].
  - destruct s as [| c s]; [discriminate |]. cbn [List.length] in *.
    cbn [parseStringBody] in H.
    destruct (c =? 34); [inversion H; subst; lia |].
    destruct (c =? 92).
    + destruct s as [| e s]; [discriminate |]. cbn [List.length] in *.
      destruct (e =? 117).
      * destruct s as [| h1 [| h2 [| h3 [| h4 s]]]]; try discriminate.
        destruct (hexValue h1), (hexValue h2), (hexValue h3), (hexValue h4);
          try discriminate.
        destruct (parseStringBody s) as [[str' r'] |] eqn:E; [| discriminate].
        inversion H; subst. cbn [List.length] in *.
        specialize (IH s str' r ltac:(lia) E). lia.
      * destruct (unescape e); [| discriminate].
        destruct (parseStringBody s) as [[str' r'] |] eqn:E; [| discriminate].
        inversion H; subst. specialize (IH s str' r ltac:(lia) E). lia.
    + destruct (c <? 32); [discriminate |].
      destruct (parseStringBody s) as [[str' r'] |] eqn:E; [| discriminate].
      inversion H; subst. specialize (IH s str' r ltac:(lia) E). lia.
Qed.

Lemma length_scanNumber s l r :
  scanNumber s = Some (l, r) -> (List.length r < List.length s)%nat.
Proof.
  intro H. unfold scanNumber in H.
  destruct (scanSign s) as [sign s1] eqn:E.
  destruct (scanInt s1) as [[i s2] |] eqn:Ei; [| discriminate].
  destruct (scanFrac s2) as [[f s3] |] eqn:Ef; [| discriminate].
  destruct (scanExp s3) as [[e s4] |] eqn:Ee; [| discriminate].
  inversion H; subst.
  destruct (scanSign_spec _ _ _ E) as [-> _].
  destruct (scanInt_stable _ _ _ Ei) as [-> _].
  destruct (scanFrac_stable _ _ _ Ef) as [-> _].
  destruct (scanExp_stable _ _ _ Ee) as [-> _].
  assert (Hi : i <> []).
  { unfold scanInt in Ei. destruct (i ++ f ++ e ++ r) as [| c t];
      [discriminate |].
    destruct (c =? 48); [inversion Ei; discriminate |].
    destruct (isDigit c); [| discriminate].
    destruct (spanDigits t). inversion Ei. discriminate. }
  rewrite !length_app. destruct i; [congruence | cbn; lia].
Qed.

(** One unfolding of each parser. *)
Lemma parseElements_S g s :
  parseElements (S g) s
  = match parseValue g s with
    | None => None
    | Some (v, r) =>
        match skipWs r with
        | [] => None
        | c :: r' =>
            if c =? 44 then
              match parseElements g r' with
              | Some (vs, rest) => Some (v :: vs, rest)
              | None => None
              end
            else if c =? 93 then Some ([v], r')
            else None
        end
    end.
Proof. reflexivity. Qed.

Lemma parseMembers_S g s acc :
  parseMembers (S g) s acc
  = match skipWs s with
    | [] => None
    | c :: r =>
        if c =? 34 then
          match parseStringBody r with
          | None => None
          | Some (k, r1) =>
              match skipWs r1 with
              | [] => None
              | c1 :: r2 =>
                  if c1 =? 58 then
                    match parseValue g r2 with
                    | None => None
                    | Some (v, r3) =>
                        match skipWs r3 with
                        | [] => None
                        | c3 :: r4 =>
                            if c3 =? 44
                            then parseMembers g r4 (objSet k v acc)
                            else if c3 =? 125
                                 then Some (objSet k v acc, r4)
                                 else None
                        end
                    end
                  else None
              end
          end
        else None
    end.
Proof. reflexivity. Qed.

Lemma skipWs_cons_length s c r :
  skipWs s = c :: r -> (List.length r < List.length s)%nat.
Proof. intro H. pose proof (length_skipWs s). rewrite H in *. cbn in *. lia. Qed.

Lemma enoughElements_step g :
  enoughValue g -> enoughElements g -> enoughElements (S g).
Proof.
  intros IHv IHe s vs r H. rewrite parseElements_S in H.
  destruct (parseValue g s) as [[v r1] |] eqn:Ev; [| discriminate].
  destruct (IHv _ _ _ Ev) as [Lv Fv].
  destruct (skipWs r1) as [| c r'] eqn:Ews; [discriminate |].
  pose proof (skipWs_cons_length _ _ _ Ews) as Lws.
  destruct (c =? 44) eqn:E44.
  - destruct (parseElements g r') as [[vs' rest] |] eqn:Ee; [| discriminate].
    inversion H; subst. destruct (IHe _ _ _ Ee) as [Le Fe].
    split; [lia |]. intros f' Hf'. destruct f' as [| g']; [lia |].
    rewrite parseElements_S. rewrite (Fv g') by lia. rewrite Ews, E44.
    rewrite (Fe g') by lia. reflexivity.
  - destruct (c =? 93) eqn:E93; [| discriminate]. inversion H; subst.
    split; [lia |]. intros f' Hf'. destruct f' as [| g']; [lia |].
    rewrite parseElements_S. rewrite (Fv g') by lia.
    now rewrite Ews, E44, E93.
Qed.

Lemma enoughMembers_step g :
  enoughValue g -> enoughMembers g -> enoughMembers (S g).
Proof.
  intros IHv IHm s acc ms r H. rewrite parseMembers_S in H.
  destruct (skipWs s) as [| c r0] eqn:E0; [discriminate |].
  pose proof (skipWs_cons_length _ _ _ E0) as L0.
  destruct (c =? 34) eqn:E34; [| discriminate].
  destruct (parseStringBody r0) as [[k r1] |] eqn:Ek; [| discriminate].
  pose proof (length_parseStringBody _ _ _ _ (Nat.le_refl _) Ek) as Lk.
  destruct (skipWs r1) as [| c1 r2] eqn:E1; [discriminate |].
  pose proof (skipWs_cons_length _ _ _ E1) as L1.
  destruct (c1 =? 58) eqn:E58; [| discriminate].
  destruct (parseValue g r2) as [[v r3] |] eqn:Ev; [| discriminate].
  destruct (IHv _ _ _ Ev) as [Lv Fv].
  destruct (skipWs r3) as [| c3 r4] eqn:E3; [discriminate |].
  pose proof (skipWs_cons_length _ _ _ E3) as L3.
  destruct (c3 =? 44) eqn:E44.
  - destruct (IHm _ _ _ _ H) as [Lm Fm].
    split; [lia |]. intros f' Hf'. destruct f' as [| g']; [lia |].
    rewrite parseMembers_S, E0, E34, Ek, E1, E58.
    rewrite (Fv g') by lia. rewrite E3, E44. apply Fm. lia.
  - destruct (c3 =? 125) eqn:E125; [| discriminate]. inversion H; subst.
    split; [lia |]. intros f' Hf'. destruct f' as [| g']; [lia |].
    rewrite parseMembers_S, E0, E34, Ek, E1, E58.
    rewrite (Fv g') by lia. now rewrite E3, E44, E125.
Qed.

Lemma enoughValue_step g :
  enoughElements g -> enoughMembers g -> enoughValue (S g).
Proof.
  intros IHe IHm s v r H. cbn [parseValue] in H.
  destruct (skipWs s) as [| c r0] eqn:E0; [discriminate |].
  pose proof (skipWs_cons_length _ _ _ E0) as L0.
  destruct (c =? 123) eqn:E123.
  { destruct (skipWs r0) as [| c' r'] eqn:E1; [discriminate |].
    pose proof (skipWs_cons_length _ _ _ E1) as L1.
    destruct (c' =? 125) eqn:E125.
    - inversion H; subst. split; [lia |].
      intros f' Hf'. destruct f' as [| g']; [lia |].
      cbn [parseValue]. now rewrite E0, E123, E1, E125.
    - destruct (parseMembers g (c' :: r') []) as [[ms rest] |] eqn:Em;
        [| discriminate].
      inversion H; subst. destruct (IHm _ _ _ _ Em) as [Lm Fm].
      cbn [List.length] in *.
      split; [lia |]. intros f' Hf'. destruct f' as [| g']; [lia |].
      cbn [parseValue]. rewrite E0, E123, E1, E125.
      rewrite (Fm g') by (cbn [List.length]; lia). reflexivity. }
  destruct (c =? 91) eqn:E91.
  { destruct (skipWs r0) as [| c' r'] eqn:E1; [discriminate |].
    pose proof (skipWs_cons_length _ _ _ E1) as L1.
    destruct (c' =? 93) eqn:E93.
    - inversion H; subst. split; [lia |].
      intros f' Hf'. destruct f' as [| g']; [lia |].
      cbn [parseValue]. now rewrite E0, E123, E91, E1, E93.
    - destruct (parseElements g (c' :: r')) as [[vs rest] |] eqn:Ee;
        [| discriminate].
      inversion H; subst. destruct (IHe _ _ _ Ee) as [Le Fe].
      cbn [List.length] in *.
      split; [lia |]. intros f' Hf'. destruct f' as [| g']; [lia |].
      cbn [parseValue]. rewrite E0, E123, E91, E1, E93.
      rewrite (Fe g') by (cbn [List.length]; lia). reflexivity. }
  destruct (c =? 34) eqn:E34.
  { destruct (parseStringBody r0) as [[str rest] |] eqn:Es; [| discriminate].
    pose proof (length_parseStringBody _ _ _ _ (Nat.le_refl _) Es) as Ls.
    inversion H; subst. split; [lia |].
    intros f' Hf'. destruct f' as [| g']; [lia |].
    cbn [parseValue]. now rewrite E0, E123, E91, E34, Es. }
  destruct (matchLiteral false (lit "true") (c :: r0)) as [rest |] eqn:Et.
  { pose proof (length_matchLiteral _ _ _ _ Et) as Lt. cbn in Lt.
    inversion H; subst. split; [lia |].
    intros f' Hf'. destruct f' as [| g']; [lia |].
    cbn [parseValue]. now rewrite E0, E123, E91, E34, Et. }
  destruct (matchLiteral false (lit "false") (c :: r0)) as [rest |] eqn:Ef.
  { pose proof (length_matchLiteral _ _ _ _ Ef) as Lf. cbn in Lf.
    inversion H; subst. split; [lia |].
    intros f' Hf'. destruct f' as [| g']; [lia |].
    cbn [parseValue]. now rewrite E0, E123, E91, E34, Et, Ef. }
  destruct (matchLiteral false (lit "null") (c :: r0)) as [rest |] eqn:En.
  { pose proof (length_matchLiteral _ _ _ _ En) as Ln. cbn in Ln.
    inversion H; subst. split; [lia |].
    intros f' Hf'. destruct f' as [| g']; [lia |].
    cbn [parseValue]. now rewrite E0, E123, E91, E34, Et, Ef, En. }
  destruct (scanNumber (c :: r0)) as [[lex rest] |] eqn:Es; [| discriminate].
  pose proof (length_scanNumber _ _ _ Es) as Ls. cbn in Ls.
  inversion H; subst. split; [lia |].
  intros f' Hf'. destruct f' as [| g']; [lia |].
  cbn [parseValue]. now rewrite E0, E123, E91, E34, Et, Ef, En, Es.
Qed.

Lemma enough_all f : enoughValue f /\ enoughElements f /\ enoughMembers f.
Proof.
  induction f as [| g [IHv [IHe IHm]]].
  - repeat split; intros; discriminate.
  - split; [apply enoughValue_step; assumption |].
    split; [apply enoughElements_step | apply enoughMembers_step]; assumption.
Qed.

(** If any amount of fuel parses all of [s], so does [JSON_parse]. *)
Theorem JSON_parse_fuel f s v r :
  parseValue f s = Some (v, r) -> skipWs r = [] -> JSON_parse s = Some v.
Proof.
  intros H Hr. destruct (enough_all f) as [Hv _].
  destruct (Hv _ _ _ H) as [L F]. unfold JSON_parse.
  rewrite (F (fuelFor s)) by (unfold fuelFor; lia). now rewrite Hr.
Qed.

(** [JSON_parse] rejects a text only if no amount of fuel parses all of
    it. *)
Corollary JSON_parse_None s :
  JSON_parse s = None ->
  forall f v r, parseValue f s = Some (v, r) -> skipWs r <> [].
Proof.
  intros Hn f v r H Hr. rewrite (JSON_parse_fuel f s v r H Hr) in Hn.
  discriminate.
Qed.

End JSONFacts.

(** ** Transports *)

Module TransportFacts.
Import Text JSON Js Transports.
Local Open Scope js_scope.

(** *** Inbound frames *)






Lemma messagesOf_app es1 es2 :
  messagesOf (es1 ++ es2) = messagesOf es1 ++ messagesOf es2.
Proof. unfold messagesOf. apply flat_map_app. Qed.







(** *** disconnect *)

Lemma ws_disconnect_result s :
  WebSocketTransport.disconnect s
  = (Return tt,
     {| WebSocketTransport.ws := None;
        WebSocketTransport.messageCallback :=
          WebSocketTransport.messageCallback s;
        WebSocketTransport.statusCallback :=
          WebSocketTransport.statusCallback s;
        WebSocketTransport.errorCallback := WebSocketTransport.errorCallback s;
        WebSocketTransport.connectionTimeout := false |},
     (if WebSocketTransport.connectionTimeout s then [ClearTimer] else [])
     ++ match WebSocketTransport.ws s with
        | Some _ => [SocketClose 1000 (lit "Client disconnect")]
        | None => []
        end
     ++ (if WebSocketTransport.statusCallback s
         then [StatusCallback closed] else [])).
Proof. destruct s as [[rs |] mcb [|] ecb [|]]; reflexivity. Qed.

Lemma es_disconnect_result s :
  EventSourceTransport.disconnect s
  = (Return tt,
     {| EventSourceTransport.eventSource := None;
        EventSourceTransport.sessionId := None;
        EventSourceTransport.messageCallback :=
          EventSourceTransport.messageCallback s;
        EventSourceTransport.statusCallback :=
          EventSourceTransport.statusCallback s;
        EventSourceTransport.errorCallback :=
          EventSourceTransport.errorCallback s;
        EventSourceTransport.isManualClose := true |},
     match EventSourceTransport.eventSource s with
     | Some _ => [EventSourceClose]
     | None => []
     end
     ++ (if EventSourceTransport.statusCallback s
         then [StatusCallback closed] else [])).
Proof. destruct s as [[rs |] sid mcb [|] ecb manual]; reflexivity. Qed.

Lemma polling_disconnect_result outcome s :
  PollingTransport.disconnect outcome s
  = (Return tt,
     {| PollingTransport.sessionId := None;
        PollingTransport.pollingInterval := false;
        PollingTransport.messageCallback :=
          PollingTransport.messageCallback s;
        PollingTransport.statusCallback := PollingTransport.statusCallback s;
        PollingTransport.errorCallback := PollingTransport.errorCallback s;
        PollingTransport.connected := false;
        PollingTransport.messageQueue := [];
        PollingTransport.abortController := false |},
     (if PollingTransport.pollingInterval s then [ClearTimer] else [])
     ++ (if PollingTransport.abortController s then [AbortRequest] else [])
     ++ match PollingTransport.sessionId s with
        | Some id =>
            FetchPost (lit "/close") (JObj [ (lit "session_id", JStr id) ])
            :: match outcome with
               | FetchRejected _ =>
                   [ConsoleError (lit "Failed to close session:")]
               | FetchResponse _ _ _ => []
               end
        | None => []
        end
     ++ (if PollingTransport.statusCallback s
         then [StatusCallback closed] else [])).
Proof.
  destruct s as [[id |] [|] mcb [|] ecb conn queue [|]];
    destruct outcome as [e | ok st stt]; reflexivity.
Qed.

Lemma statusesOf_app es1 es2 :
  statusesOf (es1 ++ es2) = statusesOf es1 ++ statusesOf es2.
Proof. unfold statusesOf. apply flat_map_app. Qed.

(** C8.  [disconnect] of each of the three transports, from every state of
    its fields and whatever becomes of the request it may await, returns
    normally; its last act is to notify the status closed, which reaches
    the status callback when one is registered; the transport is then not
    connected.  A second [disconnect] right after does the same and leaves
    the fields as the first left them. *)
Theorem disconnect_idempotent outcome1 outcome2 a :
  let r1 := Transports.disconnect outcome1 a in
  let r2 := Transports.disconnect outcome2 (fields r1) in
  completion r1 = Return tt
  /\ statusesOf (effects r1) = (if statusCallbackSet a then [closed] else [])
  /\ (exists es, effects r1
                 = es ++ (if statusCallbackSet a
                          then [StatusCallback closed] else []))
  /\ isConnected (fields r1) = false
  /\ statusCallbackSet (fields r1) = statusCallbackSet a
  /\ getTransportType (fields r1) = getTransportType a
  /\ completion r2 = Return tt
  /\ effects r2 = (if statusCallbackSet a then [StatusCallback closed] else [])
  /\ fields r2 = fields r1.
Proof.
  intros r1 r2. subst r1 r2. unfold Transports.disconnect.
  destruct a as [s | s | s].
  - rewrite ws_disconnect_result. cbn [inTransport fields completion effects
                                        fst snd].
    rewrite ws_disconnect_result. cbn.
    repeat split.
    + rewrite !statusesOf_app.
      destruct (WebSocketTransport.connectionTimeout s),
        (WebSocketTransport.ws s), (WebSocketTransport.statusCallback s);
        reflexivity.
    + eexists. rewrite app_assoc. reflexivity.
  - rewrite es_disconnect_result. cbn [inTransport fields completion effects
                                        fst snd].
    rewrite es_disconnect_result. cbn.
    repeat split.
    + rewrite !statusesOf_app.
      destruct (EventSourceTransport.eventSource s),
        (EventSourceTransport.statusCallback s); reflexivity.
    + eexists. reflexivity.
  - rewrite polling_disconnect_result.
    cbn [inTransport fields completion effects fst snd].
    rewrite polling_disconnect_result. cbn.
    repeat split.
    + rewrite !statusesOf_app.
      destruct (PollingTransport.pollingInterval s),
        (PollingTransport.abortController s),
        (PollingTransport.sessionId s), outcome1,
        (PollingTransport.statusCallback s); reflexivity.
    + eexists. rewrite !app_assoc. reflexivity.
Qed.
End TransportFacts.

(** ** Session coordinator *)

Module SessionFacts.
Import Text JSON Js Transports Security ErrorHandler Session.

(** *** Status changes *)







(** *** Errors *)




Lemma addMessage_keeps config m s :
  connectionState (addMessage config m s) = connectionState s
  /\ reconnectHook (addMessage config m s) = reconnectHook s
  /\ messages (addMessage config m s) = appendBounded config m (messages s).
Proof. unfold addMessage. destruct (isSpeakProposal m); repeat split. Qed.



(** *** The message list *)

Lemma lastN_app_long {A : Type} n (a c : list A) :
  (n <= List.length c)%nat -> lastN n (a ++ c) = lastN n c.
Proof.
  intro H. unfold lastN. rewrite length_app, skipn_app.
  replace (List.length a + List.length c - n)%nat
    with (List.length a + (List.length c - n))%nat by lia.
  rewrite skipn_all2 by lia. cbn [app]. f_equal. lia.
Qed.

Lemma lastN_short {A : Type} n (l : list A) :
  (List.length l <= n)%nat -> lastN n l = l.
Proof.
  intro H. unfold lastN.
  replace (List.length l - n)%nat with 0%nat by lia. reflexivity.
Qed.

Lemma length_lastN {A : Type} n (l : list A) :
  List.length (lastN n l) = Nat.min n (List.length l).
Proof. unfold lastN. rewrite length_skipn. lia. Qed.

Lemma lastN_suffix {A : Type} n (l : list A) :
  exists older, l = older ++ lastN n l.
Proof.
  exists (firstn (List.length l - n) l). unfold lastN.
  now rewrite firstn_skipn.
Qed.

Lemma lastN_lastN_snoc {A : Type} n (l : list A) m :
  lastN n (lastN n l ++ [m]) = lastN n (l ++ [m]).
Proof.
  destruct (Nat.le_gt_cases (List.length l) n) as [Hle | Hgt].
  - now rewrite (lastN_short n l Hle).
  - destruct (lastN_suffix n l) as [older E].
    transitivity (lastN n (older ++ (lastN n l ++ [m]))).
    + symmetry. apply lastN_app_long.
      rewrite length_app, length_lastN. cbn. lia.
    + rewrite app_assoc, <- E. reflexivity.
Qed.

Lemma lastN_snoc_last {A : Type} n (l : list A) m :
  (1 <= n)%nat -> exists front, lastN n (l ++ [m]) = front ++ [m].
Proof.
  intro H. unfold lastN. rewrite length_app, skipn_app. cbn [List.length].
  exists (skipn (List.length l + 1 - n) l).
  f_equal.
  replace (List.length l + 1 - n - List.length l)%nat with 0%nat by lia.
  reflexivity.
Qed.

Lemma appendBounded_lastN config m l :
  0 <= maxMessages (performance config) ->
  appendBounded config m l
  = lastN (Z.to_nat (maxMessages (performance config))) (l ++ [m]).
Proof.
  intro H0. unfold appendBounded, slice.
  set (new := l ++ [m]). set (mx := maxMessages (performance config)) in *.
  destruct (Z.gtb_spec (Z.of_nat (List.length new)) mx) as [Hgt | Hle].
  - destruct (Z.ltb_spec (Z.of_nat (List.length new) - mx) 0) as [? | _];
      [lia |].
    unfold lastN. f_equal. lia.
  - symmetry. apply lastN_short. lia.
Qed.

Lemma addMessages_lastN config appended : forall s,
  0 <= maxMessages (performance config) ->
  Z.of_nat (List.length (messages s)) <= maxMessages (performance config) ->
  messages (fold_left (fun s m => addMessage config m s) appended s)
  = lastN (Z.to_nat (maxMessages (performance config)))
      (messages s ++ appended).
Proof.
  induction appended as [| m appended IH] using rev_ind; intros s H0 Hs.
  - cbn. rewrite app_nil_r. symmetry. apply lastN_short. lia.
  - rewrite fold_left_app. cbn [fold_left].
    destruct (addMessage_keeps config m
                (fold_left (fun s m => addMessage config m s) appended s))
      as [_ [_ ->]].
    rewrite appendBounded_lastN by exact H0.
    rewrite (IH s H0 Hs), lastN_lastN_snoc. now rewrite app_assoc.
Qed.


(** C9.  Starting from a list within the bound and for a positive bound,
    after every append the list is no longer than the configured maximum,
    ends with the message just appended, and is the longest suffix within
    the bound of all messages so far, so what is retained is what was
    appended, in the order of appending, and only the oldest are gone. *)
Theorem messages_bounded_suffix config s appended m :
  1 <= maxMessages (performance config) ->
  Z.of_nat (List.length (messages s)) <= maxMessages (performance config) ->
  let before := fold_left (fun s m => addMessage config m s) appended s in
  let after := addMessage config m before in
  Z.of_nat (List.length (messages after)) <= maxMessages (performance config)
  /\ (exists front, messages after = front ++ [m])
  /\ messages after
     = lastN (Z.to_nat (maxMessages (performance config)))
         (messages s ++ appended ++ [m])
  /\ (exists evicted,
        messages s ++ appended ++ [m] = evicted ++ messages after)
  /\ (exists evicted, messages before ++ [m] = evicted ++ messages after).
Proof.
  intros H1 Hs before after.
  assert (H0 : 0 <= maxMessages (performance config)) by lia.
  assert (Ea : messages after
               = lastN (Z.to_nat (maxMessages (performance config)))
                   (messages before ++ [m])).
  { subst after. destruct (addMessage_keeps config m before) as [_ [_ ->]].
    now apply appendBounded_lastN. }
  assert (Eb : messages before
               = lastN (Z.to_nat (maxMessages (performance config)))
                   (messages s ++ appended))
    by (subst before; now apply addMessages_lastN).
  assert (Et : messages after
               = lastN (Z.to_nat (maxMessages (performance config)))
                   (messages s ++ appended ++ [m])).
  { rewrite Ea, Eb, lastN_lastN_snoc. now rewrite <- app_assoc. }
  split; [rewrite Et, length_lastN; lia |].
  split; [rewrite Ea; apply lastN_snoc_last; lia |].
  split; [exact Et |].
  split; [rewrite Et; apply lastN_suffix | rewrite Ea; apply lastN_suffix].
Qed.

(** Three appends to a list bounded by two. *)
Lemma messages_bounded_suffix_witness :
  messages (addMessage exampleSmallConfig (JStr (lit "c"))
              (fold_left (fun s m => addMessage exampleSmallConfig m s)
                 [JStr (lit "a"); JStr (lit "b")] (init exampleSmallConfig)))
  = [JStr (lit "b"); JStr (lit "c")].
Proof.
  refine (eq_trans (proj1 (proj2 (proj2 (messages_bounded_suffix
    exampleSmallConfig (init exampleSmallConfig)
    [JStr (lit "a"); JStr (lit "b")] (JStr (lit "c")) _ _)))) _).
  - cbn. lia.
  - cbn. lia.
  - reflexivity.
Defined.

End SessionFacts.

(** ** Sending *)

Module SendFacts.
Import Text JSON JSONFacts Js Transports Security ErrorHandler Session.
Local Open Scope N_scope.

(** *** Sanitizing *)

Lemma filter_printable s :
  printable s -> filter (fun c => negb (c =? 0)) s = s.
Proof.
  induction 1 as [| c s Hc Hs IH]; [reflexivity |]. cbn.
  destruct (N.eqb_spec c 0) as [-> | _]; [lia |]. cbn. now rewrite IH.
Qed.

Lemma trim_fixed c body d :
  isTrimWhitespace c = false -> isTrimWhitespace d = false ->
  trim (c :: body ++ [d]) = c :: body ++ [d].
Proof.
  intros Hc Hd. unfold trim. cbn [dropWhile]. rewrite Hc.
  change (c :: body ++ [d]) with ((c :: body) ++ [d]).
  rewrite rev_app_distr. cbn [rev app dropWhile]. rewrite Hd.
  change (d :: rev body ++ [c]) with (rev [d] ++ rev (c :: body)).
  rewrite <- rev_app_distr, rev_involutive. reflexivity.
Qed.

Lemma trim_null : trim (lit "null") = lit "null".
Proof. reflexivity. Qed.

(** The text of an object, an array or [null] is left as it is by
    [sanitizeInput]. *)
Lemma sanitizeInput_stringify v :
  typeof v = TObject -> sanitizeInput (JSON_stringify v) = JSON_stringify v.
Proof.
  intro Ht. unfold sanitizeInput.
  rewrite filter_printable by apply printable_stringify.
  destruct v as [| b | lexeme | s | items | members]; try discriminate Ht;
    cbn [JSON_stringify].
  - reflexivity.
  - apply trim_fixed; reflexivity.
  - apply trim_fixed; reflexivity.
Qed.

Lemma sanitizeJsonInput_stringify v :
  typeof v = TObject -> wellFormed v ->
  sanitizeJsonInput (JSON_stringify v) = Return (JSON_stringify v).
Proof.
  intros Ht Hwf. unfold sanitizeJsonInput.
  rewrite sanitizeInput_stringify by exact Ht.
  now rewrite JSON_parse_stringify.
Qed.

(** *** sendMessage *)

Lemma sentOf_app es1 es2 : sentOf (es1 ++ es2) = sentOf es1 ++ sentOf es2.
Proof. unfold sentOf. apply flat_map_app. Qed.

Lemma send_not_sent outcome m a :
  sentOf (effects (Transports.send outcome m a)) = [].
Proof.
  unfold Transports.send.
  destruct a as [s | s | s]; cbn.
  - unfold WebSocketTransport.send, bind, get, throw, tryCatch, emit, inTransport.
    cbn. destruct (WebSocketTransport.isConnected s); reflexivity.
  - unfold EventSourceTransport.send, EventSourceTransport.postMessage,
      bind, get, throw, tryCatch, emit, inTransport, ret. cbn.
    destruct (EventSourceTransport.sessionId s); [| reflexivity].
    destruct outcome as [e | [|] st stt]; reflexivity.
  - unfold PollingTransport.send, bind, get, throw, tryCatch, emit,
      inTransport, ret. cbn.
    destruct (PollingTransport.connected s); [| reflexivity].
    destruct (PollingTransport.sessionId s); [| reflexivity].
    destruct outcome as [e | [|] st stt]; reflexivity.
Qed.

(** What [sendMessage] hands to the transport when connected: the
    sanitized message if the sanitizing step returns one, and nothing
    if it throws; the error then surfaces with its user message. *)
Lemma sendMessage_sent outcome message s a :
  transportRef s = Some a -> isConnected a = true ->
  match sanitizeMessage message s with
  | (Return sanitized, _, _) =>
      sentOf (effects (sendMessage outcome message s)) = [sanitized]
  | (Throw e, _, _) =>
      sentOf (effects (sendMessage outcome message s)) = []
      /\ completion (sendMessage outcome message s)
         = Throw (userMessage (handleError e sendMessageContext))
  end.
Proof.
  intros Ha Hc. unfold sendMessage, bind at 1, get. cbn.
  rewrite Ha, Hc. cbn [negb].
  unfold tryCatch, bind.
  assert (Hpure : exists c, sanitizeMessage message s = (c, s, [])).
  { unfold sanitizeMessage, bind, liftCompletion, ret.
    destruct message; cbn;
      try match goal with
          | |- context [sanitizeJsonInput ?x] => destruct (sanitizeJsonInput x)
          end; eexists; reflexivity. }
  destruct Hpure as [c Hpure]. rewrite Hpure.
  destruct c as [sanitized | e].
  - unfold emit. cbn.
    unfold onTransport. rewrite Ha.
    pose proof (send_not_sent outcome sanitized a) as Hs.
    destruct (Transports.send outcome sanitized a) as [[c' a'] es'].
    cbn [effects snd] in Hs.
    unfold sentOf in *.
    destruct c'; cbn; unfold throw; cbn; now rewrite ?flat_map_app, Hs.
  - unfold throw. cbn. split; reflexivity.
Qed.


Lemma sanitizeMessage_object v s :
  typeof v = TObject -> wellFormed v ->
  sanitizeMessage v s = (Return (JStr (JSON_stringify v)), s, []).
Proof.
  intros Ht Hwf.
  pose proof (sanitizeJsonInput_stringify v Ht Hwf) as E.
  unfold sanitizeMessage, bind, liftCompletion, ret.
  destruct v; try discriminate Ht; now rewrite E.
Qed.




(** An object payload holding [NaN] does not come back: its text has
    [null] in the place of the number. *)
Lemma sendMessage_nan_not_round_trip :
  sentOf (effects (sendMessage (FetchResponse true (lit "200") (lit "OK"))
                     (JObj [ (lit "a", JNum (lit "NaN")) ]) exampleSession))
  = [JStr (JSON_stringify (JObj [ (lit "a", JNull) ]))]
  /\ JSON_parse (JSON_stringify (JObj [ (lit "a", JNum (lit "NaN")) ]))
     = Some (JObj [ (lit "a", JNull) ]).
Proof. split; vm_compute; reflexivity. Qed.

End SendFacts.
(** ** The reconnection controller over arbitrary runs *)

Module ReconnectRuns.
Import Reconnect ReconnectFacts.

(** What [scheduleReconnection] leaves in either case. *)
Lemma scheduleReconnection_cases config rnd h :
  (maxAttempts config <= attempts (state h)
   /\ reconnectTimerRef (scheduleReconnection config rnd h) = None
   /\ attempts (state (scheduleReconnection config rnd h)) = attempts (state h))
  \/ (attempts (state h) < maxAttempts config
      /\ attempts (state (scheduleReconnection config rnd h))
         = attempts (state h) + 1
      /\ isReconnecting (state (scheduleReconnection config rnd h)) = true
      /\ maxAttemptsReached (state (scheduleReconnection config rnd h))
         = maxAttemptsReached (state h)
      /\ exists t, reconnectTimerRef (scheduleReconnection config rnd h) = Some t
                   /\ timer_delay t
                      = nextDelay (state (scheduleReconnection config rnd h))).
Proof.
  destruct (Z_lt_le_dec (attempts (state h)) (maxAttempts config)) as [Hlt | Hge].
  - right. rewrite (scheduleReconnection_below_limit config rnd h Hlt).
    cbn. repeat split; try assumption. eexists. split; reflexivity.
  - left. rewrite (scheduleReconnection_at_limit config rnd h Hge).
    cbn. repeat split; assumption.
Qed.

(** *** The attempts counter *)

Lemma step_keeps_attemptsInRange config h e :
  0 <= maxAttempts config ->
  attemptsInRange config h -> attemptsInRange config (fst (step config h e)).
Proof.
  unfold attemptsInRange. intros H0 Hh.
  destruct e as [rnd | | | failed rnd | failed rnd | elapsed | t | b]; cbn.
  - unfold startReconnection.
    match goal with |- context [scheduleReconnection _ _ ?x] => set (h0 := x) end.
    assert (E0 : attempts (state h0) = 0) by reflexivity.
    destruct (scheduleReconnection_cases config rnd h0)
      as [(_ & _ & E) | (Hlt & E & _)]; rewrite E; lia.
  - exact Hh.
  - lia.
  - unfold forceReconnect. destruct failed; cbn; [| lia].
    unfold startReconnection.
    match goal with |- context [scheduleReconnection _ _ ?x] => set (h0 := x) end.
    assert (E0 : attempts (state h0) = 0) by reflexivity.
    destruct (scheduleReconnection_cases config rnd h0)
      as [(_ & _ & E) | (Hlt & E & _)]; rewrite E; lia.
  - unfold reconnectTimerFired.
    destruct (reconnectTimerRef h) as [t |]; [| exact Hh].
    destruct failed; cbn; [| exact Hh].
    match goal with |- context [scheduleReconnection _ _ ?x] => set (h0 := x) end.
    assert (E0 : attempts (state h0) = attempts (state h)) by reflexivity.
    destruct (scheduleReconnection_cases config rnd h0)
      as [(_ & _ & E) | (Hlt & E & _)]; rewrite E; lia.
  - unfold countdownTick. destruct (countdownTimerRef h); [| exact Hh].
    destruct (Z.max 0 _ =? 0); exact Hh.
  - exact Hh.
  - unfold isConnectedEffect.
    destruct (b && negb (isConnectedRef h)); cbn; [lia | exact Hh].
Qed.

(** X1.  Whatever happens to a mounted hook, in whatever order, the
    attempts counter stays between zero and [maxAttempts]. *)
Theorem attempts_stay_within_limit config es : forall h,
  0 <= maxAttempts config ->
  attemptsInRange config h ->
  Forall (attemptsInRange config) (run config h es).
Proof.
  induction es as [| e es IH]; intros h H0 Hh; cbn; [constructor |].
  pose proof (step_keeps_attemptsInRange config h e H0 Hh) as H'.
  constructor; [exact H' | exact (IH _ H0 H')].
Qed.

Lemma attempts_stay_within_limit_witness :
  Forall (attemptsInRange (DEFAULT_CONFIG default_performance))
    (run (DEFAULT_CONFIG default_performance)
       (useReconnect_init (DEFAULT_CONFIG default_performance) websocket false)
       [EvStartReconnection 0; EvReconnectTimer true (1 # 2);
        EvStopReconnection; EvForceReconnect true 0; EvIsConnected true]).
Proof.
  apply attempts_stay_within_limit.
  - vm_compute. discriminate.
  - split; vm_compute; discriminate.
Defined.

(** *** A pending timer and the state *)





(** *** The attempts of one sequence *)





(** *** The countdown *)

Lemma Qceiling_nonpos_iff x : Qceiling x <= 0 <-> (x <= 0)%Q.
Proof.
  split; intro H.
  - pose proof (Qle_ceiling x) as Hc.
    assert (inject_Z (Qceiling x) <= inject_Z 0)%Q by (rewrite <- Zle_Qle; exact H).
    change (inject_Z 0) with 0%Q in *. lra.
  - pose proof (Qceiling_lt x) as Hc.
    assert (inject_Z (Qceiling x - 1) < inject_Z 0)%Q
      by (change (inject_Z 0) with 0%Q; lra).
    rewrite <- Zlt_Qlt in H0. lia.
Qed.

(** X4.  While the countdown interval of a delay [delayMs] runs, a tick
    [e1] milliseconds after its start shows the time left in whole
    seconds, rounded up and never negative: zero exactly when the delay
    has run out, at which point the interval is cleared; a later tick never
    shows more; and the pending reconnect timer is not touched. *)
Theorem countdown_shows_time_left delayMs e1 e2 h :
  countdownTimerRef h = Some delayMs ->
  let h1 := countdownTick e1 h in
  0 <= countdown (state h1)
  /\ (countdown (state h1) = 0 <-> (delayMs <= e1)%Q)
  /\ (delayMs - e1 <= 1000 * inject_Z (countdown (state h1)))%Q
  /\ ((e1 < delayMs)%Q ->
      (1000 * inject_Z (countdown (state h1) - 1) < delayMs - e1)%Q)
  /\ ((e1 <= e2)%Q ->
      countdown (state (countdownTick e2 h)) <= countdown (state h1))
  /\ (countdownTimerRef h1
      = if countdown (state h1) =? 0 then None else Some delayMs)
  /\ reconnectTimerRef h1 = reconnectTimerRef h.
Proof.
  intros Hc h1. subst h1. unfold countdownTick. rewrite Hc.
  set (c1 := Z.max 0 (Qceiling ((delayMs - e1) / 1000))).
  set (c2 := Z.max 0 (Qceiling ((delayMs - e2) / 1000))).
  assert (E1 : forall hh, countdown (state
              (if c1 =? 0 then set_countdownTimer None hh else hh))
              = countdown (state hh)) by (intro; destruct (c1 =? 0); reflexivity).
  assert (E2 : forall hh, countdown (state
              (if c2 =? 0 then set_countdownTimer None hh else hh))
              = countdown (state hh)) by (intro; destruct (c2 =? 0); reflexivity).
  rewrite E1, E2. cbn [countdown state setState].
  pose proof (Qle_ceiling ((delayMs - e1) / 1000)) as Hu1.
  pose proof (Qceiling_lt ((delayMs - e1) / 1000)) as Hl1.
  assert (Hdiv : forall x, (x / 1000 <= 0 <-> x <= 0)%Q).
  { intro x. split; intro Hx.
    - assert (x == x / 1000 * 1000)%Q by (field). lra.
    - assert (x / 1000 == x * (1 # 1000))%Q by (field). lra. }
  split; [subst c1; lia |].
  split.
  { subst c1.
    pose proof (Qceiling_nonpos_iff ((delayMs - e1) / 1000)) as Hn.
    split; intro H.
    - assert (Qceiling ((delayMs - e1) / 1000) <= 0) by lia.
      apply (proj1 Hn) in H0. apply (proj1 (Hdiv _)) in H0. lra.
    - assert ((delayMs - e1) / 1000 <= 0)%Q by (apply (proj2 (Hdiv _)); lra).
      apply (proj2 Hn) in H0. lia. }
  split.
  { assert (inject_Z (Qceiling ((delayMs - e1) / 1000)) <= inject_Z c1)%Q
      by (rewrite <- Zle_Qle; subst c1; lia).
    assert (delayMs - e1 == (delayMs - e1) / 1000 * 1000)%Q by field.
    lra. }
  split.
  { intro Hlt.
    assert (Hpos : 0 < Qceiling ((delayMs - e1) / 1000)).
    { destruct (Z_lt_le_dec 0 (Qceiling ((delayMs - e1) / 1000))) as [? | Hle];
        [assumption |].
      apply (proj1 (Qceiling_nonpos_iff _)) in Hle.
      apply (proj1 (Hdiv _)) in Hle. lra. }
    assert (Ec : c1 = Qceiling ((delayMs - e1) / 1000)) by (subst c1; lia).
    rewrite Ec.
    assert (delayMs - e1 == (delayMs - e1) / 1000 * 1000)%Q by field.
    lra. }
  split.
  { intro Hle. subst c1 c2.
    assert (Qceiling ((delayMs - e2) / 1000) <= Qceiling ((delayMs - e1) / 1000)).
    { apply Qceiling_resp_le.
      assert ((delayMs - e2) / 1000 == (delayMs - e2) * (1 # 1000))%Q by field.
      assert ((delayMs - e1) / 1000 == (delayMs - e1) * (1 # 1000))%Q by field.
      lra. }
    lia. }
  split; [destruct (c1 =? 0); [reflexivity | exact Hc] |].
  destruct (c1 =? 0); reflexivity.
Qed.

Lemma countdown_shows_time_left_witness :
  countdown (state (countdownTick 2500
    (startReconnection (DEFAULT_CONFIG default_performance) 0
       (useReconnect_init (DEFAULT_CONFIG default_performance)
          websocket false)))) = 0
  <-> (1000 <= 2500)%Q.
Proof.
  refine (proj1 (proj2 (countdown_shows_time_left 1000 2500 2500 _ _))).
  reflexivity.
Defined.

(** *** Backoff without jitter *)





End ReconnectRuns.
(** ** Properties of objects *)

Module ObjectFacts.
Import Text JSON.
Local Open Scope N_scope.

Lemma text_eqb_eq a : forall b, text_eqb a b = true <-> a = b.
Proof.
  induction a as [| x a IH]; intros [| y b]; cbn;
    try (split; [discriminate | discriminate]); [tauto |].
  rewrite andb_true_iff, N.eqb_eq, IH. split.
  - intros [-> ->]. reflexivity.
  - intro E. injection E as -> ->. split; reflexivity.
Qed.

Lemma text_eqb_refl a : text_eqb a a = true.
Proof. now apply text_eqb_eq. Qed.

Lemma text_eqb_sym a b : text_eqb a b = text_eqb b a.
Proof.
  destruct (text_eqb a b) eqn:E.
  - apply text_eqb_eq in E. subst. symmetry. apply text_eqb_refl.
  - destruct (text_eqb b a) eqn:E'; [| reflexivity].
    apply text_eqb_eq in E'. subst. now rewrite text_eqb_refl in E.
Qed.


Lemma hasKey_objGet k ms :
  hasKey k ms = match objGet k ms with Some _ => true | None => false end.
Proof.
  induction ms as [| [k' v] ms IH]; [reflexivity |]. cbn.
  destruct (text_eqb k k'); [reflexivity | exact IH].
Qed.

Lemma hasKey_In k ms : hasKey k ms = true <-> In k (map fst ms).
Proof.
  induction ms as [| [k' v] ms IH]; cbn; [split; [discriminate | tauto] |].
  rewrite orb_true_iff, IH, text_eqb_eq. intuition congruence.
Qed.

Lemma objGet_replaceValue_same k v ms :
  objGet k (replaceValue k v ms) = if hasKey k ms then Some v else None.
Proof.
  induction ms as [| [k' v'] ms IH]; [reflexivity |]. cbn.
  destruct (text_eqb k k') eqn:E; cbn; rewrite E; [reflexivity | exact IH].
Qed.

Lemma objGet_replaceValue_other k k' v ms :
  text_eqb k' k = false -> objGet k' (replaceValue k v ms) = objGet k' ms.
Proof.
  intro Hne. induction ms as [| [k0 v0] ms IH]; [reflexivity |]. cbn.
  destruct (text_eqb k k0) eqn:E; cbn.
  - apply text_eqb_eq in E. subst k0. now rewrite Hne.
  - destruct (text_eqb k' k0); [reflexivity | exact IH].
Qed.

Lemma objGet_insertIndex_same n k v ms :
  hasKey k ms = false -> objGet k (insertIndex n k v ms) = Some v.
Proof.
  induction ms as [| [k' v'] ms IH]; intro H; cbn.
  - now rewrite text_eqb_refl.
  - cbn in H. apply orb_false_iff in H as [Hk Hms].
    destruct (arrayIndex k') as [n' |].
    + destruct (n' <? n); cbn.
      * rewrite Hk. now apply IH.
      * now rewrite text_eqb_refl.
    + cbn. now rewrite text_eqb_refl.
Qed.

Lemma objGet_insertIndex_other n k k' v ms :
  text_eqb k' k = false -> objGet k' (insertIndex n k v ms) = objGet k' ms.
Proof.
  intro Hne. induction ms as [| [k0 v0] ms IH]; cbn.
  - now rewrite Hne.
  - destruct (arrayIndex k0) as [n' |].
    + destruct (n' <? n); cbn.
      * destruct (text_eqb k' k0); [reflexivity | exact IH].
      * now rewrite Hne.
    + cbn. now rewrite Hne.
Qed.

Lemma objGet_app k ms ms' :
  objGet k (ms ++ ms')
  = match objGet k ms with Some v => Some v | None => objGet k ms' end.
Proof.
  induction ms as [| [k' v] ms IH]; [reflexivity |]. cbn.
  destruct (text_eqb k k'); [reflexivity | exact IH].
Qed.

(** Reading a property that was just set gives the value set, and
    setting a property leaves every other one as it was. *)
Lemma objGet_objSet_same k v ms : objGet k (objSet k v ms) = Some v.
Proof.
  unfold objSet. destruct (hasKey k ms) eqn:H.
  - now rewrite objGet_replaceValue_same, H.
  - destruct (arrayIndex k) as [n |].
    + now apply objGet_insertIndex_same.
    + rewrite objGet_app. rewrite hasKey_objGet in H.
      destruct (objGet k ms); [discriminate |]. cbn. now rewrite text_eqb_refl.
Qed.

Lemma objGet_objSet_other k k' v ms :
  text_eqb k' k = false -> objGet k' (objSet k v ms) = objGet k' ms.
Proof.
  intro Hne. unfold objSet. destruct (hasKey k ms).
  - now apply objGet_replaceValue_other.
  - destruct (arrayIndex k) as [n |].
    + now apply objGet_insertIndex_other.
    + rewrite objGet_app. cbn. rewrite Hne. now destruct (objGet k' ms).
Qed.

(** *** Array indices *)









(** *** The order of the properties *)














End ObjectFacts.

(** ** What [JSON.parse] returns *)

Module ParseFacts.
Import Text JSON JSONFacts ObjectFacts.
Local Open Scope N_scope.

(** *** A number read is a number lexeme *)






(** *** Code units *)







(** *** The value *)






(** *** The ends of a JSON text *)




End ParseFacts.

(** ** Input sanitizing and validation *)

Module SecurityFacts.
Import Text JSON JSONFacts ObjectFacts ParseFacts Security SendFacts.
Local Open Scope N_scope.

(** *** [trim] and [sanitizeInput] *)

Lemma dropWhile_split f s :
  exists p, s = p ++ dropWhile f s /\ forallb f p = true.
Proof.
  induction s as [| c s [p [E Hp]]]; [exists []; split; reflexivity |].
  cbn. destruct (f c) eqn:Hc.
  - exists (c :: p). cbn. rewrite Hc, Hp. split; [now rewrite <- E | reflexivity].
  - exists []. split; reflexivity.
Qed.

Lemma dropWhile_head f s c r : dropWhile f s = c :: r -> f c = false.
Proof.
  induction s as [| x s IH]; [discriminate |]. cbn.
  destruct (f x) eqn:Hx; [exact IH |]. intro E. now injection E as -> _.
Qed.

Lemma dropWhile_fixed f s :
  (forall c r, s = c :: r -> f c = false) -> dropWhile f s = s.
Proof.
  destruct s as [| c r]; [reflexivity |]. intro H. cbn.
  now rewrite (H c r eq_refl).
Qed.

(** [trim s] is [s] without a run of white space at either end. *)
Lemma trim_split s :
  exists p q, s = p ++ trim s ++ q
              /\ forallb isTrimWhitespace p = true
              /\ forallb isTrimWhitespace q = true.
Proof.
  unfold trim.
  destruct (dropWhile_split isTrimWhitespace s) as [p [Ep Hp]].
  destruct (dropWhile_split isTrimWhitespace
              (rev (dropWhile isTrimWhitespace s))) as [q [Eq Hq]].
  exists p, (rev q). repeat split.
  - rewrite Ep at 1. f_equal.
    rewrite <- (rev_involutive (dropWhile isTrimWhitespace s)) at 1.
    rewrite Eq at 1. now rewrite rev_app_distr.
  - exact Hp.
  - rewrite forallb_forall in *. intros x Hx. apply Hq. now apply in_rev.
Qed.

Lemma trim_first s c r : trim s = c :: r -> isTrimWhitespace c = false.
Proof.
  unfold trim. intro E.
  destruct (dropWhile_split isTrimWhitespace
              (rev (dropWhile isTrimWhitespace s))) as [q [Eq Hq]].
  set (a := dropWhile isTrimWhitespace s) in *.
  set (b := dropWhile isTrimWhitespace (rev a)) in *.
  assert (Ea : a = rev b ++ rev q).
  { rewrite <- (rev_involutive a). rewrite Eq. now rewrite rev_app_distr. }
  rewrite E in Ea. cbn in Ea.
  exact (dropWhile_head isTrimWhitespace s c _ Ea).
Qed.

Lemma trim_last s c r : trim s = r ++ [c] -> isTrimWhitespace c = false.
Proof.
  unfold trim. intro E.
  apply (f_equal (@rev N)) in E. rewrite rev_involutive, rev_app_distr in E.
  cbn in E. exact (dropWhile_head _ _ _ _ E).
Qed.

Lemma trim_trim s : trim (trim s) = trim s.
Proof.
  destruct (trim s) as [| c r] eqn:E; [reflexivity |].
  destruct (@exists_last _ (c :: r) ltac:(discriminate)) as [body [d Ed]].
  pose proof (trim_first s c r E) as Hc.
  rewrite Ed in E. pose proof (trim_last s d body E) as Hd.
  rewrite Ed. unfold trim.
  rewrite (dropWhile_fixed isTrimWhitespace (body ++ [d])).
  - rewrite rev_app_distr. cbn [rev app dropWhile]. rewrite Hd.
    change (d :: rev body) with (rev [d] ++ rev body).
    now rewrite <- rev_app_distr, rev_involutive.
  - intros x r' Ex. rewrite <- Ed in Ex. injection Ex as <- _. exact Hc.
Qed.

Lemma trim_incl s x : In x (trim s) -> In x s.
Proof.
  destruct (trim_split s) as [p [q [E _]]]. intro H.
  rewrite E. apply in_or_app. right. apply in_or_app. now left.
Qed.

Lemma length_trim s : (List.length (trim s) <= List.length s)%nat.
Proof.
  destruct (trim_split s) as [p [q [E _]]].
  rewrite E at 2. rewrite !length_app. lia.
Qed.

Lemma filter_fixed {A} (f : A -> bool) l :
  (forall x, In x l -> f x = true) -> filter f l = l.
Proof.
  induction l as [| x l IH]; [reflexivity |]. intro H. cbn.
  rewrite (H x (or_introl eq_refl)). f_equal. apply IH.
  intros y Hy. apply H. now right.
Qed.


(** X6.  What [sanitizeInput] returns holds no null character, neither
    begins nor ends with white space, is no longer than the input and is
    left unchanged by a second pass; and a null character anywhere in the
    input makes no difference to the result. *)
Theorem sanitizeInput_normal_form s :
  let r := sanitizeInput s in
  ~ In 0 r
  /\ (forall c r', r = c :: r' -> isTrimWhitespace c = false)
  /\ (forall c r', r = r' ++ [c] -> isTrimWhitespace c = false)
  /\ (List.length r <= List.length s)%nat
  /\ sanitizeInput r = r
  /\ forall a b, sanitizeInput (a ++ 0 :: b) = sanitizeInput (a ++ b).
Proof.
  intro r. subst r. unfold sanitizeInput.
  set (g := fun c => negb (c =? 0)).
  assert (Hno : forall x, In x (trim (filter g s)) -> g x = true).
  { intros x Hx. apply trim_incl in Hx. apply filter_In in Hx. apply Hx. }
  split.
  { intro H0. specialize (Hno 0 H0). discriminate Hno. }
  split; [intros c r'; apply trim_first |].
  split; [intros c r'; apply trim_last |].
  split.
  { pose proof (length_trim (filter g s)).
    pose proof (filter_length_le g s). lia. }
  split.
  { rewrite (filter_fixed g _ Hno). apply trim_trim. }
  intros a b. now rewrite !filter_app.
Qed.

(** *** [escapeHtml] *)

Lemma escapeChar_cases c :
  (isHtmlSpecial c = false /\ escapeChar c = [c])
  \/ (c = 38 /\ escapeChar c = lit "&amp;")
  \/ (c = 60 /\ escapeChar c = lit "&lt;")
  \/ (c = 62 /\ escapeChar c = lit "&gt;")
  \/ (c = 34 /\ escapeChar c = lit "&quot;")
  \/ (c = 39 /\ escapeChar c = lit "&#x27;")
  \/ (c = 47 /\ escapeChar c = lit "&#x2F;").
Proof.
  unfold escapeChar, htmlEscapeMap, isHtmlSpecial.
  destruct (N.eqb_spec c 38) as [-> | H1]; [right; left; split; reflexivity |].
  destruct (N.eqb_spec c 60) as [-> | H2];
    [right; right; left; split; reflexivity |].
  destruct (N.eqb_spec c 62) as [-> | H3];
    [right; right; right; left; split; reflexivity |].
  destruct (N.eqb_spec c 34) as [-> | H4];
    [right; right; right; right; left; split; reflexivity |].
  destruct (N.eqb_spec c 39) as [-> | H5];
    [right; right; right; right; right; left; split; reflexivity |].
  destruct (N.eqb_spec c 47) as [-> | H6];
    [right; right; right; right; right; right; split; reflexivity |].
  left. split; reflexivity.
Qed.

Lemma escapeHtml_cons c s : escapeHtml (c :: s) = escapeChar c ++ escapeHtml s.
Proof. reflexivity. Qed.

Lemma escapeChar_markup c : forallb (fun x => negb (isMarkup x)) (escapeChar c) = true.
Proof.
  destruct (escapeChar_cases c)
    as [[H E] | [[-> E] | [[-> E] | [[-> E] | [[-> E] | [[-> E] | [-> E]]]]]]];
    rewrite E; try reflexivity.
  cbn. rewrite andb_true_r. unfold isHtmlSpecial in H. unfold isMarkup.
  apply negb_true_iff.
  destruct (c =? 38); [discriminate |]. exact H.
Qed.

(** X7.  The text [escapeHtml] returns holds no angle bracket, no quote
    and no slash; it is at least as long as the input, and it is the
    input itself exactly when the input holds no character of the
    class. *)
Theorem escapeHtml_leaves_no_markup s :
  forallb (fun c => negb (isMarkup c)) (escapeHtml s) = true
  /\ (List.length s <= List.length (escapeHtml s))%nat
  /\ (escapeHtml s = s <-> forallb (fun c => negb (isHtmlSpecial c)) s = true).
Proof.
  split; [| split].
  - induction s as [| c s IH]; [reflexivity |].
    rewrite escapeHtml_cons, forallb_app, IH, escapeChar_markup. reflexivity.
  - induction s as [| c s IH]; [cbn; lia |].
    rewrite escapeHtml_cons, length_app. cbn [List.length].
    destruct (escapeChar_cases c)
      as [[H E] | [[-> E] | [[-> E] | [[-> E] | [[-> E] | [[-> E] | [-> E]]]]]]];
      rewrite E; cbn; lia.
  - induction s as [| c s IH]; [split; reflexivity |].
    rewrite escapeHtml_cons. cbn [forallb].
    destruct (escapeChar_cases c)
      as [[H E] | [[-> E] | [[-> E] | [[-> E] | [[-> E] | [[-> E] | [-> E]]]]]]];
      rewrite E.
    + rewrite H. cbn. split.
      * intro Eq. injection Eq as Eq. now apply IH.
      * intro Hs. f_equal. now apply IH.
    + split; [intro Eq; cbn in Eq; injection Eq as Eq | discriminate].
      exfalso. apply (f_equal (@List.length N)) in Eq.
      assert (Hl : (List.length s <= List.length (escapeHtml s))%nat)
        by (clear; induction s as [| c s IH]; [cbn; lia |];
            rewrite escapeHtml_cons, length_app; cbn [List.length];
            destruct (escapeChar_cases c)
              as [[H E] | [[-> E] | [[-> E] | [[-> E] | [[-> E] | [[-> E] | [-> E]]]]]]];
            rewrite E; cbn; lia).
      cbn in Eq. lia.
    + split; [intro Eq; discriminate Eq | discriminate].
    + split; [intro Eq; discriminate Eq | discriminate].
    + split; [intro Eq; discriminate Eq | discriminate].
    + split; [intro Eq; discriminate Eq | discriminate].
    + split; [intro Eq; discriminate Eq | discriminate].
Qed.

Lemma escapeHtml_nil s : escapeHtml s = [] -> s = [].
Proof.
  destruct s as [| c s]; [reflexivity |]. rewrite escapeHtml_cons.
  destruct (escapeChar_cases c)
    as [[H E] | [[-> E] | [[-> E] | [[-> E] | [[-> E] | [[-> E] | [-> E]]]]]]];
    rewrite E; discriminate.
Qed.

(** X8.  [escapeHtml] loses nothing: two texts with the same escaped
    text are the same text. *)
Theorem escapeHtml_injective a : forall b,
  escapeHtml a = escapeHtml b -> a = b.
Proof.
  induction a as [| c a IH]; intros b H.
  - symmetry. apply escapeHtml_nil. now rewrite <- H.
  - destruct b as [| d b];
      [apply escapeHtml_nil in H; discriminate H |].
    rewrite !escapeHtml_cons in H.
    destruct (escapeChar_cases c)
      as [[Hc Ec] | [[-> Ec] | [[-> Ec] | [[-> Ec] | [[-> Ec] | [[-> Ec] | [-> Ec]]]]]]];
    destruct (escapeChar_cases d)
      as [[Hd Ed] | [[-> Ed] | [[-> Ed] | [[-> Ed] | [[-> Ed] | [[-> Ed] | [-> Ed]]]]]]];
    rewrite ?Ec, ?Ed in H; cbn in H;
      try discriminate H;
      try (injection H as H; f_equal; apply IH; exact H);
      try (injection H as -> H; try discriminate Hc; try discriminate Hd;
           f_equal; apply IH; exact H);
      try (injection H as <- H; discriminate Hd).
Qed.

Lemma escapeHtml_injective_witness :
  lit "a<b" = lit "a<b".
Proof.
  apply escapeHtml_injective. reflexivity.
Defined.

(** *** [validateSessionConfig] *)

Lemma spanDigits_all s : forallb isDigit s = true -> spanDigits s = (s, []).
Proof.
  induction s as [| c s IH]; [reflexivity |]. cbn.
  intro H. apply andb_true_iff in H as [Hc Hs]. rewrite Hc, (IH Hs).
  reflexivity.
Qed.

Lemma digitsValue_acc s : forall acc,
  forallb isDigit s = true ->
  (0 <? fold_left (fun a c => a * 10 + (c - 48)) s acc)
  = (0 <? acc) || existsb (fun c => negb (c =? 48)) s.
Proof.
  induction s as [| c s IH]; intros acc H; cbn.
  - now rewrite orb_false_r.
  - apply andb_true_iff in H as [Hc Hs]. rewrite (IH _ Hs).
    unfold isDigit in Hc. apply andb_true_iff in Hc as [H1 H2].
    apply N.leb_le in H1, H2.
    apply eq_true_iff_eq.
    rewrite !orb_true_iff, negb_true_iff, N.eqb_neq, !N.ltb_lt.
    assert (0 < acc * 10 + (c - 48) <-> 0 < acc \/ c <> 48) by lia.
    tauto.
Qed.

Lemma isDigit_not_space c : isDigit c = true -> isTrimWhitespace c = false.
Proof.
  unfold isDigit, isTrimWhitespace. intro H.
  apply andb_true_iff in H as [H1 H2]. apply N.leb_le in H1, H2.
  repeat match goal with
         | |- context [?a =? ?b] =>
             destruct (N.eqb_spec a b); [lia |]
         end.
  cbn. destruct (N.leb_spec 8192 c); [lia | reflexivity].
Qed.

Lemma practiceIdPasses_iff p : practiceIdPasses p = isPositiveNumeral p.
Proof.
  unfold practiceIdPasses, isPositiveNumeral.
  destruct p as [| c r]; [reflexivity |]. cbn [isEmpty negb andb].
  unfold isIntegerText.
  destruct (N.eqb_spec c 45) as [-> | Hc].
  - (* a minus sign *)
    cbn [forallb]. change (isDigit 45) with false. cbn [andb].
    destruct r as [| d r]; [reflexivity |].
    destruct (forallb isDigit (d :: r)) eqn:Hd; [| reflexivity].
    unfold parseInt10. cbn [dropWhile]. change (isTrimWhitespace 45) with false.
    cbn iota. change (45 =? 45) with true. cbn iota.
    rewrite (spanDigits_all _ Hd). cbn [fst].
    cbn [andb negb]. apply negb_false_iff. apply Z.leb_le. lia.
  - destruct (forallb isDigit (c :: r)) eqn:Hd; [| reflexivity].
    cbn [andb].
    assert (Hdc : isDigit c = true) by (cbn in Hd; now apply andb_true_iff in Hd).
    unfold parseInt10. cbn [dropWhile]. rewrite (isDigit_not_space c Hdc).
    apply N.eqb_neq in Hc. rewrite Hc.
    assert (H43 : (c =? 43) = false).
    { unfold isDigit in Hdc. apply andb_true_iff in Hdc as [H1 _].
      apply N.leb_le in H1. apply N.eqb_neq. lia. }
    rewrite H43. rewrite (spanDigits_all _ Hd). cbn [fst].
    pose proof (digitsValue_acc (c :: r) 0 Hd) as Hv.
    fold (digitsValue (c :: r)) in Hv. cbn [N.ltb orb] in Hv.
    change (0 <? 0) with false in Hv. cbn [orb] in Hv.
    rewrite <- Hv.
    destruct (N.ltb_spec 0 (digitsValue (c :: r)));
      [apply negb_true_iff, Z.leb_gt | apply negb_false_iff, Z.leb_le]; lia.
Qed.

Lemma validateSessionConfig_passes config :
  isValid (validateSessionConfig config)
  = practiceIdPasses (sanitizeInput (ConfigInput.practiceId config))
    && lengthPasses 255 (sanitizeInput (ConfigInput.conversationId config))
    && optionalPasses 255 (ConfigInput.patientId config)
    && lengthPasses 100 (sanitizeInput (ConfigInput.timezone config))
    && optionalPasses 1000 (ConfigInput.authToken config).
Proof.
  unfold validateSessionConfig, practiceIdPasses, lengthPasses, optionalPasses.
  set (p := sanitizeInput (ConfigInput.practiceId config)).
  set (cv := sanitizeInput (ConfigInput.conversationId config)).
  set (tz := sanitizeInput (ConfigInput.timezone config)).
  destruct (isEmpty p); cbn [negb andb app isValid];
    [| destruct (isIntegerText p); cbn [negb andb app];
       [destruct (match parseInt10 p with Some n => (n <=? 0)%Z | None => false end);
        cbn [negb andb app] |]];
  (destruct (isEmpty cv); cbn [negb andb app];
    [| destruct (longerThan 255 cv); cbn [negb andb app]]);
  (destruct (ConfigInput.patientId config) as [[| c1 r1] |];
    [| destruct (longerThan 255 (sanitizeInput (c1 :: r1))) |];
    cbn [negb andb app]);
  (destruct (isEmpty tz); cbn [negb andb app];
    [| destruct (longerThan 100 tz); cbn [negb andb app]]);
  (destruct (ConfigInput.authToken config) as [[| c2 r2] |];
    [| destruct (longerThan 1000 (sanitizeInput (c2 :: r2))) |];
    cbn [negb andb app]);
  reflexivity.
Qed.

Lemma lengthPasses_iff limit s :
  lengthPasses limit s = true
  <-> (1 <= List.length s <= limit)%nat.
Proof.
  unfold lengthPasses, longerThan. destruct s as [| c r]; cbn [isEmpty negb andb].
  - cbn. split; [discriminate | lia].
  - rewrite negb_true_iff, Nat.ltb_ge. cbn [List.length]. lia.
Qed.

Lemma optionalPasses_iff limit field :
  optionalPasses limit field = true
  <-> forall s, field = Some s -> (List.length (sanitizeInput s) <= limit)%nat.
Proof.
  unfold optionalPasses, longerThan.
  destruct field as [[| c r] |].
  - split; [| reflexivity]. intros _ s E. injection E as E. subst s. cbn. lia.
  - rewrite negb_true_iff, Nat.ltb_ge. split.
    + intros H s E. injection E as E. now subst s.
    + intro H. now apply H.
  - split; [| reflexivity]. intros _ s E. discriminate E.
Qed.

(** X9.  [validateSessionConfig] accepts a configuration exactly when,
    after [sanitizeInput], the practice identifier is the decimal numeral
    of a positive integer (digits only, not all of them zero), the
    conversation identifier has 1 to 255 characters, the time zone has 1
    to 100, and the patient identifier and the token, where given, have
    at most 255 and at most 1000. *)
Theorem validateSessionConfig_accepts_iff config :
  isValid (validateSessionConfig config) = true
  <-> isPositiveNumeral (sanitizeInput (ConfigInput.practiceId config)) = true
      /\ (1 <= List.length (sanitizeInput (ConfigInput.conversationId config))
          <= 255)%nat
      /\ (1 <= List.length (sanitizeInput (ConfigInput.timezone config))
          <= 100)%nat
      /\ (forall p, ConfigInput.patientId config = Some p ->
            (List.length (sanitizeInput p) <= 255)%nat)
      /\ (forall t, ConfigInput.authToken config = Some t ->
            (List.length (sanitizeInput t) <= 1000)%nat).
Proof.
  rewrite validateSessionConfig_passes, !andb_true_iff.
  rewrite practiceIdPasses_iff, !lengthPasses_iff, !optionalPasses_iff.
  tauto.
Qed.

(** *** [sanitizeJsonInput] *)









(** X11.  A string of nothing but white space and null characters, the
    empty string among them, is rejected by [sanitizeJsonInput] with the
    error [Invalid JSON format]. *)
Theorem sanitizeJsonInput_rejects_blank input :
  forallb (fun c => (c =? 0) || isTrimWhitespace c) input = true ->
  sanitizeJsonInput input = Throw (lit "Invalid JSON format").
Proof.
  intro H.
  assert (E : sanitizeInput input = []).
  { unfold sanitizeInput, trim.
    assert (Hd : dropWhile isTrimWhitespace
                   (filter (fun c => negb (c =? 0)) input) = []).
    { induction input as [| c s IH]; [reflexivity |]. cbn in H |- *.
      apply andb_true_iff in H as [Hc Hs].
      destruct (c =? 0) eqn:E0; cbn [negb]; [now apply IH |].
      cbn [dropWhile]. cbn in Hc. rewrite Hc. now apply IH. }
    now rewrite Hd. }
  unfold sanitizeJsonInput. now rewrite E.
Qed.

Lemma sanitizeJsonInput_rejects_blank_witness :
  sanitizeJsonInput [32; 0; 10] = Throw (lit "Invalid JSON format").
Proof.
  apply sanitizeJsonInput_rejects_blank. reflexivity.
Defined.

End SecurityFacts.

(** ** The session form *)

Module SessionControllerFacts.
Import Text JSON JSONFacts Security SecurityFacts SessionController.
Local Open Scope N_scope.



End SessionControllerFacts.

(** ** Masking for the log *)

Module LoggingFacts.
Import Text JSON JSONFacts ObjectFacts Security Transports Logging.
Local Open Scope N_scope.

(** *** The pattern *)

Lemma isWordOrDash_not_space c :
  isWordOrDash c = true -> isTrimWhitespace c = false.
Proof.
  intro H. destruct (isTrimWhitespace c) eqn:Hw; [exfalso | reflexivity].
  unfold isWordOrDash in H. unfold isTrimWhitespace in Hw.
  repeat (apply orb_true_iff in H as [H | H]);
    repeat (apply andb_true_iff in H as [? H]);
    repeat (apply orb_true_iff in Hw as [Hw | Hw]);
    repeat (apply andb_true_iff in Hw as [? Hw]);
    repeat match goal with
           | X : (_ <=? _) = true |- _ => apply N.leb_le in X
           | X : (_ =? _) = true |- _ => apply N.eqb_eq in X
           end; lia.
Qed.

Lemma acceptsValue_dropWhile r :
  acceptsValue r
  = match dropWhile isTrimWhitespace r with
    | d :: _ => isWordOrDash d
    | [] => false
    end.
Proof.
  induction r as [| c r IH]; [reflexivity |]. cbn.
  destruct (isWordOrDash c) eqn:Hw.
  - rewrite (isWordOrDash_not_space c Hw). now rewrite Hw.
  - destruct (isTrimWhitespace c); [exact IH | now rewrite Hw].
Qed.

Lemma matchLiteral_acceptsFrom pat : forall s,
  acceptsFrom pat s
  = match matchLiteral true pat s with
    | Some (c :: r) => ((c =? 61) || (c =? 58)) && acceptsValue r
    | _ => false
    end.
Proof.
  induction pat as [| p pat IH]; intro s.
  - destruct s; reflexivity.
  - destruct s as [| c s]; [reflexivity |]. cbn [acceptsFrom matchLiteral].
    destruct (charMatches true p c); [apply IH | reflexivity].
Qed.

Lemma matchTokenValue_None s :
  matchTokenValue s = None <-> acceptsFrom (lit "token") s = false.
Proof.
  rewrite matchLiteral_acceptsFrom. unfold matchTokenValue.
  destruct (matchLiteral true (lit "token") s) as [[| c r] |];
    [tauto | | tauto].
  rewrite acceptsValue_dropWhile.
  destruct ((c =? 61) || (c =? 58)); [| tauto]. cbn [andb].
  destruct (dropWhile isTrimWhitespace r) as [| d r1]; [tauto |].
  destruct (isWordOrDash d); split; congruence.
Qed.

Lemma length_matchTokenValue s rest :
  matchTokenValue s = Some rest -> (List.length rest < List.length s)%nat.
Proof.
  unfold matchTokenValue.
  destruct (matchLiteral true (lit "token") s) as [[| c r] |] eqn:E;
    try discriminate.
  pose proof (length_matchLiteral true (lit "token") s _ E) as Hl.
  change (List.length (lit "token")) with 5%nat in Hl.
  destruct ((c =? 61) || (c =? 58)); [| discriminate].
  destruct (dropWhile isTrimWhitespace r) as [| d r1] eqn:Ed; [discriminate |].
  destruct (isWordOrDash d) eqn:Hd; [| discriminate].
  intro H. injection H as <-.
  pose proof (length_dropWhile isWordOrDash (d :: r1)) as H1.
  pose proof (length_dropWhile isTrimWhitespace r) as H2. rewrite Ed in H2.
  cbn [List.length dropWhile] in *. rewrite Hd in *. lia.
Qed.

Lemma matchTokenValue_first s rest :
  matchTokenValue s = Some rest ->
  exists c s', s = c :: s' /\ isWordOrDash c = true
               /\ charMatches true 116 c = true.
Proof.
  unfold matchTokenValue. destruct s as [| c s']; [discriminate |].
  cbn [matchLiteral lit map list_ascii_of_string].
  change (N_of_ascii "t") with 116.
  destruct (charMatches true 116 c) eqn:Hc; [| discriminate].
  intros _. exists c, s'. repeat split; [| exact Hc].
  unfold charMatches, canonicalize in Hc.
  change ((97 <=? 116) && (116 <=? 122)) with true in Hc. cbn iota in Hc.
  change (116 - 32) with 84 in Hc.
  unfold isWordOrDash.
  destruct ((97 <=? c) && (c <=? 122)) eqn:Hr.
  - rewrite orb_true_r. reflexivity.
  - apply N.eqb_eq in Hc. subst c. reflexivity.
Qed.

(** *** The replacement *)

Lemma replaceTokenValues_fuel f1 : forall f2 s,
  (List.length s <= f1)%nat -> (List.length s <= f2)%nat ->
  replaceTokenValues f1 s = replaceTokenValues f2 s.
Proof.
  induction f1 as [| f1 IH]; intros f2 s H1 H2.
  - destruct s; [| cbn in H1; lia]. destruct f2; reflexivity.
  - destruct s as [| c s']; [destruct f2; reflexivity |].
    destruct f2 as [| f2]; [cbn in H2; lia |].
    cbn [replaceTokenValues].
    destruct (matchTokenValue (c :: s')) as [rest |] eqn:E.
    + apply length_matchTokenValue in E. cbn [List.length] in *.
      f_equal. apply IH; lia.
    + f_equal. cbn [List.length] in *. apply IH; lia.
Qed.

Lemma maskTokenValues_cons c s' :
  maskTokenValues (c :: s')
  = match matchTokenValue (c :: s') with
    | Some rest => lit "token=***" ++ maskTokenValues rest
    | None => c :: maskTokenValues s'
    end.
Proof.
  unfold maskTokenValues. cbn [List.length replaceTokenValues].
  destruct (matchTokenValue (c :: s')) as [rest |] eqn:E.
  - apply length_matchTokenValue in E. cbn [List.length] in E.
    f_equal. apply replaceTokenValues_fuel; lia.
  - reflexivity.
Qed.

Lemma reading_on_survives n : forall s,
  (List.length s <= n)%nat ->
  (acceptsValue s = false -> acceptsValue (maskTokenValues s) = false)
  /\ (forall pat, notFirstLetter pat = true ->
        acceptsFrom pat s = false ->
        acceptsFrom pat (maskTokenValues s) = false).
Proof.
  induction n as [| n IH]; intros s Hn.
  - destruct s; [| cbn in Hn; lia]. split; [auto |].
    intros pat _ H. exact H.
  - destruct s as [| c s']; [split; [auto | intros pat _ H; exact H] |].
    cbn [List.length] in Hn.
    destruct (IH s' ltac:(lia)) as [IHv IHp].
    rewrite maskTokenValues_cons.
    destruct (matchTokenValue (c :: s')) as [rest |] eqn:E.
    + destruct (matchTokenValue_first _ _ E) as (c0 & s0 & Es & Hw & Ht).
      injection Es as <- <-.
      split.
      * cbn [acceptsValue]. rewrite Hw. discriminate.
      * intros pat Hpat _. destruct pat as [| p pat']; [reflexivity |].
        unfold notFirstLetter in Hpat. cbn [forallb] in Hpat.
        apply andb_true_iff in Hpat as [Hp _].
        apply negb_true_iff in Hp.
        change (lit "token=***") with (116 :: lit "oken=***").
        cbn [acceptsFrom app]. now rewrite Hp.
    + split.
      * cbn [acceptsValue]. destruct (isWordOrDash c); [discriminate |].
        destruct (isTrimWhitespace c); [exact IHv | reflexivity].
      * intros pat Hpat H. destruct pat as [| p pat'].
        -- cbn [acceptsFrom] in *.
           destruct ((c =? 61) || (c =? 58)); [| reflexivity].
           cbn [andb] in *. now apply IHv.
        -- cbn [acceptsFrom] in *.
           destruct (charMatches true p c); [| reflexivity].
           cbn [andb] in *. unfold notFirstLetter in Hpat.
           cbn [forallb] in Hpat.
           apply andb_true_iff in Hpat as [_ Hpat]. now apply IHp.
Qed.

Lemma no_match_after_masking_tail c s' :
  matchTokenValue (c :: s') = None ->
  matchTokenValue (c :: maskTokenValues s') = None.
Proof.
  rewrite !matchTokenValue_None.
  change (lit "token") with (116 :: lit "oken").
  cbn [acceptsFrom].
  destruct (charMatches true 116 c); [| reflexivity].
  cbn [andb].
  apply (proj2 (reading_on_survives (List.length s') s' (le_n _))).
  reflexivity.
Qed.

Lemma hasTokenValue_masked n : forall s,
  (List.length s <= n)%nat -> hasTokenValue (maskTokenValues s) = false.
Proof.
  induction n as [| n IH]; intros s Hn.
  - destruct s; [reflexivity | cbn in Hn; lia].
  - destruct s as [| c s']; [reflexivity |].
    cbn [List.length] in Hn. rewrite maskTokenValues_cons.
    destruct (matchTokenValue (c :: s')) as [rest |] eqn:E.
    + pose proof (length_matchTokenValue _ _ E) as Hl.
      cbn [List.length] in Hl.
      change (hasTokenValue (lit "token=***" ++ maskTokenValues rest))
        with (hasTokenValue (maskTokenValues rest)).
      apply IH. lia.
    + cbn [hasTokenValue]. rewrite (no_match_after_masking_tail c s' E).
      apply IH. lia.
Qed.

Lemma maskTokenValues_fixed s :
  hasTokenValue s = false -> maskTokenValues s = s.
Proof.
  induction s as [| c s' IH]; [reflexivity |]. intro H.
  rewrite maskTokenValues_cons. cbn [hasTokenValue] in H.
  destruct (matchTokenValue (c :: s')); [discriminate |].
  f_equal. now apply IH.
Qed.

(** X13.  In the text [sanitizeErrorForLogging] returns for a string, the
    pattern [token], [=] or [:], white space, value matches nowhere any
    more: every such value has become [***].  A string in which the
    pattern matches nowhere is returned as it is, and so is every result
    when it is sanitized again. *)
Theorem sanitizeErrorForLogging_masks_token_values str :
  exists out,
    sanitizeErrorForLogging (PlainValue (JStr str)) = LoggedValue (JStr out)
    /\ hasTokenValue out = false
    /\ (hasTokenValue str = false -> out = str)
    /\ sanitizeErrorForLogging (PlainValue (JStr out))
       = LoggedValue (JStr out).
Proof.
  exists (maskTokenValues str).
  pose proof (hasTokenValue_masked _ str (le_n _)) as Hm.
  split; [reflexivity |]. split; [exact Hm |].
  split; [apply maskTokenValues_fixed |].
  cbn. now rewrite (maskTokenValues_fixed _ Hm).
Qed.

(** *** The stack of an error *)

Lemma firstLines_prefix n : forall s, exists rest, s = firstLines n s ++ rest.
Proof.
  intros s. revert n. induction s as [| c s IH]; intro n; [exists []; reflexivity |].
  cbn [firstLines]. destruct (c =? 10).
  - destruct n as [| [| n']]; try (eexists; reflexivity).
    destruct (IH (S n')) as [rest E]. exists rest. cbn. now rewrite <- E.
  - destruct n as [| n']; [eexists; reflexivity |].
    destruct (IH (S n')) as [rest E]. exists rest. cbn. now rewrite <- E.
Qed.

Lemma firstLines_breaks n : forall s,
  (count_occ N.eq_dec (firstLines (S n) s) 10%N <= n)%nat.
Proof.
  intros s. revert n. induction s as [| c s IH]; intro n; [cbn; lia |].
  cbn [firstLines]. destruct (N.eqb_spec c 10) as [-> | Hne].
  - destruct n as [| n']; [cbn; lia |].
    rewrite count_occ_cons_eq by reflexivity. specialize (IH n'). lia.
  - rewrite count_occ_cons_neq by exact Hne. apply IH.
Qed.

Lemma firstLines_all n : forall s,
  (count_occ N.eq_dec s 10%N <= n)%nat -> firstLines (S n) s = s.
Proof.
  intros s. revert n. induction s as [| c s IH]; intros n H; [reflexivity |].
  cbn [firstLines]. destruct (N.eqb_spec c 10) as [-> | Hne].
  - rewrite count_occ_cons_eq in H by reflexivity.
    destruct n as [| n']; [lia |]. f_equal. apply IH. lia.
  - rewrite count_occ_cons_neq in H by exact Hne. f_equal. now apply IH.
Qed.

(** X14.  Of an instance of [Error], [sanitizeErrorForLogging] keeps the
    name, masks the token values of the message, and cuts the stack after
    its third line: what it returns as the stack is a prefix of the stack
    with at most two line breaks, and is the whole stack when that has no
    more than two. *)
Theorem sanitizeErrorForLogging_error_instance message name stack :
  exists message' cut,
    sanitizeErrorForLogging (ErrorInstance message name (Some stack))
    = LoggedInstance message' name (Some cut)
    /\ hasTokenValue message' = false
    /\ (exists rest, stack = cut ++ rest)
    /\ (count_occ N.eq_dec cut 10%N <= 2)%nat
    /\ ((count_occ N.eq_dec stack 10%N <= 2)%nat -> cut = stack).
Proof.
  exists (maskTokenValues message), (firstLines 3 stack).
  split; [reflexivity |].
  split; [apply (hasTokenValue_masked _ message (le_n _)) |].
  split; [apply firstLines_prefix |].
  split; [apply firstLines_breaks | apply firstLines_all].
Qed.

(** *** The keys of an object *)

Lemma text_eqb_isSensitiveKey k k' :
  text_eqb k k' = true -> isSensitiveKey k = isSensitiveKey k'.
Proof. intro E. apply text_eqb_eq in E. now subst. Qed.

Lemma sanitizeMembers_fold members : forall acc k,
  NoDup (map fst members) ->
  objGet k (fold_left sanitizeStep members acc)
  = match maskedProperty k members with
    | Some v => Some v
    | None => objGet k acc
    end.
Proof.
  induction members as [| [k0 v0] ms IH]; intros acc k Hnd.
  - unfold maskedProperty. cbn [fold_left hasKey objGet].
    destruct (text_eqb k (lit "__proto__")); [reflexivity |].
    destruct (isSensitiveKey k); reflexivity.
  - cbn [map fst] in Hnd. apply NoDup_cons_iff in Hnd as [Hnotin Hnd].
    cbn [fold_left]. rewrite (IH _ k Hnd).
    unfold sanitizeStep. cbn [fst snd].
    assert (Hk0 : hasKey k0 ms = false).
    { destruct (hasKey k0 ms) eqn:E; [| reflexivity].
      apply hasKey_In in E. contradiction. }
    unfold maskedProperty. cbn [hasKey objGet].
    destruct (text_eqb k k0) eqn:Ek.
    + apply text_eqb_eq in Ek. subst k0. rewrite Hk0.
      rewrite (hasKey_objGet k ms) in Hk0.
      destruct (objGet k ms) eqn:Eg; [discriminate |].
      destruct (text_eqb k (lit "__proto__")) eqn:Ep; [reflexivity |].
      destruct (isSensitiveKey k) eqn:Es; cbn [orb];
        now rewrite objGet_objSet_same.
    + cbn [orb].
      assert (Hacc : forall v,
                objGet k (objSet k0 v acc) = objGet k acc)
        by (intro v; now apply objGet_objSet_other).
      destruct (text_eqb k (lit "__proto__")) eqn:Ep.
      * destruct (text_eqb k0 (lit "__proto__")); [reflexivity |].
        destruct (isSensitiveKey k0); apply Hacc.
      * destruct (isSensitiveKey k) eqn:Es.
        -- destruct (hasKey k ms); [reflexivity |].
           destruct (text_eqb k0 (lit "__proto__")); [reflexivity |].
           destruct (isSensitiveKey k0); apply Hacc.
        -- destruct (objGet k ms); [reflexivity |].
           destruct (text_eqb k0 (lit "__proto__")); [reflexivity |].
           destruct (isSensitiveKey k0); apply Hacc.
Qed.

(** X15.  Of an object, [sanitizeErrorForLogging] returns an object in
    which every property whose name holds [token] or [password], in
    whatever case, has the value [***], and every other property has the
    value it had, unread: a token inside a nested object stays.  No
    property is added, and none is lost but one named [__proto__]. *)
Theorem sanitizeErrorForLogging_masks_sensitive_keys members :
  NoDup (map fst members) ->
  exists sanitized,
    sanitizeErrorForLogging (PlainValue (JObj members))
    = LoggedValue (JObj sanitized)
    /\ forall k,
         objGet k sanitized
         = if text_eqb k (lit "__proto__") then None
           else if isSensitiveKey k
                then if hasKey k members
                     then Some (JStr (lit "***")) else None
                else objGet k members.
Proof.
  intro Hnd. exists (sanitizeMembers members). split; [reflexivity |].
  intro k. unfold sanitizeMembers.
  rewrite (sanitizeMembers_fold members [] k Hnd).
  fold (maskedProperty k members).
  now destruct (maskedProperty k members).
Qed.

Lemma sanitizeErrorForLogging_masks_sensitive_keys_witness :
  exists sanitized,
    sanitizeErrorForLogging
      (PlainValue
         (JObj [ (lit "authToken", JStr (lit "abc"));
                 (lit "details",
                  JObj [ (lit "token", JStr (lit "abc")) ]) ]))
    = LoggedValue (JObj sanitized)
    /\ forall k,
         objGet k sanitized
         = if text_eqb k (lit "__proto__") then None
           else if isSensitiveKey k
                then if hasKey k [ (lit "authToken", JStr (lit "abc"));
                                   (lit "details",
                                    JObj [ (lit "token", JStr (lit "abc")) ]) ]
                     then Some (JStr (lit "***")) else None
                else objGet k [ (lit "authToken", JStr (lit "abc"));
                                (lit "details",
                                 JObj [ (lit "token", JStr (lit "abc")) ]) ].
Proof.
  apply sanitizeErrorForLogging_masks_sensitive_keys.
  repeat constructor; cbn; intuition discriminate.
Defined.

End LoggingFacts.

(** ** Error classification *)

Module ErrorFacts.
Import Text JSON Security ErrorHandler.
Local Open Scope N_scope.

(** *** A pattern that matches keeps matching inside a longer text *)

Lemma matchLiteral_app ic pat : forall s r b,
  matchLiteral ic pat s = Some r -> matchLiteral ic pat (s ++ b) = Some (r ++ b).
Proof.
  induction pat as [| p pat IH]; intros s r b H; cbn in *.
  - now injection H as ->.
  - destruct s as [| c s]; [discriminate |]. cbn.
    destruct (charMatches ic p c); [now apply IH | discriminate].
Qed.

Lemma matchGapLiteral_app ic pat s b :
  matchGapLiteral ic pat s = true -> matchGapLiteral ic pat (s ++ b) = true.
Proof.
  induction s as [| c s IH]; cbn [matchGapLiteral app].
  - destruct (matchLiteral ic pat []) as [r |] eqn:E; [| discriminate].
    intros _. pose proof (matchLiteral_app ic pat [] r b E) as E'.
    cbn [app] in E'. destruct b; cbn [matchGapLiteral]; now rewrite E'.
  - destruct (matchLiteral ic pat (c :: s)) as [r |] eqn:E.
    + intros _. pose proof (matchLiteral_app ic pat (c :: s) r b E) as E'.
      cbn [app] in E'. now rewrite E'.
    + destruct (matchLiteral ic pat (c :: s ++ b)); [reflexivity |].
      destruct (isLineTerminator c); [discriminate | exact IH].
Qed.

Lemma matchHere_app r s b :
  matchHere r s = true -> matchHere r (s ++ b) = true.
Proof.
  destruct r as [ic pat | ic pat1 pat2]; cbn [matchHere].
  - destruct (matchLiteral ic pat s) as [rest |] eqn:E; [| discriminate].
    intros _. now rewrite (matchLiteral_app ic pat s rest b E).
  - destruct (matchLiteral ic pat1 s) as [rest |] eqn:E; [| discriminate].
    rewrite (matchLiteral_app ic pat1 s rest b E).
    apply matchGapLiteral_app.
Qed.

Lemma test_app_r r s b : test r s = true -> test r (s ++ b) = true.
Proof.
  induction s as [| c s IH]; cbn [test app].
  - rewrite orb_false_r. intro H.
    pose proof (matchHere_app r [] b H) as H'. cbn [app] in H'.
    destruct b; cbn [test]; now rewrite H'.
  - intro H. apply orb_true_iff in H as [H | H].
    + pose proof (matchHere_app r (c :: s) b H) as H'. cbn [app] in H'.
      now rewrite H'.
    + rewrite (IH H). apply orb_true_r.
Qed.

Lemma test_app_l r a s : test r s = true -> test r (a ++ s) = true.
Proof.
  intro H. induction a as [| c a IH]; [exact H |].
  cbn [test app]. rewrite IH. apply orb_true_r.
Qed.

Lemma existsb_test_wrapped patterns prefix msg suffix :
  existsb (fun pattern => test pattern msg) patterns = true ->
  existsb (fun pattern => test pattern (prefix ++ msg ++ suffix)) patterns
  = true.
Proof.
  rewrite !existsb_exists. intros [r [Hin Ht]]. exists r. split; [exact Hin |].
  apply test_app_l. now apply test_app_r.
Qed.

(** X16.  Wrapping a message into a longer one, as the transports do when
    they rethrow ([Failed to send message: ...]), never loses its class:
    if the message is an authentication error or a network error, so is
    every text that contains it; and a wrapped authentication error still
    prevents reconnection. *)
Theorem classification_survives_wrapping prefix msg suffix :
  (isAuthenticationError msg = true ->
   isAuthenticationError (prefix ++ msg ++ suffix) = true)
  /\ (Security.isNetworkError msg = true ->
      Security.isNetworkError (prefix ++ msg ++ suffix) = true)
  /\ (forall ctx ctx',
        shouldPreventReconnection (handleError msg ctx) = true ->
        shouldPreventReconnection
          (handleError (prefix ++ msg ++ suffix) ctx') = true
        /\ shouldRetry (handleError (prefix ++ msg ++ suffix) ctx') = false).
Proof.
  split; [apply existsb_test_wrapped |].
  split; [apply existsb_test_wrapped |].
  intros ctx ctx' H. change (isAuthenticationError msg = true) in H.
  pose proof (existsb_test_wrapped authErrorPatterns prefix msg suffix H) as Ha.
  change (isAuthenticationError (prefix ++ msg ++ suffix) = true) in Ha.
  unfold handleError. cbn [shouldPreventReconnection shouldRetry].
  rewrite Ha. split; [reflexivity | apply andb_false_r].
Qed.

(** *** The message shown to the user *)

(** X17.  The message [getUserFriendlyErrorMessage] returns is never
    empty, and it is never the connection-timed-out text: a message that
    mentions a timeout is a network error already, so it gets the
    network text (or the authentication text, which comes first). *)
Theorem getUserFriendlyErrorMessage_never_timed_out msg :
  getUserFriendlyErrorMessage msg <> []
  /\ getUserFriendlyErrorMessage msg
     <> lit "Connection timed out. The server may be unavailable."
  /\ (test (Literal true (lit "timeout")) msg = true ->
      getUserFriendlyErrorMessage msg
      = (if isAuthenticationError msg
         then lit "Authentication failed. Please check your credentials and try again."
         else lit "Network connection failed. Please check your internet connection and try again.")).
Proof.
  assert (Hnet : test (Literal true (lit "timeout")) msg = true ->
                 Security.isNetworkError msg = true).
  { intro H. unfold Security.isNetworkError, networkErrorPatterns.
    cbn [existsb]. rewrite H. now rewrite !orb_true_r. }
  unfold getUserFriendlyErrorMessage.
  destruct (isAuthenticationError msg) eqn:Ha.
  { repeat split; discriminate. }
  destruct (Security.isNetworkError msg) eqn:Hn.
  { repeat split; discriminate. }
  destruct (test (Literal true (lit "timeout")) msg) eqn:Ht.
  { specialize (Hnet eq_refl). discriminate Hnet. }
  destruct (test (Literal true (lit "websocket")) msg).
  { repeat split; discriminate. }
  destruct msg as [| c msg'].
  { repeat split; discriminate. }
  split; [discriminate |]. split; [| discriminate].
  intro E. rewrite E in Hn. vm_compute in Hn. discriminate Hn.
Qed.


End ErrorFacts.

(** ** The transports after [disconnect], and their handlers *)

Module TransportHandlers.
Import Text JSON JSONFacts ObjectFacts Js Transports TransportFacts.
Import Security ErrorHandler ErrorFacts.
Local Open Scope Z_scope.

(** *** After [disconnect] *)

(** X18.  After [disconnect], whatever the state before and whatever the
    transport, [isConnected] is false and [send] throws without reaching
    the socket or the network and without changing the transport. *)
Theorem send_after_disconnect_is_rejected outcome1 outcome2 message a :
  let a' := fields (Transports.disconnect outcome1 a) in
  isConnected a' = false
  /\ (exists e, completion (Transports.send outcome2 message a') = Throw e)
  /\ effects (Transports.send outcome2 message a') = []
  /\ fields (Transports.send outcome2 message a') = a'.
Proof.
  destruct a as [s | s | s]; cbn [Transports.disconnect].
  - rewrite ws_disconnect_result. cbn.
    repeat split. eexists. reflexivity.
  - rewrite es_disconnect_result. cbn.
    repeat split. eexists. reflexivity.
  - rewrite polling_disconnect_result. cbn.
    repeat split. eexists. reflexivity.
Qed.

(** *** Messages handed to the callback *)














(** *** The handlers of the socket and of the event source *)

Lemma ws_clearConnectionTimeout s :
  WebSocketTransport.clearConnectionTimeout s
  = (Return tt, WebSocketTransport.set_connectionTimeout false s,
     if WebSocketTransport.connectionTimeout s then [ClearTimer] else []).
Proof.
  unfold WebSocketTransport.clearConnectionTimeout, bind, get, when, emit,
    modify, ret.
  destruct s as [w m st e [|]]; reflexivity.
Qed.

Lemma authenticationFailed_isAuthenticationError reason :
  isAuthenticationError (WebSocketTransport.authenticationFailed reason) = true.
Proof.
  unfold WebSocketTransport.authenticationFailed.
  set (tail := match reason with [] => lit "Unauthorized" | _ :: _ => reason end).
  change (isAuthenticationError
            ([] ++ lit "Authentication" ++ (lit " failed: " ++ tail)) = true).
  apply (existsb_test_wrapped authErrorPatterns). reflexivity.
Qed.

Lemma ws_onclose_result code reason s :
  WebSocketTransport.onclose code reason s
  = (Return None, WebSocketTransport.set_connectionTimeout false s,
     (if WebSocketTransport.connectionTimeout s then [ClearTimer] else [])
     ++ (if ((code =? 1000) || (code =? 1001))%N then
           if WebSocketTransport.statusCallback s
           then [StatusCallback closed] else []
         else
           (if WebSocketTransport.statusCallback s
            then [StatusCallback error] else [])
           ++ (if WebSocketTransport.errorCallback s then
                 [ErrorCallback
                    (if ((code =? 1008) || (code =? 4001) || (code =? 4003))%N
                     then WebSocketTransport.authenticationFailed reason
                     else WebSocketTransport.closedAbnormally code reason)]
               else []))).
Proof.
  unfold WebSocketTransport.onclose.
  unfold bind at 1 2. rewrite ws_clearConnectionTimeout.
  destruct s as [w mc sc ec ct].
  unfold WebSocketTransport.set_connectionTimeout.
  cbn [WebSocketTransport.ws WebSocketTransport.messageCallback
       WebSocketTransport.statusCallback WebSocketTransport.errorCallback
       WebSocketTransport.connectionTimeout].
  destruct (code =? 1000)%N, (code =? 1001)%N;
    cbn [negb andb orb];
    try (destruct ((code =? 1008) || (code =? 4001) || (code =? 4003))%N);
    destruct sc, ec, ct; reflexivity.
Qed.

Lemma errorsOf_app es1 es2 :
  errorsOf (es1 ++ es2) = errorsOf es1 ++ errorsOf es2.
Proof. unfold errorsOf. apply flat_map_app. Qed.

(** X22.  The close handler of the socket never settles the promise of
    [connect] and never throws.  A close with code 1000 or 1001 reports
    the status closed and no error; any other code reports the status
    error and one error, and for the codes 1008, 4001 and 4003 that error
    is an authentication error whatever the reason, so that it is never
    retried. *)
Theorem onclose_reports_the_close code reason s :
  let r := WebSocketTransport.onclose code reason s in
  completion r = Return None
  /\ fields r = WebSocketTransport.set_connectionTimeout false s
  /\ (WebSocketTransport.statusCallback s = true ->
      statusesOf (effects r)
      = [if ((code =? 1000) || (code =? 1001))%N then closed else error])
  /\ (WebSocketTransport.errorCallback s = true ->
      (((code =? 1000) || (code =? 1001))%N = true ->
       errorsOf (effects r) = [])
      /\ (((code =? 1000) || (code =? 1001))%N = false ->
          exists msg,
            errorsOf (effects r) = [msg]
            /\ (((code =? 1008) || (code =? 4001) || (code =? 4003))%N = true ->
                isAuthenticationError msg = true
                /\ forall attemptCount,
                     shouldRetryOnError msg attemptCount = false))).
Proof.
  cbv zeta. rewrite ws_onclose_result.
  unfold completion, fields, effects; cbn [fst snd].
  split; [reflexivity |]. split; [reflexivity |].
  rewrite statusesOf_app, errorsOf_app.
  split.
  - intro Hs. rewrite Hs.
    destruct ((code =? 1000) || (code =? 1001))%N;
      destruct (WebSocketTransport.connectionTimeout s),
        (WebSocketTransport.errorCallback s); reflexivity.
  - intro He. rewrite He. split; intro Hn; rewrite Hn.
    + destruct (WebSocketTransport.connectionTimeout s),
        (WebSocketTransport.statusCallback s); reflexivity.
    + eexists. split.
      * destruct (WebSocketTransport.connectionTimeout s),
          (WebSocketTransport.statusCallback s); reflexivity.
      * intro Ha. rewrite Ha. split.
        -- apply authenticationFailed_isAuthenticationError.
        -- intro n. unfold shouldRetryOnError.
           now rewrite authenticationFailed_isAuthenticationError.
Qed.

Lemma onclose_reports_the_close_witness :
  completion
    (WebSocketTransport.onclose 4001 (lit "expired")
       {| WebSocketTransport.ws := Some WebSocketTransport.CLOSED;
          WebSocketTransport.messageCallback := true;
          WebSocketTransport.statusCallback := true;
          WebSocketTransport.errorCallback := true;
          WebSocketTransport.connectionTimeout := true |})
  = Return None
  /\ statusesOf
       (effects
          (WebSocketTransport.onclose 4001 (lit "expired")
             {| WebSocketTransport.ws := Some WebSocketTransport.CLOSED;
                WebSocketTransport.messageCallback := true;
                WebSocketTransport.statusCallback := true;
                WebSocketTransport.errorCallback := true;
                WebSocketTransport.connectionTimeout := true |}))
     = [error].
Proof.
  pose proof (onclose_reports_the_close 4001 (lit "expired")
                {| WebSocketTransport.ws := Some WebSocketTransport.CLOSED;
                   WebSocketTransport.messageCallback := true;
                   WebSocketTransport.statusCallback := true;
                   WebSocketTransport.errorCallback := true;
                   WebSocketTransport.connectionTimeout := true |})
    as (Hc & _ & Hs & _).
  split; [exact Hc | exact (Hs eq_refl)].
Defined.

Lemma connectionFailed_isNetworkError baseUrl :
  Security.isNetworkError (WebSocketTransport.connectionFailed baseUrl) = true.
Proof.
  unfold WebSocketTransport.connectionFailed.
  change (Security.isNetworkError
            (lit "WebSocket " ++ lit "connection"
             ++ (lit " failed. Please ensure the backend server is running at "
                 ++ baseUrl)) = true).
  apply (existsb_test_wrapped networkErrorPatterns). reflexivity.
Qed.

Lemma ws_onerror_result baseUrl s :
  WebSocketTransport.onerror baseUrl s
  = (Return (Some (Reject (WebSocketTransport.connectionFailed baseUrl))),
     WebSocketTransport.set_connectionTimeout false s,
     (if WebSocketTransport.connectionTimeout s then [ClearTimer] else [])
     ++ (if WebSocketTransport.errorCallback s
         then [ErrorCallback (WebSocketTransport.connectionFailed baseUrl)]
         else [])).
Proof.
  unfold WebSocketTransport.onerror.
  unfold bind at 1 2. rewrite ws_clearConnectionTimeout.
  destruct s as [w mc sc ec ct].
  unfold WebSocketTransport.set_connectionTimeout.
  cbn [WebSocketTransport.ws WebSocketTransport.messageCallback
       WebSocketTransport.statusCallback WebSocketTransport.errorCallback
       WebSocketTransport.connectionTimeout].
  destruct ec, ct; reflexivity.
Qed.

(** X23.  The error handler of the socket rejects the promise of
    [connect] with the very error it reports, once, to the error
    callback; whatever the configured base URL, that error is a network
    error and is never shown to the user as it stands. *)
Theorem ws_onerror_rejects_with_network_error baseUrl s :
  let r := WebSocketTransport.onerror baseUrl s in
  exists msg,
    completion r = Return (Some (Reject msg))
    /\ fields r = WebSocketTransport.set_connectionTimeout false s
    /\ errorsOf (effects r)
       = (if WebSocketTransport.errorCallback s then [msg] else [])
    /\ statusesOf (effects r) = []
    /\ Security.isNetworkError msg = true
    /\ getUserFriendlyErrorMessage msg <> msg.
Proof.
  exists (WebSocketTransport.connectionFailed baseUrl).
  rewrite ws_onerror_result.
  unfold completion, fields, effects; cbn [fst snd].
  split; [reflexivity |]. split; [reflexivity |].
  rewrite statusesOf_app, errorsOf_app.
  split; [| split; [| split]].
  - destruct (WebSocketTransport.errorCallback s),
      (WebSocketTransport.connectionTimeout s); reflexivity.
  - destruct (WebSocketTransport.errorCallback s),
      (WebSocketTransport.connectionTimeout s); reflexivity.
  - apply connectionFailed_isNetworkError.
  - unfold getUserFriendlyErrorMessage.
    rewrite connectionFailed_isNetworkError.
    destruct (isAuthenticationError _); discriminate.
Qed.

Lemma es_onerror_result s :
  EventSourceTransport.onerror s
  = match EventSourceTransport.eventSource s with
    | Some EventSourceTransport.CLOSED =>
        if EventSourceTransport.isManualClose s then (Return None, s, [])
        else
          (Return (Some (Reject EventSourceTransport.closedUnexpectedly)), s,
           (if EventSourceTransport.statusCallback s
            then [StatusCallback error] else [])
           ++ (if EventSourceTransport.errorCallback s
               then [ErrorCallback EventSourceTransport.closedUnexpectedly]
               else []))
    | Some EventSourceTransport.CONNECTING =>
        (Return None, s,
         if EventSourceTransport.statusCallback s
         then [StatusCallback connecting] else [])
    | _ => (Return None, s, [])
    end.
Proof.
  destruct s as [[[| |] |] sid mc sc ec im]; destruct sc, ec, im; reflexivity.
Qed.

(** X24.  The error handler of the event source never throws and never
    changes the transport.  It rejects the promise of [connect] only for
    a source that is closed and was not closed by [disconnect]; after
    [disconnect] it does nothing at all. *)
Theorem es_onerror_silent_after_disconnect s :
  let r := EventSourceTransport.onerror s in
  fields r = s
  /\ (exists settle,
        completion r = Return settle
        /\ (settle <> None <->
            EventSourceTransport.eventSource s
            = Some EventSourceTransport.CLOSED
            /\ EventSourceTransport.isManualClose s = false))
  /\ (EventSourceTransport.isManualClose s = true ->
      errorsOf (effects r) = [])
  /\ EventSourceTransport.onerror
       (fields (EventSourceTransport.disconnect s))
     = (Return None, fields (EventSourceTransport.disconnect s), []).
Proof.
  cbv zeta. rewrite es_onerror_result.
  split; [| split; [| split]].
  - destruct (EventSourceTransport.eventSource s) as [[| |] |],
      (EventSourceTransport.isManualClose s); reflexivity.
  - destruct (EventSourceTransport.eventSource s) as [[| |] |],
      (EventSourceTransport.isManualClose s);
      eexists; (split; [reflexivity |]);
      (split; [intro H; try (now elim H); split; reflexivity
              | intros [H1 H2]; discriminate]).
  - intro Hm. rewrite Hm.
    destruct (EventSourceTransport.eventSource s) as [[| |] |];
      try reflexivity.
    unfold effects; cbn [snd].
    destruct (EventSourceTransport.statusCallback s); reflexivity.
  - rewrite es_disconnect_result. reflexivity.
Qed.

End TransportHandlers.

(** ** The coordinator: proposals, and what follows a disconnect *)

Module SessionRuns.
Import Text JSON JSONFacts Js Transports TransportFacts.
Import Security ErrorHandler Session SessionFacts SendFacts.
Local Open Scope Z_scope.

(** *** Speak proposals *)

Lemma addMessage_speakProposals config m s :
  speakProposals (addMessage config m s)
  = speakProposals s ++ (if isSpeakProposal m then [proposalOf m] else []).
Proof.
  unfold addMessage. destruct (isSpeakProposal m); cbn.
  - reflexivity.
  - now rewrite app_nil_r.
Qed.

(** X25.  The list of speak proposals only grows under [addMessage]: after
    any sequence of messages it is the list before followed by one proposal
    for each speak proposal message, in the order of arrival.  The bound on
    the message list does not apply to it, and [clearMessages] leaves it as
    it is. *)
Theorem speakProposals_accumulate config appended s :
  speakProposals (fold_left (fun s m => addMessage config m s) appended s)
  = speakProposals s ++ map proposalOf (filter isSpeakProposal appended)
  /\ speakProposals
       (clearMessages (fold_left (fun s m => addMessage config m s) appended s))
     = speakProposals s ++ map proposalOf (filter isSpeakProposal appended).
Proof.
  assert (H : forall s,
             speakProposals
               (fold_left (fun s m => addMessage config m s) appended s)
             = speakProposals s
               ++ map proposalOf (filter isSpeakProposal appended)).
  { induction appended as [| m appended IH]; intro s0; cbn [fold_left filter].
    - cbn. now rewrite app_nil_r.
    - rewrite IH, addMessage_speakProposals.
      destruct (isSpeakProposal m); cbn [map].
      + now rewrite <- app_assoc.
      + now rewrite app_nil_r. }
  split; [apply H |].
  unfold clearMessages, setMessages. cbn [speakProposals]. apply H.
Qed.

(** What [sendMessage] leaves of the coordinator: all but the transport. *)
Lemma sendMessage_fields outcome message s :
  fields (sendMessage outcome message s)
  = match transportRef s with
    | None => s
    | Some _ =>
        set_transportRef
          (transportRef (fields (sendMessage outcome message s))) s
    end.
Proof.
  assert (Hid : forall a, transportRef s = Some a ->
                          s = set_transportRef (Some a) s).
  { intros a Ha. destruct s. cbn in *. now rewrite Ha. }
  assert (Hpure : exists c, sanitizeMessage message s = (c, s, [])).
  { unfold sanitizeMessage, bind, liftCompletion, ret.
    destruct message; cbn;
      try match goal with
          | |- context [sanitizeJsonInput ?x] => destruct (sanitizeJsonInput x)
          end; eexists; reflexivity. }
  destruct Hpure as [c Hpure].
  unfold sendMessage, tryCatch, bind, get. cbv beta iota.
  destruct (transportRef s) as [a |] eqn:Ha; [| reflexivity].
  destruct (isConnected a); cbn [negb];
    [| unfold throw, fields; cbn [fst snd]; rewrite Ha; now apply Hid].
  rewrite Hpure.
  destruct c as [sanitized | e].
  - unfold emit. cbv beta iota. unfold onTransport. rewrite Ha.
    destruct (Transports.send outcome sanitized a) as [[c' a'] es'].
    destruct c'; unfold throw, fields; cbn [fst snd]; reflexivity.
  - unfold throw, fields; cbn [fst snd]. rewrite Ha. now apply Hid.
Qed.

Lemma sendMessage_keeps outcome message s :
  let s' := fields (sendMessage outcome message s) in
  speakProposals s' = speakProposals s
  /\ messages s' = messages s
  /\ (transportRef s = None -> s' = s).
Proof.
  cbv zeta. rewrite sendMessage_fields.
  destruct (transportRef s); repeat split.
  intro H; discriminate H.
Qed.

Lemma sendMessage_none outcome message s :
  transportRef s = None ->
  sendMessage outcome message s
  = (Throw (lit "Not connected to session"), s, []).
Proof.
  intro H. unfold sendMessage, bind, get. cbv beta iota. now rewrite H.
Qed.

Lemma approveSpeakProposal_result outcome id s :
  approveSpeakProposal outcome id s
  = match sendMessage outcome (proposalResponse id true) s with
    | (Return _, s', es) =>
        (Return tt, setSpeakProposals (filter (isOtherProposal id)) s',
         es ++ [])
    | (Throw _, s', es) =>
        (Return tt, s',
         es ++ [ConsoleError (lit "Failed to approve speak proposal:")])
    end.
Proof.
  unfold approveSpeakProposal, tryCatch, bind, modify, emit.
  destruct (sendMessage outcome (proposalResponse id true) s) as [[[u | e] s'] es];
    reflexivity.
Qed.

Lemma denySpeakProposal_result outcome id s :
  denySpeakProposal outcome id s
  = match sendMessage outcome (proposalResponse id false) s with
    | (Return _, s', es) =>
        (Return tt, setSpeakProposals (filter (isOtherProposal id)) s',
         es ++ [])
    | (Throw _, s', es) =>
        (Return tt, s',
         es ++ [ConsoleError (lit "Failed to deny speak proposal:")])
    end.
Proof.
  unfold denySpeakProposal, tryCatch, bind, modify, emit.
  destruct (sendMessage outcome (proposalResponse id false) s) as [[[u | e] s'] es];
    reflexivity.
Qed.

Lemma respondToProposal_result approved outcome id s :
  exists label,
    respondToProposal approved outcome id s
    = match sendMessage outcome (proposalResponse id approved) s with
      | (Return _, s', es) =>
          (Return tt, setSpeakProposals (filter (isOtherProposal id)) s', es)
      | (Throw _, s', es) => (Return tt, s', es ++ [ConsoleError label])
      end.
Proof.
  destruct approved; cbn [respondToProposal]; eexists;
    [rewrite approveSpeakProposal_result | rewrite denySpeakProposal_result];
    destruct (sendMessage outcome (proposalResponse id _) s) as [[[u | e] s'] es];
    rewrite ?app_nil_r; reflexivity.
Qed.

Lemma wellFormed_proposalResponse id approved :
  codeUnits id -> wellFormed (proposalResponse id approved).
Proof.
  intro Hid. unfold proposalResponse. cbn [wellFormed].
  split; [reflexivity |].
  repeat split; try exact Hid;
    repeat (constructor; try (cbv; reflexivity)).
Qed.

(** X26.  [approveSpeakProposal] and [denySpeakProposal] never throw and
    never touch the messages.  They remove a proposal only after the
    answer was sent: when [sendMessage] throws, the failure is logged and
    the list of proposals is as before; when it returns, exactly the
    proposals whose identifier is the given string are gone and the
    others keep their order.  Over an open socket and for an identifier
    of UTF-16 code units the answer is sent. *)
Theorem proposal_removed_only_when_answered approved outcome id s :
  let sent := sendMessage outcome (proposalResponse id approved) s in
  let r := respondToProposal approved outcome id s in
  completion r = Return tt
  /\ messages (fields r) = messages s
  /\ (forall e, completion sent = Throw e ->
        speakProposals (fields r) = speakProposals s
        /\ exists label, effects r = effects sent ++ [ConsoleError label])
  /\ (completion sent = Return tt ->
        speakProposals (fields r)
        = filter (isOtherProposal id) (speakProposals s)
        /\ Forall (fun p => proposalId p <> JStr id) (speakProposals (fields r))
        /\ effects r = effects sent)
  /\ (transportRef s = None -> fields r = s /\ sentOf (effects r) = [])
  /\ (forall w, transportRef s = Some (OfWebSocket w) ->
        WebSocketTransport.isConnected w = true -> codeUnits id ->
        completion sent = Return tt
        /\ sentOf (effects sent)
           = [JStr (JSON_stringify (proposalResponse id approved))]).
Proof.
  cbv zeta.
  destruct (respondToProposal_result approved outcome id s) as [label ->].
  pose proof (sendMessage_keeps outcome (proposalResponse id approved) s)
    as (Hp & Hm & Hnone).
  split; [| split; [| split; [| split; [| split]]]].
  - destruct (sendMessage _ _ s) as [[[u | e] s'] es]; reflexivity.
  - destruct (sendMessage _ _ s) as [[[u | e] s'] es]; exact Hm.
  - intros e He.
    destruct (sendMessage _ _ s) as [[[u | e'] s'] es]; [discriminate He |].
    split; [exact Hp | now exists label].
  - intro Hr.
    destruct (sendMessage _ _ s) as [[[u | e'] s'] es]; [| discriminate Hr].
    unfold fields, effects in *; cbn [fst snd setSpeakProposals speakProposals]
      in *.
    rewrite Hp. split; [reflexivity |]. split; [| reflexivity].
    apply Forall_forall. intros p Hin. apply filter_In in Hin as [_ Hk].
    unfold isOtherProposal in Hk. intro Heq. rewrite Heq in Hk.
    now rewrite ObjectFacts.text_eqb_refl in Hk.
  - intro Hn. rewrite (sendMessage_none _ _ _ Hn). split; reflexivity.
  - intros w Hw Hc Hid.
    pose proof (sendMessage_sent outcome (proposalResponse id approved) s
                  (OfWebSocket w) Hw Hc) as Hsent.
    rewrite (sanitizeMessage_object (proposalResponse id approved) s
               eq_refl (wellFormed_proposalResponse id approved Hid)) in Hsent.
    split; [| exact Hsent].
    unfold sendMessage, tryCatch, bind, get. cbv beta iota.
    rewrite Hw. cbn [isConnected]. rewrite Hc. cbn [negb].
    rewrite (sanitizeMessage_object (proposalResponse id approved) s
               eq_refl (wellFormed_proposalResponse id approved Hid)).
    unfold emit, onTransport. cbv beta iota. rewrite Hw.
    cbn [Transports.send]. unfold inTransport.
    unfold WebSocketTransport.send, bind, get. cbv beta iota.
    rewrite Hc. reflexivity.
Qed.

(** *** A send the server refuses *)

Lemma http_send_refused status statusText m a :
  isConnected a = true ->
  match a with
  | OfWebSocket _ => False
  | OfEventSource t => EventSourceTransport.sessionId t <> None
  | OfPolling _ => True
  end ->
  exists id,
    Transports.send (FetchResponse false status statusText) m a
    = (Throw (lit "Failed to send message: "
              ++ lit "Failed to send message: " ++ status ++ lit " "
              ++ statusText),
       a,
       [FetchPost (lit "/send")
          (JObj [ (lit "session_id", JStr id); (lit "message", m) ])]).
Proof.
  intros Hc Hhttp. destruct a as [t | t | t]; [contradiction | |].
  - destruct t as [es [id |] mc sc ec im]; [| now elim Hhttp].
    exists id. reflexivity.
  - destruct t as [[id |] pi mc sc ec [|] q ab]; try discriminate Hc.
    exists id. reflexivity.
Qed.

(** X27.  When the server answers the POST of an HTTP transport with a
    status that is not ok, [sendMessage] throws the user message of the
    transport's error, which carries the prefix of [send] twice before the
    status; the message was handed over and posted once, and the
    transport is as before.  For a status that reads as an authentication
    error (401 or 403, say) the caller sees the authentication text. *)
Theorem refused_send_surfaces_user_message message m' status statusText s a :
  transportRef s = Some a ->
  isConnected a = true ->
  match a with
  | OfWebSocket _ => False
  | OfEventSource t => EventSourceTransport.sessionId t <> None
  | OfPolling _ => True
  end ->
  sanitizeMessage message s = (Return m', s, []) ->
  let r := sendMessage (FetchResponse false status statusText) message s in
  completion r
  = Throw (getUserFriendlyErrorMessage
             (lit "Failed to send message: Failed to send message: "
              ++ status ++ lit " " ++ statusText))
  /\ (isAuthenticationError status = true ->
      completion r
      = Throw (lit "Authentication failed. Please check your credentials and try again."))
  /\ fields r = s
  /\ exists id,
       effects r
       = [TransportSend m';
          FetchPost (lit "/send")
            (JObj [ (lit "session_id", JStr id); (lit "message", m') ])].
Proof.
  intros Ha Hc Hhttp Hm.
  destruct (http_send_refused status statusText m' a Hc Hhttp) as [id Hsend].
  assert (Hr : sendMessage (FetchResponse false status statusText) message s
               = (Throw (getUserFriendlyErrorMessage
                           (lit "Failed to send message: Failed to send message: "
                            ++ status ++ lit " " ++ statusText)),
                  s,
                  [TransportSend m';
                   FetchPost (lit "/send")
                     (JObj [ (lit "session_id", JStr id);
                             (lit "message", m') ])])).
  { unfold sendMessage, tryCatch, bind, get. cbv beta iota.
    rewrite Ha, Hc. cbn [negb]. rewrite Hm.
    unfold emit, onTransport. cbv beta iota. rewrite Ha, Hsend.
    unfold throw. cbn [handleError userMessage app].
    f_equal. f_equal.
    destruct s; cbn in *. now rewrite Ha. }
  cbv zeta. rewrite Hr. unfold completion, fields, effects; cbn [fst snd].
  split; [reflexivity |]. split; [| split; [reflexivity | now exists id]].
  intro Hauth. f_equal. unfold getUserFriendlyErrorMessage.
  change (lit "Failed to send message: Failed to send message: "
          ++ status ++ lit " " ++ statusText)
    with (lit "Failed to send message: Failed to send message: "
          ++ status ++ (lit " " ++ statusText)).
  unfold isAuthenticationError in *.
  now rewrite (ErrorFacts.existsb_test_wrapped authErrorPatterns _ status _ Hauth).
Qed.

Lemma refused_send_surfaces_user_message_witness :
  completion
    (sendMessage (FetchResponse false (lit "401") (lit "Unauthorized"))
       (JBool true) examplePollingSession)
  = Throw (lit "Authentication failed. Please check your credentials and try again.").
Proof.
  refine (proj1 (proj2 (refused_send_surfaces_user_message
                          (JBool true) (JBool true) (lit "401")
                          (lit "Unauthorized") examplePollingSession
                          (OfPolling examplePolling)
                          eq_refl eq_refl I eq_refl))
            eq_refl).
Defined.

(** *** After [disconnect] *)




End SessionRuns.
